(** * Arduino home automation: rule engine and schedule/timer engine

    A shallow embedding of [AutomationController.cpp] and
    [ScheduleController.cpp] (with the constants of [Config.h]) and the
    properties of the two decision engines.

    Conventions of the embedding:
    - [uint8_t], [uint16_t], [uint32_t] and [unsigned long] (32 bits on the
      AVR target) data are integers of [Z]; every place where the source
      narrows a value to such a type applies [uint8], [uint16] or [uint32].
      Arithmetic on [uint8_t] operands is carried out in [int] after integer
      promotion, so [threshold - hysteresis] is a plain difference in [Z].
    - Logical counts and array indices are naturals; the fixed-capacity
      arrays are lists indexed with stdpp's lookup and insert.
    - [for] loops over an index are iterated by [for_range].
    - The relay callback is an optional function on the memory holding the
      relay states; every invocation is recorded in a call log. *)

From Stdlib Require Import ZArith Lia Bool.
From stdpp Require Import base numbers list strings gmap.

Local Open Scope Z_scope.

(** ** Fixed-width unsigned integers *)

Definition uint8 (z : Z) : Z := z mod 256.
Definition uint16 (z : Z) : Z := z mod 65536.
Definition uint32 (z : Z) : Z := z mod 4294967296.

Definition is_uint8 (z : Z) : Prop := 0 <= z < 256.
Definition is_uint32 (z : Z) : Prop := 0 <= z < 4294967296.

(** ** Config.h *)

Module Config.
Definition RELAY_COUNT : Z := 5.
Definition RELAY_GUEST_ROOM : Z := 2.

Definition MAX_AUTOMATION_RULES : nat := 5.
Definition TEMP_HYSTERESIS : Z := 2.
Definition TEMP_THRESHOLD_HIGH : Z := 28.
Definition TEMP_THRESHOLD_LOW : Z := 20.

Definition MAX_SCHEDULES : nat := 6.
Definition MAX_TIMERS : nat := 5.

Definition SCHEDULE_MONDAY : Z := 1.
Definition SCHEDULE_SUNDAY : Z := 64.
Definition SCHEDULE_WEEKDAYS : Z := 31.
Definition SCHEDULE_WEEKEND : Z := 96.
Definition SCHEDULE_DAILY : Z := 127.

Definition FILE_SCHEDULES : string := "data/schedules.dat".
Definition FILE_AUTOMATION : string := "data/automation.dat".
End Config.
Import Config.

(** ** Index loops

    [for_range lo hi body s] runs [body lo], [body (lo+1)], ...,
    [body (hi-1)] in this order: the loop
    [for (uint8_t i = lo; i < hi; i++) body]. *)

Fixpoint for_loop {St : Type} (n : nat) (i : nat) (body : nat → St → St) (s : St) : St :=
  match n with
  | O => s
  | S n' => for_loop n' (S i) body (body i s)
  end.

Definition for_range {St : Type} (lo hi : nat) (body : nat → St → St) (s : St) : St :=
  for_loop (hi - lo) lo body s.

(** ** The outside world: relay states and the actuation callback *)

(** [bool* relayStates]: the memory the pointer designates. *)
Definition RelayStates : Type := Z → bool.

(** The function pointer [relayCallback], taking a relay id and a state:
    [None] is [nullptr]; a callback may write the relay states. *)
Definition Callback : Type := option (Z → bool → RelayStates → RelayStates).

Record World : Type := mkWorld {
  relayStates : RelayStates;
  calls : list (Z * bool)
}.

(** [relayCallback(relayId, state)], for a callback that is not null. *)
Definition invoke (f : Z → bool → RelayStates → RelayStates)
    (relayId : Z) (state : bool) (w : World) : World :=
  {| relayStates := f relayId state (relayStates w);
     calls := calls w ++ [(relayId, state)] |}.

(** A world with every relay off and an empty call log, and the callback
    that stores the state it is given. *)
Definition quiet : World := mkWorld (λ _, false) [].
Definition store_state : Z → bool → RelayStates → RelayStates :=
  λ relayId state m r, if r =? relayId then state else m r.

(** ** Sweeps over the slots of an array

    The loop body [T& x = arr[i]; ... x is updated in place ...], for a
    body that acts on slot [i] and on the world only. *)

Section ArraySweep.
Context {A W : Type} (step : A → W → A * W).

Definition sweep_body (i : nat) (s : list A * W) : list A * W :=
  match s.1 !! i with
  | Some a => let '(a', w') := step a s.2 in (<[i := a']> s.1, w')
  | None => s
  end.

Definition sweep (count : nat) (arr : list A) (w : W) : list A * W :=
  for_range 0 count sweep_body (arr, w).

(** The same steps, threaded through a list from left to right. *)
Fixpoint thread (l : list A) (w : W) : list A * W :=
  match l with
  | [] => ([], w)
  | a :: l' =>
      let '(a', w') := step a w in
      let '(l'', w'') := thread l' w' in
      (a' :: l'', w'')
  end.
End ArraySweep.

(** [for (i = index; i < count - 1; i++) arr[i] = arr[i + 1];] *)
Definition shift_down {A : Type} (index count : nat) (arr : list A) : list A :=
  for_range index (count - 1)
    (λ i arr, match arr !! S i with Some x => <[i := x]> arr | None => arr end) arr.

(** ** The SD card

    The part of the Arduino SD library the controllers use. A card holds
    files (byte sequences by path) and directories; [ready] tells whether
    [SD.open] can succeed at all. Writes to an open file always succeed. *)

Module SD.
Record card : Type := mk {
  files : gmap string (list Z);
  dirs : gset string;
  ready : bool
}.

(** [SD.exists(path)] *)
Definition exists_ (sd : card) (path : string) : bool :=
  bool_decide (is_Some (files sd !! path)) || bool_decide (path ∈ dirs sd).

(** [SD.remove(path)] *)
Definition remove (sd : card) (path : string) : card :=
  mk (delete path (files sd)) (dirs sd) (ready sd).

(** [SD.mkdir(path)] *)
Definition mkdir (sd : card) (path : string) : card :=
  mk (files sd) ({[path]} ∪ dirs sd) (ready sd).

(** [SD.open(path, FILE_READ)]: the bytes still to be read, or [None] when
    the returned [File] is false. *)
Definition open_read (sd : card) (path : string) : option (list Z) :=
  if ready sd then files sd !! path else None.

(** [SD.open(path, FILE_WRITE)]: creates the file when it is absent and
    positions at its end; the handle is the content written so far. *)
Definition open_write (sd : card) (path : string) : option (list Z) :=
  if ready sd then Some (default [] (files sd !! path)) else None.

(** [file.close()] on a file opened for writing. *)
Definition close_write (sd : card) (path : string) (content : list Z) : card :=
  mk (<[path := content]> (files sd)) (dirs sd) (ready sd).

(** [file.read()]: the next byte, or -1 at the end of the file. *)
Definition read (file : list Z) : Z * list Z :=
  match file with
  | [] => (-1, [])
  | b :: rest => (b, rest)
  end.

(** [file.read(buf, n)]: up to [n] bytes. *)
Definition read_buf (n : nat) (file : list Z) : list Z * list Z :=
  (take n file, drop n file).

(** A file of bytes. *)
Definition wf_file (file : list Z) : Prop := Forall is_uint8 file.
End SD.

(** ** Count-prefixed arrays of fixed-size records

    [file.write((uint8_t* )&arr[i], sizeof(T))] and
    [file.read((uint8_t* )&arr[i], sizeof(T))], for a record type whose
    object representation is given by [to_bytes] and [of_bytes]. *)

Section Records.
Context {A : Type} (sizeof : nat) (to_bytes : A → list Z) (of_bytes : list Z → A).

Definition write_records (count : nat) (arr : list A) (file : list Z) : list Z :=
  for_range 0 count
    (λ i file, match arr !! i with Some r => file ++ to_bytes r | None => file end)
    file.

(** Reading into a slot overwrites the first bytes of its representation
    with the bytes obtained; a short read leaves the others as they were. *)
Definition read_record (old : A) (file : list Z) : A * list Z :=
  let '(got, rest) := SD.read_buf sizeof file in
  (of_bytes (got ++ drop (length got) (to_bytes old)), rest).

Definition read_records (count : nat) (arr : list A) (file : list Z) : list A * list Z :=
  sweep read_record count arr file.
End Records.

Definition byte_at (l : list Z) (i : nat) : Z := default 0 (l !! i).

(** A [bool] field is one byte, 0 or 1 when the program wrote it. A byte
    read from a file is taken for the truth value a test of the field
    gives: a byte other than 0 and 1, which the memory would keep as it
    is, reads as true and would be written back as 1. *)
Definition bool_to_byte (b : bool) : Z := if b then 1 else 0.
Definition bool_of_byte (z : Z) : bool := negb (z =? 0).

(** Little-endian [unsigned long]. *)
Definition le32 (z : Z) : list Z :=
  [z mod 256; (z / 256) mod 256; (z / 65536) mod 256; (z / 16777216) mod 256].
Definition of_le32 (b0 b1 b2 b3 : Z) : Z :=
  b0 + 256 * b1 + 65536 * b2 + 16777216 * b3.

(** ** AutomationController.h *)

Inductive TriggerType : Type :=
  | TEMP_HIGH
  | TEMP_LOW
  | TEMP_RANGE
  | MANUAL_ONLY
  | MOTION_DETECTED
  | LIGHT_LOW
  | TriggerType_raw (n : nat).   (* underlying value 6 + n, no enumerator *)

Inductive ActionType : Type :=
  | TURN_ON
  | TURN_OFF
  | TOGGLE
  | ActionType_raw (n : nat).    (* underlying value 3 + n, no enumerator *)

(** The underlying [uint8_t] of the two enumerations. *)
Definition TriggerType_to_byte (x : TriggerType) : Z :=
  match x with
  | TEMP_HIGH => 0
  | TEMP_LOW => 1
  | TEMP_RANGE => 2
  | MANUAL_ONLY => 3
  | MOTION_DETECTED => 4
  | LIGHT_LOW => 5
  | TriggerType_raw n => 6 + Z.of_nat n
  end.

Definition TriggerType_of_byte (z : Z) : TriggerType :=
  if z =? 0 then TEMP_HIGH
  else if z =? 1 then TEMP_LOW
  else if z =? 2 then TEMP_RANGE
  else if z =? 3 then MANUAL_ONLY
  else if z =? 4 then MOTION_DETECTED
  else if z =? 5 then LIGHT_LOW
  else TriggerType_raw (Z.to_nat (z - 6)).

Definition ActionType_to_byte (x : ActionType) : Z :=
  match x with
  | TURN_ON => 0
  | TURN_OFF => 1
  | TOGGLE => 2
  | ActionType_raw n => 3 + Z.of_nat n
  end.

Definition ActionType_of_byte (z : Z) : ActionType :=
  if z =? 0 then TURN_ON
  else if z =? 1 then TURN_OFF
  else if z =? 2 then TOGGLE
  else ActionType_raw (Z.to_nat (z - 3)).

Module AutomationRule.
Record t : Type := mk {
  relayId : Z;
  triggerType : TriggerType;
  action : ActionType;
  threshold : Z;
  thresholdHigh : Z;
  enabled : bool;
  currentlyTriggered : bool;
  hysteresis : Z;
  lastTriggerTime : Z
}.

Definition set_enabled (b : bool) (r : t) : t :=
  mk (relayId r) (triggerType r) (action r) (threshold r) (thresholdHigh r)
     b (currentlyTriggered r) (hysteresis r) (lastTriggerTime r).

Definition set_currentlyTriggered (b : bool) (r : t) : t :=
  mk (relayId r) (triggerType r) (action r) (threshold r) (thresholdHigh r)
     (enabled r) b (hysteresis r) (lastTriggerTime r).

Definition set_lastTriggerTime (z : Z) (r : t) : t :=
  mk (relayId r) (triggerType r) (action r) (threshold r) (thresholdHigh r)
     (enabled r) (currentlyTriggered r) (hysteresis r) z.

(** A zero-initialised slot. *)
Definition zero : t := mk 0 TEMP_HIGH TURN_ON 0 0 false false 0 0.

(** Every field holds a value of its C type. *)
Definition wf (r : t) : Prop :=
  is_uint8 (relayId r) ∧ is_uint8 (threshold r) ∧ is_uint8 (thresholdHigh r) ∧
  is_uint8 (hysteresis r) ∧ is_uint32 (lastTriggerTime r) ∧
  (∀ n, triggerType r = TriggerType_raw n → (n < 250)%nat) ∧
  (∀ n, action r = ActionType_raw n → (n < 253)%nat).

(** Object representation on the AVR target: the fields in declaration
    order, one byte each but for the four-byte [lastTriggerTime], without
    padding. *)
Definition sizeof : nat := 12.

Definition to_bytes (r : t) : list Z :=
  [relayId r; TriggerType_to_byte (triggerType r); ActionType_to_byte (action r);
   threshold r; thresholdHigh r; bool_to_byte (enabled r);
   bool_to_byte (currentlyTriggered r); hysteresis r] ++ le32 (lastTriggerTime r).

Definition of_bytes (l : list Z) : t :=
  mk (byte_at l 0) (TriggerType_of_byte (byte_at l 1)) (ActionType_of_byte (byte_at l 2))
     (byte_at l 3) (byte_at l 4) (bool_of_byte (byte_at l 5))
     (bool_of_byte (byte_at l 6)) (byte_at l 7)
     (of_le32 (byte_at l 8) (byte_at l 9) (byte_at l 10) (byte_at l 11)).
End AutomationRule.

Module AutomationController.
Import AutomationRule.

Record t : Type := mk {
  rules : list AutomationRule.t;   (* AutomationRule rules[MAX_AUTOMATION_RULES] *)
  ruleCount : nat;
  automationEnabled : bool;
  lastTemperature : Z
}.

Definition set_rules (l : list AutomationRule.t) (st : t) : t :=
  mk l (ruleCount st) (automationEnabled st) (lastTemperature st).
Definition set_ruleCount (n : nat) (st : t) : t :=
  mk (rules st) n (automationEnabled st) (lastTemperature st).
Definition set_automationEnabled (b : bool) (st : t) : t :=
  mk (rules st) (ruleCount st) b (lastTemperature st).
Definition set_lastTemperature (z : Z) (st : t) : t :=
  mk (rules st) (ruleCount st) (automationEnabled st) z.

(** The array has its declared size and the count stays within it. *)
Definition wf (st : t) : Prop :=
  length (rules st) = MAX_AUTOMATION_RULES ∧ (ruleCount st ≤ MAX_AUTOMATION_RULES)%nat.

(** The logical sequence of rules: slots [0 .. ruleCount). *)
Definition stored (st : t) : list AutomationRule.t :=
  take (ruleCount st) (rules st).

(** Constructor. *)
Definition init : t :=
  mk (replicate MAX_AUTOMATION_RULES AutomationRule.zero) 0 true 0.

Definition evaluateCondition (rule : AutomationRule.t) (currentTemp : Z) : bool :=
  match triggerType rule with
  | TEMP_HIGH =>
      if currentlyTriggered rule
      then currentTemp >=? threshold rule - hysteresis rule
      else currentTemp >=? threshold rule
  | TEMP_LOW =>
      if currentlyTriggered rule
      then currentTemp <=? threshold rule + hysteresis rule
      else currentTemp <=? threshold rule
  | TEMP_RANGE =>
      (currentTemp >=? threshold rule) && (currentTemp <=? thresholdHigh rule)
  | _ => false
  end.

Definition executeAction (rule : AutomationRule.t) (relayCallback : Callback)
    (w : World) : World :=
  match relayCallback with
  | Some f =>
      if RELAY_COUNT <=? relayId rule then w
      else match action rule with
           | TURN_ON => invoke f (relayId rule) true w
           | TURN_OFF => invoke f (relayId rule) false w
           | TOGGLE => invoke f (relayId rule) (negb (relayStates w (relayId rule))) w
           | _ => w
           end
  | None => w
  end.

(** The body of the loop of [evaluate], on [rule = rules[i]]; [now] is the
    value [millis()] returns. *)
Definition evaluateRule (now : Z) (currentTemp : Z) (relayCallback : Callback)
    (rule : AutomationRule.t) (w : World) : AutomationRule.t * World :=
  if negb (enabled rule) then (rule, w)
  else
    let conditionMet := evaluateCondition rule currentTemp in
    if conditionMet && negb (currentlyTriggered rule) then
      (set_lastTriggerTime now (set_currentlyTriggered true rule),
       executeAction rule relayCallback w)
    else if negb conditionMet && currentlyTriggered rule then
      (set_currentlyTriggered false rule, w)
    else (rule, w).

Definition evaluate (now : Z) (currentTemp : Z) (relayCallback : Callback)
    (st : t) (w : World) : t * World :=
  if negb (automationEnabled st) then (st, w)
  else
    let st := set_lastTemperature currentTemp st in
    let '(rules', w') :=
      sweep (evaluateRule now currentTemp relayCallback) (ruleCount st) (rules st) w in
    (set_rules rules' st, w').

Definition addRule (relayId : Z) (triggerType : TriggerType) (action : ActionType)
    (threshold : Z) (st : t) : bool * t :=
  if (MAX_AUTOMATION_RULES <=? ruleCount st)%nat then (false, st)
  else if RELAY_COUNT <=? relayId then (false, st)
  else
    let rule :=
      AutomationRule.mk relayId triggerType action threshold
        (uint8 (threshold + 10)) true false TEMP_HYSTERESIS 0 in
    (true, set_ruleCount (S (ruleCount st))
             (set_rules (<[ruleCount st := rule]> (rules st)) st)).

Definition removeRule (index : nat) (st : t) : bool * t :=
  if (ruleCount st <=? index)%nat then (false, st)
  else
    (true, set_ruleCount (ruleCount st - 1)
             (set_rules (shift_down index (ruleCount st) (rules st)) st)).

Definition setRuleEnabled (index : nat) (enabled : bool) (st : t) : t :=
  if (index <? ruleCount st)%nat then
    set_rules (alter (AutomationRule.set_enabled enabled) index (rules st)) st
  else st.

Definition setAutomationEnabled (enabled : bool) (st : t) : t :=
  set_automationEnabled enabled st.

(** [nullptr] is [None]. *)
Definition getRule (index : nat) (st : t) : option AutomationRule.t :=
  if (ruleCount st <=? index)%nat then None else rules st !! index.

Definition getRuleCount (st : t) : nat := ruleCount st.
Definition isEnabled (st : t) : bool := automationEnabled st.

Definition clearAllRules (st : t) : t :=
  set_rules (AutomationRule.set_enabled false <$> rules st) (set_ruleCount 0 st).

Definition saveToSD (st : t) (sd : SD.card) : bool * SD.card :=
  let sd := if SD.exists_ sd FILE_AUTOMATION then SD.remove sd FILE_AUTOMATION else sd in
  let sd := if negb (SD.exists_ sd "data") then SD.mkdir sd "data" else sd in
  match SD.open_write sd FILE_AUTOMATION with
  | None => (false, sd)
  | Some file =>
      let file := file ++ [Z.of_nat (ruleCount st)] in
      let file := write_records AutomationRule.to_bytes (ruleCount st) (rules st) file in
      (true, SD.close_write sd FILE_AUTOMATION file)
  end.

Definition loadFromSD (st : t) (sd : SD.card) : bool * t :=
  if negb (SD.exists_ sd FILE_AUTOMATION) then (false, st)
  else
    match SD.open_read sd FILE_AUTOMATION with
    | None => (false, st)
    | Some file =>
        let '(b, file) := SD.read file in
        let st := set_ruleCount (Z.to_nat (uint8 b)) st in
        if (MAX_AUTOMATION_RULES <? ruleCount st)%nat then
          (false, set_ruleCount 0 st)
        else
          let '(rules', _) :=
            read_records AutomationRule.sizeof AutomationRule.to_bytes
              AutomationRule.of_bytes (ruleCount st) (rules st) file in
          (true, set_rules rules' st)
    end.

Definition begin (st : t) (sd : SD.card) : t :=
  let '(ok, st) := loadFromSD st sd in
  if negb ok then
    let st := (addRule RELAY_GUEST_ROOM TEMP_HIGH TURN_ON TEMP_THRESHOLD_HIGH st).2 in
    (addRule RELAY_GUEST_ROOM TEMP_LOW TURN_OFF
       (TEMP_THRESHOLD_HIGH - TEMP_HYSTERESIS) st).2
  else st.
End AutomationController.

(** ** ScheduleController.h *)

Module Schedule.
Record t : Type := mk {
  relayId : Z;
  onHour : Z;
  onMinute : Z;
  offHour : Z;
  offMinute : Z;
  daysOfWeek : Z;
  enabled : bool;
  isActive : bool
}.

Definition set_enabled (b : bool) (s : t) : t :=
  mk (relayId s) (onHour s) (onMinute s) (offHour s) (offMinute s)
     (daysOfWeek s) b (isActive s).

Definition set_isActive (b : bool) (s : t) : t :=
  mk (relayId s) (onHour s) (onMinute s) (offHour s) (offMinute s)
     (daysOfWeek s) (enabled s) b.

Definition zero : t := mk 0 0 0 0 0 0 false false.

Definition wf (s : t) : Prop :=
  is_uint8 (relayId s) ∧ is_uint8 (onHour s) ∧ is_uint8 (onMinute s) ∧
  is_uint8 (offHour s) ∧ is_uint8 (offMinute s) ∧ is_uint8 (daysOfWeek s).

(** Object representation: eight one-byte fields in declaration order. *)
Definition sizeof : nat := 8.

Definition to_bytes (s : t) : list Z :=
  [relayId s; onHour s; onMinute s; offHour s; offMinute s; daysOfWeek s;
   bool_to_byte (enabled s); bool_to_byte (isActive s)].

Definition of_bytes (l : list Z) : t :=
  mk (byte_at l 0) (byte_at l 1) (byte_at l 2) (byte_at l 3) (byte_at l 4)
     (byte_at l 5) (bool_of_byte (byte_at l 6)) (bool_of_byte (byte_at l 7)).
End Schedule.

Module Timer.
Record t : Type := mk {
  relayId : Z;
  startTime : Z;
  duration : Z;
  turnOffWhenExpired : bool;
  enabled : bool
}.

Definition set_enabled (b : bool) (x : t) : t :=
  mk (relayId x) (startTime x) (duration x) (turnOffWhenExpired x) b.

Definition zero : t := mk 0 0 0 false false.
End Timer.

Module ScheduleController.

Record t : Type := mk {
  schedules : list Schedule.t;     (* Schedule schedules[MAX_SCHEDULES] *)
  timers : list Timer.t;           (* Timer timers[MAX_TIMERS] *)
  scheduleCount : nat;
  timerCount : nat;
  rtcAvailable : bool;
  lastMinute : Z
}.

Definition set_schedules (l : list Schedule.t) (st : t) : t :=
  mk l (timers st) (scheduleCount st) (timerCount st) (rtcAvailable st) (lastMinute st).
Definition set_timers (l : list Timer.t) (st : t) : t :=
  mk (schedules st) l (scheduleCount st) (timerCount st) (rtcAvailable st) (lastMinute st).
Definition set_scheduleCount (n : nat) (st : t) : t :=
  mk (schedules st) (timers st) n (timerCount st) (rtcAvailable st) (lastMinute st).
Definition set_timerCount (n : nat) (st : t) : t :=
  mk (schedules st) (timers st) (scheduleCount st) n (rtcAvailable st) (lastMinute st).
Definition set_rtcAvailable (b : bool) (st : t) : t :=
  mk (schedules st) (timers st) (scheduleCount st) (timerCount st) b (lastMinute st).
Definition set_lastMinute (z : Z) (st : t) : t :=
  mk (schedules st) (timers st) (scheduleCount st) (timerCount st) (rtcAvailable st) z.

Definition wf (st : t) : Prop :=
  length (schedules st) = MAX_SCHEDULES ∧ (scheduleCount st ≤ MAX_SCHEDULES)%nat ∧
  length (timers st) = MAX_TIMERS ∧ (timerCount st ≤ MAX_TIMERS)%nat.

(** The logical sequences: slots [0 .. scheduleCount) and [0 .. timerCount). *)
Definition stored (st : t) : list Schedule.t := take (scheduleCount st) (schedules st).
Definition counted (st : t) : list Timer.t := take (timerCount st) (timers st).

(** Constructor. *)
Definition init : t :=
  mk (replicate MAX_SCHEDULES Schedule.zero) (replicate MAX_TIMERS Timer.zero)
     0 0 false 0.

(** *** Schedule logic *)

Definition isDayMatch (sched : Schedule.t) (dayOfWeek : Z) : bool :=
  let dayBit := uint8 (Z.shiftl 1 (dayOfWeek - 1)) in
  negb (Z.land (Schedule.daysOfWeek sched) dayBit =? 0).

Definition shouldScheduleBeActive (sched : Schedule.t)
    (currentHour currentMin dayOfWeek : Z) : bool :=
  if negb (isDayMatch sched dayOfWeek) then false
  else
    let currentMinutes := uint16 (currentHour * 60 + currentMin) in
    let onMinutes := uint16 (Schedule.onHour sched * 60 + Schedule.onMinute sched) in
    let offMinutes := uint16 (Schedule.offHour sched * 60 + Schedule.offMinute sched) in
    if offMinutes <? onMinutes then
      (currentMinutes >=? onMinutes) || (currentMinutes <? offMinutes)
    else
      (currentMinutes >=? onMinutes) && (currentMinutes <? offMinutes).

(** *** Timers *)

(** The body of the first loop of [updateTimers], on [timer = timers[i]];
    [currentTime] is the value [millis()] returned. *)
Definition elapsedSeconds (currentTime : Z) (timer : Timer.t) : Z :=
  let elapsed := uint32 (currentTime - Timer.startTime timer) in
  uint32 (elapsed / 1000).

Definition expireTimer (currentTime : Z) (relayCallback : Callback)
    (timer : Timer.t) (w : World) : Timer.t * World :=
  if negb (Timer.enabled timer) then (timer, w)
  else if elapsedSeconds currentTime timer >=? Timer.duration timer then
    (Timer.set_enabled false timer,
     match relayCallback with
     | Some f => invoke f (Timer.relayId timer) (negb (Timer.turnOffWhenExpired timer)) w
     | None => w
     end)
  else (timer, w).

(** The body of the compaction loop; the state is the array and
    [writeIndex]. *)
Definition compact_body (readIndex : nat) (s : list Timer.t * nat) : list Timer.t * nat :=
  let '(arr, writeIndex) := s in
  match arr !! readIndex with
  | Some x =>
      if Timer.enabled x then
        ((if bool_decide (writeIndex ≠ readIndex) then <[writeIndex := x]> arr else arr),
         S writeIndex)
      else s
  | None => s
  end.

Definition updateTimers (currentTime : Z) (relayCallback : Callback)
    (st : t) (w : World) : t * World :=
  let '(timers1, w') :=
    sweep (expireTimer currentTime relayCallback) (timerCount st) (timers st) w in
  let '(timers2, writeIndex) :=
    for_range 0 (timerCount st) compact_body (timers1, O) in
  (set_timerCount writeIndex (set_timers timers2 st), w').

(** *** Wall-clock time: the RTC code is compiled out. *)

Definition getCurrentTime (st : t) : option (Z * Z * Z * Z) :=
  if negb (rtcAvailable st) then None else None.

(** The body of the schedule loop of [update], on [sched = schedules[i]]. *)
Definition switchSchedule (relayCallback : Callback)
    (currentHour currentMin dayOfWeek : Z)
    (sched : Schedule.t) (w : World) : Schedule.t * World :=
  if negb (Schedule.enabled sched) then (sched, w)
  else
    let shouldBeActive := shouldScheduleBeActive sched currentHour currentMin dayOfWeek in
    if shouldBeActive && negb (Schedule.isActive sched) then
      (Schedule.set_isActive true sched,
       match relayCallback with
       | Some f => invoke f (Schedule.relayId sched) true w
       | None => w
       end)
    else if negb shouldBeActive && Schedule.isActive sched then
      (Schedule.set_isActive false sched,
       match relayCallback with
       | Some f => invoke f (Schedule.relayId sched) false w
       | None => w
       end)
    else (sched, w).

Definition update (currentTime : Z) (relayCallback : Callback)
    (st : t) (w : World) : t * World :=
  let '(st, w) := updateTimers currentTime relayCallback st w in
  if negb (rtcAvailable st) then (st, w)
  else
    match getCurrentTime st with
    | None => (st, w)
    | Some (currentHour, currentMin, currentSec, dayOfWeek) =>
        if currentMin =? lastMinute st then (st, w)
        else
          let st := set_lastMinute currentMin st in
          let '(schedules', w') :=
            sweep (switchSchedule relayCallback currentHour currentMin dayOfWeek)
              (scheduleCount st) (schedules st) w in
          (set_schedules schedules' st, w')
    end.

(** *** Schedule management *)

Definition addSchedule (relayId onHour onMin offHour offMin days : Z)
    (st : t) : bool * t :=
  if (MAX_SCHEDULES <=? scheduleCount st)%nat then (false, st)
  else if (RELAY_COUNT <=? relayId) || (23 <? onHour) || (23 <? offHour)
          || (59 <? onMin) || (59 <? offMin) then (false, st)
  else
    let sched := Schedule.mk relayId onHour onMin offHour offMin days true false in
    (true, set_scheduleCount (S (scheduleCount st))
             (set_schedules (<[scheduleCount st := sched]> (schedules st)) st)).

Definition removeSchedule (index : nat) (st : t) : bool * t :=
  if (scheduleCount st <=? index)%nat then (false, st)
  else
    (true, set_scheduleCount (scheduleCount st - 1)
             (set_schedules (shift_down index (scheduleCount st) (schedules st)) st)).

Definition setScheduleEnabled (index : nat) (enabled : bool) (st : t) : t :=
  if (index <? scheduleCount st)%nat then
    set_schedules (alter (Schedule.set_enabled enabled) index (schedules st)) st
  else st.

Definition getSchedule (index : nat) (st : t) : option Schedule.t :=
  if (scheduleCount st <=? index)%nat then None else schedules st !! index.

Definition clearAllSchedules (st : t) : t := set_scheduleCount 0 st.

(** *** Timer management *)

(** The search loop of [findTimerIndex], from slot [i] for [n] more slots;
    -1 when no slot matches. *)
Fixpoint findTimerIndex_from (n i : nat) (arr : list Timer.t) (relayId : Z) : Z :=
  match n with
  | O => -1
  | S n' =>
      match arr !! i with
      | Some x =>
          if (Timer.relayId x =? relayId) && Timer.enabled x then Z.of_nat i
          else findTimerIndex_from n' (S i) arr relayId
      | None => findTimerIndex_from n' (S i) arr relayId
      end
  end.

Definition findTimerIndex (relayId : Z) (st : t) : Z :=
  findTimerIndex_from (timerCount st) 0 (timers st) relayId.

Definition cancelTimer (relayId : Z) (st : t) : bool * t :=
  let index := findTimerIndex relayId st in
  if index >=? 0 then
    (true, set_timers (alter (Timer.set_enabled false) (Z.to_nat index) (timers st)) st)
  else (false, st).

(** [now] is the value [millis()] returns. *)
Definition addTimer (now : Z) (relayId durationSeconds : Z) (turnOffWhenExpired : bool)
    (st : t) : bool * t :=
  if (MAX_TIMERS <=? timerCount st)%nat then (false, st)
  else if RELAY_COUNT <=? relayId then (false, st)
  else
    let st := (cancelTimer relayId st).2 in
    let timer := Timer.mk relayId now durationSeconds turnOffWhenExpired true in
    (true, set_timerCount (S (timerCount st))
             (set_timers (<[timerCount st := timer]> (timers st)) st)).

Definition getTimerRemaining (now : Z) (relayId : Z) (st : t) : Z :=
  let index := findTimerIndex relayId st in
  if index <? 0 then 0
  else
    match timers st !! Z.to_nat index with
    | Some timer =>
        if elapsedSeconds now timer >=? Timer.duration timer then 0
        else Timer.duration timer - elapsedSeconds now timer
    | None => 0
    end.

Definition getTimer (relayId : Z) (st : t) : option Timer.t :=
  let index := findTimerIndex relayId st in
  if index <? 0 then None else timers st !! Z.to_nat index.

Definition clearAllTimers (st : t) : t := set_timerCount 0 st.

(** *** Persistence *)

Definition saveToSD (st : t) (sd : SD.card) : bool * SD.card :=
  let sd := if SD.exists_ sd FILE_SCHEDULES then SD.remove sd FILE_SCHEDULES else sd in
  let sd := if negb (SD.exists_ sd "data") then SD.mkdir sd "data" else sd in
  match SD.open_write sd FILE_SCHEDULES with
  | None => (false, sd)
  | Some file =>
      let file := file ++ [Z.of_nat (scheduleCount st)] in
      let file := write_records Schedule.to_bytes (scheduleCount st) (schedules st) file in
      (true, SD.close_write sd FILE_SCHEDULES file)
  end.

Definition loadFromSD (st : t) (sd : SD.card) : bool * t :=
  if negb (SD.exists_ sd FILE_SCHEDULES) then (false, st)
  else
    match SD.open_read sd FILE_SCHEDULES with
    | None => (false, st)
    | Some file =>
        let '(b, file) := SD.read file in
        let st := set_scheduleCount (Z.to_nat (uint8 b)) st in
        if (MAX_SCHEDULES <? scheduleCount st)%nat then
          (false, set_scheduleCount 0 st)
        else
          let '(schedules', _) :=
            read_records Schedule.sizeof Schedule.to_bytes Schedule.of_bytes
              (scheduleCount st) (schedules st) file in
          (true, set_schedules schedules' st)
    end.

Definition begin (st : t) (sd : SD.card) : bool * t :=
  let st := set_rtcAvailable false st in
  let st := (loadFromSD st sd).2 in
  (rtcAvailable st, st).
End ScheduleController.

(** ** SceneController.h

    A C string is the sequence of its characters before the terminator. A
    scene name is a pointer: to a string in program memory (the names of
    the predefined scenes), to a string in data memory (the name given to
    [createCustomScene]), or null. [strncpy_P] reads program memory, so the
    comparison of a name is determined for names in program memory that fit
    its 20-byte buffer with their terminator, and for no other pointer. *)

Definition tolower (c : Ascii.ascii) : Ascii.ascii :=
  let n := Ascii.N_of_ascii c in
  if ((65 <=? n) && (n <=? 90))%N then Ascii.ascii_of_N (n + 32) else c.

(** [strcasecmp]: zero, or the difference of the first two characters that
    differ once lowered. *)
Fixpoint strcasecmp (s1 s2 : string) : Z :=
  match s1, s2 with
  | String.EmptyString, String.EmptyString => 0
  | String.EmptyString, String.String c2 _ => 0 - Z.of_N (Ascii.N_of_ascii (tolower c2))
  | String.String c1 _, String.EmptyString => Z.of_N (Ascii.N_of_ascii (tolower c1))
  | String.String c1 r1, String.String c2 r2 =>
      if Ascii.eqb (tolower c1) (tolower c2) then strcasecmp r1 r2
      else Z.of_N (Ascii.N_of_ascii (tolower c1)) - Z.of_N (Ascii.N_of_ascii (tolower c2))
  end.

Module Scene.
Inductive name_ptr : Type :=
  | Null
  | Flash (s : string)
  | Ram (s : string).

Record t : Type := mk {
  name : name_ptr;
  relayStates : list bool;       (* bool relayStates[RELAY_COUNT] *)
  enabled : bool
}.

Definition zero : t := mk Null (replicate (Z.to_nat RELAY_COUNT) false) false.
End Scene.

Module SceneController.

Definition MAX_SCENES : nat := 8.
Definition MAX_CUSTOM_SCENES : nat := 3.

Definition SCENE_NAME_GOOD_MORNING : string := "good_morning".
Definition SCENE_NAME_GOOD_NIGHT : string := "good_night".
Definition SCENE_NAME_AWAY : string := "away".
Definition SCENE_NAME_PARTY : string := "party".
Definition SCENE_NAME_MOVIE_NIGHT : string := "movie_night".
Definition SCENE_NAME_ALL_ON : string := "all_on".
Definition SCENE_NAME_ALL_OFF : string := "all_off".

Record t : Type := mk {
  scenes : list Scene.t;         (* Scene scenes[MAX_SCENES] *)
  sceneCount : nat
}.

(** Constructor. *)
Definition init : t := mk (replicate MAX_SCENES Scene.zero) 0.

(** The states of the relays 0 (living room) to 4 (wash room). *)
Definition initializePredefinedScenes (st : t) : t :=
  let scenes := scenes st in
  let scenes := <[0%nat := Scene.mk (Scene.Flash SCENE_NAME_GOOD_MORNING)
                             [true; false; false; true; false] true]> scenes in
  let scenes := <[1%nat := Scene.mk (Scene.Flash SCENE_NAME_GOOD_NIGHT)
                             [false; false; false; false; true] true]> scenes in
  let scenes := <[2%nat := Scene.mk (Scene.Flash SCENE_NAME_AWAY)
                             [false; false; false; false; false] true]> scenes in
  let scenes := <[3%nat := Scene.mk (Scene.Flash SCENE_NAME_PARTY)
                             [true; true; true; true; true] true]> scenes in
  let scenes := <[4%nat := Scene.mk (Scene.Flash SCENE_NAME_MOVIE_NIGHT)
                             [true; false; false; false; false] true]> scenes in
  let scenes := <[5%nat := Scene.mk (Scene.Flash SCENE_NAME_ALL_ON)
                             (replicate (Z.to_nat RELAY_COUNT) true) true]> scenes in
  let scenes := <[6%nat := Scene.mk (Scene.Flash SCENE_NAME_ALL_OFF)
                             (replicate (Z.to_nat RELAY_COUNT) false) true]> scenes in
  mk scenes 7.

Definition begin (st : t) : t := initializePredefinedScenes st.

(** [None]: the comparison reads memory the model does not determine. *)
Definition compareSceneName (name1 : string) (name2 : Scene.name_ptr) : option bool :=
  match name2 with
  | Scene.Flash s =>
      if (String.length s <? 20)%nat then Some (strcasecmp name1 s =? 0) else None
  | _ => None
  end.

(** The search loop of [activateScene] and of [getScene], from slot [i] for
    [n] more slots: the index of the first enabled scene whose name
    compares equal, if any. *)
Fixpoint findScene_from (n i : nat) (arr : list Scene.t) (sceneName : string)
    : option (option nat) :=
  match n with
  | O => Some None
  | S n' =>
      match arr !! i with
      | Some sc =>
          if Scene.enabled sc then
            match compareSceneName sceneName (Scene.name sc) with
            | Some true => Some (Some i)
            | Some false => findScene_from n' (S i) arr sceneName
            | None => None
            end
          else findScene_from n' (S i) arr sceneName
      | None => findScene_from n' (S i) arr sceneName
      end
  end.

(** The debug print of the name is serial output, which is not part of
    the world; the result and the calls do not depend on it. *)
Definition activateSceneById (sceneId : nat) (relayCallback : Callback)
    (st : t) (w : World) : bool * World :=
  if (sceneCount st <=? sceneId)%nat
     || negb (default false (Scene.enabled <$> scenes st !! sceneId))
  then (false, w)
  else
    match relayCallback, scenes st !! sceneId with
    | Some f, Some scene =>
        (true,
         for_range 0 (Z.to_nat RELAY_COUNT)
           (λ i w, invoke f (Z.of_nat i) (default false (Scene.relayStates scene !! i)) w)
           w)
    | _, _ => (false, w)
    end.

(** [sceneName] is [None] for a null pointer. *)
Definition activateScene (sceneName : option string) (relayCallback : Callback)
    (st : t) (w : World) : option (bool * World) :=
  match sceneName, relayCallback with
  | Some sceneName, Some _ =>
      match findScene_from (sceneCount st) 0 (scenes st) sceneName with
      | Some (Some i) => Some (activateSceneById i relayCallback st w)
      | Some None => Some (false, w)
      | None => None
      end
  | _, _ => Some (false, w)
  end.

(** The result is the scene found, [Some None] for a null result. *)
Definition getScene (sceneName : option string) (st : t) : option (option Scene.t) :=
  match sceneName with
  | None => Some None
  | Some sceneName =>
      match findScene_from (sceneCount st) 0 (scenes st) sceneName with
      | Some (Some i) => Some (scenes st !! i)
      | Some None => Some None
      | None => None
      end
  end.

Definition getSceneByIndex (index : nat) (st : t) : option Scene.t :=
  if (sceneCount st <=? index)%nat then None else scenes st !! index.

Definition getSceneCount (st : t) : nat := sceneCount st.

(** [currentStates] is the memory the pointer designates. *)
Definition createCustomScene (name : option string) (currentStates : RelayStates)
    (st : t) : option (bool * t) :=
  if (MAX_SCENES <=? sceneCount st)%nat then Some (false, st)
  else
    match name with
    | None => Some (false, st)
    | Some name =>
        if (String.length name =? 0)%nat || (15 <? String.length name)%nat
        then Some (false, st)
        else
          match getScene (Some name) st with
          | None => None
          | Some (Some _) => Some (false, st)
          | Some None =>
              let newScene :=
                Scene.mk (Scene.Ram name)
                  ((λ i, currentStates (Z.of_nat i)) <$> seq 0 (Z.to_nat RELAY_COUNT))
                  true in
              Some (true, mk (<[sceneCount st := newScene]> (scenes st))
                             (S (sceneCount st)))
          end
    end.
End SceneController.

(** * Vocabulary of the properties *)

Module RuleSpec.
Import AutomationRule AutomationController.

(** The condition of an enabled rule goes from false to true. *)
Definition rising (currentTemp : Z) (rule : AutomationRule.t) : bool :=
  enabled rule && evaluateCondition rule currentTemp && negb (currentlyTriggered rule).

(** The condition of an enabled rule goes from true to false. *)
Definition falling (currentTemp : Z) (rule : AutomationRule.t) : bool :=
  enabled rule && negb (evaluateCondition rule currentTemp) && currentlyTriggered rule.

(** The action of the rule can be carried out: there is a callback, the
    relay exists and the action is one of the three enumerators. *)
Definition executable (relayCallback : Callback) (rule : AutomationRule.t) : bool :=
  bool_decide (is_Some relayCallback) && (relayId rule <? RELAY_COUNT)
  && match action rule with TURN_ON | TURN_OFF | TOGGLE => true | _ => false end.

(** The state an executable action asks for. *)
Definition newState (rule : AutomationRule.t) (w : World) : bool :=
  match action rule with
  | TURN_ON => true
  | TURN_OFF => false
  | _ => negb (relayStates w (relayId rule))
  end.

(** Scenario A of the specification: rule 2 / threshold-high / turn-on at
    28 with hysteresis 2, fed 27, 28, 29, 27, 26, 25. *)
Definition scenarioA_rule : AutomationRule.t :=
  AutomationRule.mk 2 TEMP_HIGH TURN_ON 28 38 true false 2 0.

Definition feed (cb : Callback) (temps : list Z) (st : AutomationController.t)
    (w : World) : AutomationController.t * World :=
  foldl (λ s temp, evaluate 0 temp cb s.1 s.2) (st, w) temps.

(** A card whose rule file holds one rule, for relay 9. *)
Definition card_relay9 : SD.card :=
  SD.mk {[ FILE_AUTOMATION := [1; 9; 0; 0; 28; 38; 1; 0; 2; 0; 0; 0; 0] ]} {[ "data" ]} true.
End RuleSpec.

Module ScheduleSpec.
Import ScheduleController.

Definition onMinutes (sched : Schedule.t) : Z :=
  Schedule.onHour sched * 60 + Schedule.onMinute sched.
Definition offMinutes (sched : Schedule.t) : Z :=
  Schedule.offHour sched * 60 + Schedule.offMinute sched.

(** Scenario B of the specification: on at 22:00, off at 06:00, daily. *)
Definition scenarioB_schedule : Schedule.t :=
  Schedule.mk 0 22 0 6 0 SCHEDULE_DAILY true false.
End ScheduleSpec.

Module TimerSpec.
Import ScheduleController.

(** The timer is enabled and its duration has elapsed at [currentTime]. *)
Definition expired (currentTime : Z) (x : Timer.t) : bool :=
  Timer.enabled x && (elapsedSeconds currentTime x >=? Timer.duration x).

(** The timer is enabled and its duration has not elapsed. *)
Definition survives (currentTime : Z) (x : Timer.t) : bool :=
  Timer.enabled x && negb (elapsedSeconds currentTime x >=? Timer.duration x).

(** The calls one slot makes in the expiry sweep. *)
Definition expiry_calls (currentTime : Z) (relayCallback : Callback) (x : Timer.t)
    : list (Z * bool) :=
  if expired currentTime x && bool_decide (is_Some relayCallback)
  then [(Timer.relayId x, negb (Timer.turnOffWhenExpired x))]
  else [].

(** The enabled timers of a relay, in slot order. *)
Definition live_for (relayId : Z) (l : list Timer.t) : list Timer.t :=
  filter (λ x, Timer.enabled x = true ∧ Timer.relayId x = relayId) l.

(** A run of expiry sweeps, each at its own time and with its own
    callback. *)
Definition sweeps (l : list (Z * Callback)) (st : ScheduleController.t) (w : World)
    : ScheduleController.t * World :=
  foldl (λ s '(currentTime, relayCallback),
           updateTimers currentTime relayCallback s.1 s.2) (st, w) l.

(** The states the public operations lead to from the constructor. The
    getters and [saveToSD] leave the controller as it is. *)
Inductive reachable : ScheduleController.t → Prop :=
  | reach_init : reachable init
  | reach_begin st sd : reachable st → reachable (begin st sd).2
  | reach_update st currentTime relayCallback w :
      reachable st → reachable (update currentTime relayCallback st w).1
  | reach_addSchedule st relayId onHour onMin offHour offMin days :
      reachable st →
      reachable (addSchedule relayId onHour onMin offHour offMin days st).2
  | reach_removeSchedule st index :
      reachable st → reachable (removeSchedule index st).2
  | reach_setScheduleEnabled st index enabled :
      reachable st → reachable (setScheduleEnabled index enabled st)
  | reach_clearAllSchedules st : reachable st → reachable (clearAllSchedules st)
  | reach_loadFromSD st sd : reachable st → reachable (loadFromSD st sd).2
  | reach_addTimer st now relayId durationSeconds turnOffWhenExpired :
      reachable st →
      reachable (addTimer now relayId durationSeconds turnOffWhenExpired st).2
  | reach_cancelTimer st relayId : reachable st → reachable (cancelTimer relayId st).2
  | reach_clearAllTimers st : reachable st → reachable (clearAllTimers st).

(** The invariant of the timer array. *)
Definition timers_ok (st : ScheduleController.t) : Prop :=
  length (timers st) = MAX_TIMERS ∧ (timerCount st ≤ MAX_TIMERS)%nat ∧
  ∀ relayId, (length (live_for relayId (counted st)) ≤ 1)%nat.

(** Scenario C of the specification: three timers for one relay, of 5, 10
    and 3 seconds, added at times 0, 100 and 200 ms. *)
Definition scenarioC : ScheduleController.t :=
  (addTimer 200 1 3 true (addTimer 100 1 10 true (addTimer 0 1 5 true init).2).2).2.

(** Scenario C before its third timer: the 10-second timer of relay 1 is
    live. *)
Definition scenarioC_before : ScheduleController.t :=
  (addTimer 100 1 10 true (addTimer 0 1 5 true init).2).2.

(** The implicit cancellation: an enabled timer of the relay is disabled,
    every other timer is left as it is. *)
Definition disable_for (relayId : Z) (x : Timer.t) : Timer.t :=
  if bool_decide (Timer.enabled x = true ∧ Timer.relayId x = relayId)
  then Timer.set_enabled false x else x.

(** Five timers, one per relay, the one of relay 0 cancelled afterwards. *)
Definition five_timers : ScheduleController.t :=
  (addTimer 0 4 60 true (addTimer 0 3 60 true (addTimer 0 2 60 true
    (addTimer 0 1 60 true (addTimer 0 0 60 true init).2).2).2).2).2.
Definition full_with_gap : ScheduleController.t := (cancelTimer 0 five_timers).2.
End TimerSpec.

Module StoreSpec.
(** Controllers holding one and three entries. *)
Definition one_rule : AutomationController.t :=
  (AutomationController.addRule 2 TEMP_HIGH TURN_ON 28 AutomationController.init).2.

Definition three_rules : AutomationController.t :=
  (AutomationController.addRule 4 TEMP_RANGE TOGGLE 18
    (AutomationController.addRule 2 TEMP_LOW TURN_OFF 26 one_rule).2).2.

(** A controller at capacity. *)
Definition full_rules : AutomationController.t :=
  (AutomationController.addRule 1 TEMP_HIGH TOGGLE 30
    (AutomationController.addRule 0 TEMP_LOW TURN_ON 15 three_rules).2).2.

Definition one_schedule : ScheduleController.t :=
  (ScheduleController.addSchedule 0 22 0 6 0 SCHEDULE_DAILY ScheduleController.init).2.

Definition three_schedules : ScheduleController.t :=
  (ScheduleController.addSchedule 3 12 15 12 45 SCHEDULE_WEEKEND
    (ScheduleController.addSchedule 1 7 30 8 0 SCHEDULE_WEEKDAYS one_schedule).2).2.

(** A card without any file; a card that holds both files and cannot be
    opened; a card whose files announce more records than fit. *)
Definition empty_card : SD.card := SD.mk ∅ ∅ true.

Definition offline_card : SD.card :=
  SD.mk {[ FILE_AUTOMATION := [0]; FILE_SCHEDULES := [0] ]} {[ "data" ]} false.

Definition overfull_rule_file : list Z := [6; 9; 0; 0; 28; 38; 1; 0; 2; 0; 0; 0; 0].
Definition overfull_schedule_file : list Z := [7; 0; 22; 0; 6; 0; 127; 1; 0].

Definition overfull_card : SD.card :=
  SD.mk {[ FILE_AUTOMATION := overfull_rule_file;
           FILE_SCHEDULES := overfull_schedule_file ]} {[ "data" ]} true.
End StoreSpec.

Module EngineSpec.
Import AutomationRule AutomationController.

(** The rule the loop body of [evaluate] leaves in a slot; it does not
    depend on the callback nor on the relay states. *)
Definition nextRule (now currentTemp : Z) (rule : AutomationRule.t) : AutomationRule.t :=
  (evaluateRule now currentTemp None rule quiet).1.

(** Two rules with the same configuration: they differ at most in the
    triggered flag and the trigger timestamp. *)
Definition same_config (r r' : AutomationRule.t) : Prop :=
  relayId r' = relayId r ∧ triggerType r' = triggerType r ∧ action r' = action r ∧
  threshold r' = threshold r ∧ thresholdHigh r' = thresholdHigh r ∧
  enabled r' = enabled r ∧ hysteresis r' = hysteresis r.

(** The states the public operations of the rule engine lead to from the
    constructor. The getters and [saveToSD] leave the controller as it is. *)
Inductive reachable : AutomationController.t → Prop :=
  | reach_init : reachable init
  | reach_begin st sd : reachable st → reachable (begin st sd)
  | reach_evaluate st now currentTemp relayCallback w :
      reachable st → reachable (evaluate now currentTemp relayCallback st w).1
  | reach_addRule st relayId triggerType action threshold :
      reachable st → reachable (addRule relayId triggerType action threshold st).2
  | reach_removeRule st index : reachable st → reachable (removeRule index st).2
  | reach_setRuleEnabled st index enabled :
      reachable st → reachable (setRuleEnabled index enabled st)
  | reach_setAutomationEnabled st enabled :
      reachable st → reachable (setAutomationEnabled enabled st)
  | reach_clearAllRules st : reachable st → reachable (clearAllRules st)
  | reach_loadFromSD st sd : reachable st → reachable (loadFromSD st sd).2.

(** The two rules [begin] creates when nothing can be loaded. *)
Definition default_rules : list AutomationRule.t :=
  [AutomationRule.mk 2 TEMP_HIGH TURN_ON 28 38 true false 2 0;
   AutomationRule.mk 2 TEMP_LOW TURN_OFF 26 36 true false 2 0].

(** A triggered threshold-low rule. *)
Definition low_rule : AutomationRule.t :=
  AutomationRule.mk 2 TEMP_LOW TURN_OFF 26 36 true true 2 0.

(** A run of calls of [evaluate], each with its time, its reading and its
    callback. *)
Definition evaluations (l : list (Z * Z * Callback)) (st : AutomationController.t)
    (w : World) : AutomationController.t * World :=
  foldl (λ s '(now, currentTemp, relayCallback),
           evaluate now currentTemp relayCallback s.1 s.2) (st, w) l.

(** Three rules, the middle one triggered and then disabled. *)
Definition middle_disabled : AutomationController.t :=
  setRuleEnabled 1 false
    (evaluate 0 20 (Some store_state) StoreSpec.three_rules quiet).1.
End EngineSpec.

Module ExtraSpec.
(** The schedule with its on and off times exchanged. *)
Definition swap_times (sched : Schedule.t) : Schedule.t :=
  Schedule.mk (Schedule.relayId sched) (Schedule.offHour sched) (Schedule.offMinute sched)
    (Schedule.onHour sched) (Schedule.onMinute sched) (Schedule.daysOfWeek sched)
    (Schedule.enabled sched) (Schedule.isActive sched).

(** The calls the schedule loop body makes for one schedule. *)
Definition switch_calls (relayCallback : Callback) (currentHour currentMin dayOfWeek : Z)
    (sched : Schedule.t) : list (Z * bool) :=
  let active :=
    ScheduleController.shouldScheduleBeActive sched currentHour currentMin dayOfWeek in
  if Schedule.enabled sched && bool_decide (is_Some relayCallback)
     && negb (eqb active (Schedule.isActive sched))
  then [(Schedule.relayId sched, active)] else [].

(** A timer started 296 ms before the millisecond counter wraps. *)
Definition late_timer : Timer.t := Timer.mk 1 4294967000 5 true true.

(** A card whose rule file holds the count byte 3 and nothing else. *)
Definition count_only_card : SD.card :=
  SD.mk {[ FILE_AUTOMATION := [3] ]} {[ "data" ]} true.
End ExtraSpec.

Module SceneSpec.
Import SceneController.

Definition toupper (c : Ascii.ascii) : Ascii.ascii :=
  let n := Ascii.N_of_ascii c in
  if ((97 <=? n) && (n <=? 122))%N then Ascii.ascii_of_N (n - 32) else c.

Fixpoint map_chars (f : Ascii.ascii → Ascii.ascii) (s : string) : string :=
  match s with
  | String.EmptyString => String.EmptyString
  | String.String c r => String.String (f c) (map_chars f r)
  end.

(** The seven scenes [begin] defines, in slot order. *)
Definition predefined : list Scene.t :=
  [Scene.mk (Scene.Flash SCENE_NAME_GOOD_MORNING) [true; false; false; true; false] true;
   Scene.mk (Scene.Flash SCENE_NAME_GOOD_NIGHT) [false; false; false; false; true] true;
   Scene.mk (Scene.Flash SCENE_NAME_AWAY) [false; false; false; false; false] true;
   Scene.mk (Scene.Flash SCENE_NAME_PARTY) [true; true; true; true; true] true;
   Scene.mk (Scene.Flash SCENE_NAME_MOVIE_NIGHT) [true; false; false; false; false] true;
   Scene.mk (Scene.Flash SCENE_NAME_ALL_ON) [true; true; true; true; true] true;
   Scene.mk (Scene.Flash SCENE_NAME_ALL_OFF) [false; false; false; false; false] true].

(** The name given compares equal, case ignored, to the name of the
    scene. *)
Definition name_matches (sceneName : string) (sc : Scene.t) : bool :=
  match Scene.name sc with
  | Scene.Flash s => strcasecmp sceneName s =? 0
  | _ => false
  end.

(** The calls that apply a scene: relay 0 first. *)
Definition scene_calls (sc : Scene.t) : list (Z * bool) :=
  imap (λ i b, (Z.of_nat i, b)) (Scene.relayStates sc).

(** Relay states with relay 3 on and the others off. *)
Definition store_state_on3 : RelayStates := λ r, r =? 3.

(** The five states a custom scene captures. *)
Definition captured (currentStates : RelayStates) : list bool :=
  [currentStates 0; currentStates 1; currentStates 2; currentStates 3; currentStates 4].
End SceneSpec.

(** * Properties *)

(** ** Loops *)

Lemma for_range_nil {St : Type} (lo hi : nat) (body : nat → St → St) (s : St) :
  (hi ≤ lo)%nat → for_range lo hi body s = s.
Proof.
  intros H. unfold for_range. replace (hi - lo)%nat with O by lia. reflexivity.
Qed.

Lemma for_range_first {St : Type} (lo hi : nat) (body : nat → St → St) (s : St) :
  (lo < hi)%nat → for_range lo hi body s = for_range (S lo) hi body (body lo s).
Proof.
  intros H. unfold for_range.
  replace (hi - lo)%nat with (S (hi - S lo)) by lia. reflexivity.
Qed.

Lemma for_loop_last {St : Type} (n i : nat) (body : nat → St → St) (s : St) :
  for_loop (S n) i body s = body (i + n)%nat (for_loop n i body s).
Proof.
  revert i s. induction n as [|n IH]; intros i s.
  - simpl. by rewrite Nat.add_0_r.
  - change (for_loop (S (S n)) i body s) with (for_loop (S n) (S i) body (body i s)).
    rewrite IH. simpl. do 2 f_equal. lia.
Qed.

Lemma for_range_last {St : Type} (hi : nat) (body : nat → St → St) (s : St) :
  for_range 0 (S hi) body s = body hi (for_range 0 hi body s).
Proof.
  unfold for_range. rewrite !Nat.sub_0_r. apply (for_loop_last hi 0).
Qed.

Section ArraySweepFacts.
Context {A W : Type} (step : A → W → A * W).

Lemma thread_length (l : list A) (w : W) : length (thread step l w).1 = length l.
Proof.
  revert w. induction l as [|a l IH]; intros w; simpl; [done|].
  destruct (step a w) as [a' w']. specialize (IH w').
  destruct (thread step l w') as [l' w'']. simpl in *. by rewrite IH.
Qed.

Lemma thread_app (l1 l2 : list A) (w : W) :
  thread step (l1 ++ l2) w =
    let '(l1', w1) := thread step l1 w in
    let '(l2', w2) := thread step l2 w1 in
    (l1' ++ l2', w2).
Proof.
  revert w. induction l1 as [|a l1 IH]; intros w; simpl.
  - by destruct (thread step l2 w).
  - destruct (step a w) as [a' w']. rewrite IH.
    destruct (thread step l1 w') as [l1' w1].
    by destruct (thread step l2 w1).
Qed.

Lemma sweep_S (n : nat) (arr : list A) (w : W) :
  sweep step (S n) arr w =
    sweep_body step n (sweep step n arr w).
Proof. unfold sweep. apply for_range_last. Qed.

(** A sweep over the first [n] slots is the threaded pass over them; the
    other slots are left alone. *)
Lemma sweep_thread (n : nat) (arr : list A) (w : W) :
  (n ≤ length arr)%nat →
  sweep step n arr w =
    ((thread step (take n arr) w).1 ++ drop n arr, (thread step (take n arr) w).2).
Proof.
  induction n as [|n IH]; intros Hn.
  - unfold sweep. rewrite for_range_nil by lia. simpl. by rewrite drop_0.
  - rewrite sweep_S, IH by lia.
    destruct (lookup_lt_is_Some_2 arr n) as [a Ha]; [lia|].
    rewrite (take_S_r _ _ _ Ha), thread_app.
    pose proof (thread_length (take n arr) w) as Hlen.
    destruct (thread step (take n arr) w) as [l1 w1]. simpl in *.
    rewrite length_take in Hlen.
    unfold sweep_body. simpl.
    rewrite lookup_app_r by lia.
    replace (n - length l1)%nat with O by lia.
    rewrite (drop_S _ _ _ Ha). simpl.
    destruct (step a w1) as [a' w']. simpl.
    f_equal.
    rewrite insert_app_r_alt by lia.
    replace (n - length l1)%nat with O by lia. simpl.
    by rewrite <- app_assoc.
Qed.

Lemma sweep_length (n : nat) (arr : list A) (w : W) :
  length (sweep step n arr w).1 = length arr.
Proof.
  induction n as [|n IH].
  - unfold sweep. by rewrite for_range_nil by lia.
  - rewrite sweep_S. unfold sweep_body.
    destruct (sweep step n arr w) as [l' w']. simpl in *.
    destruct (l' !! n); [|done].
    destruct (step a w'). simpl. by rewrite length_insert.
Qed.

(** When the new slot does not depend on the world, the slots are mapped. *)
Lemma thread_map (f : A → A) (l : list A) (w : W) :
  (∀ a w, (step a w).1 = f a) → (thread step l w).1 = f <$> l.
Proof.
  intros Hf. revert w. induction l as [|a l IH]; intros w; simpl; [done|].
  specialize (Hf a w). destruct (step a w) as [a' w']. simpl in Hf. subst a'.
  specialize (IH w'). destruct (thread step l w') as [l' w'']. simpl in *.
  by rewrite IH.
Qed.
End ArraySweepFacts.

Section ArraySweepSlots.
Context {A W : Type} (step : A → W → A * W).

(** Each slot of a threaded pass is the step of the old slot, in the world
    the earlier slots left. *)
Lemma thread_lookup (l : list A) (w : W) (i : nat) (a : A) :
  l !! i = Some a → ∃ w0, (thread step l w).1 !! i = Some (step a w0).1.
Proof.
  revert w i. induction l as [|b l IH]; intros w i Hi; [done|].
  simpl. destruct (step b w) as [b' w'] eqn:Hb.
  destruct i as [|i]; simpl in Hi.
  - injection Hi as ->. exists w.
    destruct (thread step l w'). simpl. by rewrite Hb.
  - destruct (IH w' i Hi) as [w0 Hw0]. exists w0.
    by destruct (thread step l w').
Qed.

Lemma sweep_lookup (n : nat) (arr : list A) (w : W) (i : nat) (a : A) :
  (n ≤ length arr)%nat → (i < n)%nat → arr !! i = Some a →
  ∃ w0, (sweep step n arr w).1 !! i = Some (step a w0).1.
Proof.
  intros Hn Hi Ha. rewrite sweep_thread by done. simpl.
  destruct (thread_lookup (take n arr) w i a) as [w0 Hw0].
  { by rewrite lookup_take_lt. }
  exists w0. by rewrite lookup_app_l_Some with (x := (step a w0).1).
Qed.

Lemma sweep_lookup_ge (n : nat) (arr : list A) (w : W) (i : nat) :
  (n ≤ length arr)%nat → (n ≤ i)%nat →
  (sweep step n arr w).1 !! i = arr !! i.
Proof.
  intros Hn Hi. rewrite sweep_thread by done. simpl.
  pose proof (thread_length step (take n arr) w) as Hlen.
  rewrite length_take in Hlen.
  rewrite lookup_app_r by lia. rewrite lookup_drop. f_equal. lia.
Qed.
End ArraySweepSlots.

(** The call log of a threaded pass: when a step logs one call for a slot
    that fires and none for any other, the pass logs one call per firing
    slot. *)
Section CallLog.
Context {A : Type} (step : A → World → A * World) (fires : A → bool).
Hypothesis step_calls : ∀ a w,
  ∃ new, calls (step a w).2 = calls w ++ new
         ∧ length new = if fires a then 1%nat else 0%nat.

Lemma thread_calls (l : list A) (w : World) :
  ∃ new, calls (thread step l w).2 = calls w ++ new
         ∧ length new = length (filter (λ a, fires a = true) l).
Proof using step_calls.
  revert w. induction l as [|a l IH]; intros w; simpl.
  - exists []. by rewrite app_nil_r.
  - destruct (step_calls a w) as (new1 & Hc1 & Hl1).
    destruct (step a w) as [a' w1]. simpl in *.
    destruct (IH w1) as (new2 & Hc2 & Hl2).
    destruct (thread step l w1) as [l' w2]. simpl in *.
    exists (new1 ++ new2). split.
    + by rewrite Hc2, Hc1, app_assoc.
    + rewrite length_app, Hl1, Hl2, filter_cons.
      destruct (fires a); by case_decide.
Qed.

Lemma sweep_calls (n : nat) (arr : list A) (w : World) :
  (n ≤ length arr)%nat →
  ∃ new, calls (sweep step n arr w).2 = calls w ++ new
         ∧ length new = length (filter (λ a, fires a = true) (take n arr)).
Proof using step_calls.
  intros Hn. rewrite sweep_thread by done. simpl. apply thread_calls.
Qed.
End CallLog.

Section CallLogExact.
Context {A : Type} (step : A → World → A * World) (emit : A → list (Z * bool)).
Hypothesis step_emit : ∀ a w, calls (step a w).2 = calls w ++ emit a.

Lemma thread_emit (l : list A) (w : World) :
  calls (thread step l w).2 = calls w ++ concat (emit <$> l).
Proof using step_emit.
  revert w. induction l as [|a l IH]; intros w; simpl.
  - by rewrite app_nil_r.
  - pose proof (step_emit a w) as Ha.
    destruct (step a w) as [a' w1]. simpl in *.
    specialize (IH w1). destruct (thread step l w1) as [l' w2]. simpl in *.
    by rewrite IH, Ha, app_assoc.
Qed.
End CallLogExact.

(** ** The rule engine *)

Section RuleEngine.
Import AutomationRule AutomationController RuleSpec.

Lemma evaluate_disabled now currentTemp cb st w :
  automationEnabled st = false → evaluate now currentTemp cb st w = (st, w).
Proof. intros H. unfold evaluate. by rewrite H. Qed.

Lemma evaluate_enabled now currentTemp cb st w :
  automationEnabled st = true →
  evaluate now currentTemp cb st w =
    (mk (sweep (evaluateRule now currentTemp cb) (ruleCount st) (rules st) w).1
        (ruleCount st) true currentTemp,
     (sweep (evaluateRule now currentTemp cb) (ruleCount st) (rules st) w).2).
Proof.
  intros H. unfold evaluate. rewrite H. simpl.
  destruct (sweep _ _ _ _) as [l w'] eqn:E. simpl.
  unfold set_rules, set_lastTemperature. simpl. by rewrite H.
Qed.

(** What [evaluate] leaves in a counted slot is the loop body applied to
    the rule that was there. *)
Lemma evaluate_slot now currentTemp cb st w i rule :
  (ruleCount st ≤ length (rules st))%nat →
  automationEnabled st = true →
  (i < ruleCount st)%nat → rules st !! i = Some rule →
  ∃ w0, rules (evaluate now currentTemp cb st w).1 !! i
        = Some (evaluateRule now currentTemp cb rule w0).1.
Proof.
  intros Hwf Hen Hi Hr. rewrite evaluate_enabled by done. simpl.
  by apply sweep_lookup.
Qed.

(** C1. For a threshold-high rule, [evaluateCondition] is
    [measurement >= threshold] while the rule is not triggered and
    [measurement >= threshold - hysteresis] once it is. Consequently a
    triggered rule stays triggered, without any actuation, for every
    reading in [[threshold - hysteresis, threshold)], and its flag is
    cleared only by a reading below [threshold - hysteresis]; this holds
    for the loop body and for the slot of the rule across [evaluate]. *)
Theorem threshold_high_hysteresis (rule : AutomationRule.t) (currentTemp : Z) :
  triggerType rule = TEMP_HIGH →
  (currentlyTriggered rule = false →
     (evaluateCondition rule currentTemp = true ↔ currentTemp >= threshold rule)) ∧
  (currentlyTriggered rule = true →
     (evaluateCondition rule currentTemp = true
      ↔ currentTemp >= threshold rule - hysteresis rule)) ∧
  (currentlyTriggered rule = true →
     ∀ now cb w,
       (threshold rule - hysteresis rule <= currentTemp < threshold rule →
          evaluateRule now currentTemp cb rule w = (rule, w)) ∧
       (currentlyTriggered (evaluateRule now currentTemp cb rule w).1 = false →
          currentTemp < threshold rule - hysteresis rule) ∧
       (enabled rule = true → currentTemp < threshold rule - hysteresis rule →
          evaluateRule now currentTemp cb rule w = (set_currentlyTriggered false rule, w))) ∧
  (currentlyTriggered rule = true →
     ∀ now cb st w i,
       (ruleCount st ≤ length (rules st))%nat →
       (i < ruleCount st)%nat → rules st !! i = Some rule →
       (threshold rule - hysteresis rule <= currentTemp < threshold rule →
          rules (evaluate now currentTemp cb st w).1 !! i = Some rule) ∧
       (∀ rule', rules (evaluate now currentTemp cb st w).1 !! i = Some rule' →
          currentlyTriggered rule' = false →
          currentTemp < threshold rule - hysteresis rule)).
Proof.
  intros Hkind.
  assert (Hoff : currentlyTriggered rule = false →
            (evaluateCondition rule currentTemp = true ↔ currentTemp >= threshold rule)).
  { intros Hf. unfold evaluateCondition. rewrite Hkind, Hf. rewrite Z.geb_le. lia. }
  assert (Hon : currentlyTriggered rule = true →
            (evaluateCondition rule currentTemp = true
             ↔ currentTemp >= threshold rule - hysteresis rule)).
  { intros Ht. unfold evaluateCondition. rewrite Hkind, Ht. rewrite Z.geb_le. lia. }
  assert (Hbody : currentlyTriggered rule = true →
     ∀ now cb w,
       (threshold rule - hysteresis rule <= currentTemp < threshold rule →
          evaluateRule now currentTemp cb rule w = (rule, w)) ∧
       (currentlyTriggered (evaluateRule now currentTemp cb rule w).1 = false →
          currentTemp < threshold rule - hysteresis rule) ∧
       (enabled rule = true → currentTemp < threshold rule - hysteresis rule →
          evaluateRule now currentTemp cb rule w = (set_currentlyTriggered false rule, w))).
  { intros Ht now cb w. specialize (Hon Ht).
    unfold evaluateRule. rewrite Ht.
    destruct (evaluateCondition rule currentTemp) eqn:Hc.
    - assert (currentTemp >= threshold rule - hysteresis rule) by by apply Hon.
      destruct (enabled rule); simpl; rewrite ?Ht;
        (split; [done | split; [intros; congruence | intros; lia]]).
    - assert (¬ currentTemp >= threshold rule - hysteresis rule).
      { intros Hge. apply Hon in Hge. congruence. }
      destruct (enabled rule); simpl; rewrite ?Ht;
        (split; [intros; lia | split; [intros; lia | intros; done]]). }
  split; [exact Hoff|]. split; [exact Hon|]. split; [exact Hbody|].
  intros Ht now cb st w i Hlen Hi Hslot. split.
  - intros Hband.
    destruct (automationEnabled st) eqn:Hen.
    + destruct (evaluate_slot now currentTemp cb st w i rule) as [w0 Hw0]; try done.
      rewrite Hw0. by rewrite (proj1 (Hbody Ht now cb w0) Hband).
    + by rewrite evaluate_disabled.
  - intros rule' Hslot' Hclear.
    destruct (automationEnabled st) eqn:Hen.
    + destruct (evaluate_slot now currentTemp cb st w i rule) as [w0 Hw0]; try done.
      rewrite Hw0 in Hslot'. injection Hslot' as <-.
      by apply (Hbody Ht now cb w0).
    + rewrite evaluate_disabled in Hslot' by done. simpl in Hslot'.
      congruence.
Qed.

Lemma threshold_high_hysteresis_witness :
  triggerType (set_currentlyTriggered true scenarioA_rule) = TEMP_HIGH ∧
  (evaluateCondition (set_currentlyTriggered true scenarioA_rule) 27 = true
   ↔ 27 >= threshold (set_currentlyTriggered true scenarioA_rule)
           - hysteresis (set_currentlyTriggered true scenarioA_rule)).
Proof.
  split; [reflexivity|].
  apply (threshold_high_hysteresis (set_currentlyTriggered true scenarioA_rule) 27);
    reflexivity.
Defined.

Lemma executeAction_spec cb rule w :
  executeAction rule cb w =
    match cb with
    | Some f =>
        if executable cb rule then invoke f (relayId rule) (newState rule w) w else w
    | None => w
    end.
Proof.
  unfold executeAction, executable, newState. destruct cb as [f|]; [|done].
  rewrite bool_decide_true by eauto. simpl.
  destruct (Z.leb_spec RELAY_COUNT (relayId rule)) as [Hge|Hlt].
  - by rewrite (proj2 (Z.ltb_ge _ _) Hge).
  - rewrite (proj2 (Z.ltb_lt _ _) Hlt). simpl. by destruct (action rule).
Qed.

Lemma evaluateRule_spec now currentTemp cb rule w :
  evaluateRule now currentTemp cb rule w =
    if rising currentTemp rule then
      (set_lastTriggerTime now (set_currentlyTriggered true rule),
       executeAction rule cb w)
    else if falling currentTemp rule then (set_currentlyTriggered false rule, w)
    else (rule, w).
Proof.
  unfold evaluateRule, rising, falling.
  destruct (enabled rule); simpl; [|done].
  by destruct (evaluateCondition rule currentTemp), (currentlyTriggered rule).
Qed.

Lemma evaluateRule_calls now currentTemp cb rule w :
  ∃ new, calls (evaluateRule now currentTemp cb rule w).2 = calls w ++ new
         ∧ length new =
             if rising currentTemp rule && executable cb rule then 1%nat else 0%nat.
Proof.
  rewrite evaluateRule_spec, executeAction_spec.
  destruct (rising currentTemp rule); simpl.
  - destruct cb as [f|].
    + destruct (executable (Some f) rule); simpl.
      * by exists [(relayId rule, newState rule w)].
      * exists []. by rewrite app_nil_r.
    + exists []. rewrite app_nil_r. split; [done|].
      unfold executable. by rewrite bool_decide_false by (by intros [? ?]).
  - exists []. rewrite app_nil_r. by destruct (falling currentTemp rule).
Qed.

(** The claim C2 as stated fails: a rule added through [addRule] meets its
    condition for the first time, and no call is made because the callback
    is null; and a rule read from the card, for a relay that does not
    exist, meets its condition with a callback present, and no call is
    made either. *)
Lemma rising_edge_without_call :
  (let st := (addRule 2 TEMP_HIGH TURN_ON 28 init).2 in
   automationEnabled st = true ∧
   (∃ rule, rules st !! 0%nat = Some rule ∧ enabled rule = true ∧
            currentlyTriggered rule = false ∧ evaluateCondition rule 30 = true) ∧
   calls (evaluate 0 30 None st quiet).2 = [] ∧
   (currentlyTriggered <$> rules (evaluate 0 30 None st quiet).1 !! 0%nat) = Some true) ∧
  (let st := (loadFromSD init card_relay9).2 in
   automationEnabled st = true ∧ ruleCount st = 1%nat ∧
   (∃ rule, rules st !! 0%nat = Some rule ∧ enabled rule = true ∧
            currentlyTriggered rule = false ∧ evaluateCondition rule 30 = true) ∧
   calls (evaluate 0 30 (Some store_state) st quiet).2 = [] ∧
   (currentlyTriggered <$> rules (evaluate 0 30 (Some store_state) st quiet).1 !! 0%nat)
     = Some true).
Proof.
  split.
  - vm_compute. split; [done|]. split; [|done]. eexists. by repeat split.
  - vm_compute. split; [done|]. split; [done|]. split; [|done].
    eexists. by repeat split.
Qed.

(** C2, amended. For an enabled rule, with automation globally enabled:
    when the condition goes from false to true the triggered flag and the
    trigger timestamp are set, and the callback is invoked exactly once
    provided it is not null, the relay id of the rule is below
    [RELAY_COUNT] and its action is turn-on, turn-off or toggle (otherwise
    it is not invoked); when the condition goes from true to false the
    flag is cleared without any invocation; while the flag is true and the
    condition holds nothing happens. Over the whole of [evaluate] the call
    log grows by one call per rule that rises and can act. When automation
    is globally disabled [evaluate] changes nothing and calls nothing. *)
Theorem evaluate_edge_triggered (now currentTemp : Z) (relayCallback : Callback) :
  (∀ rule w, enabled rule = true →
     (evaluateCondition rule currentTemp = true → currentlyTriggered rule = false →
        (evaluateRule now currentTemp relayCallback rule w).1
          = set_lastTriggerTime now (set_currentlyTriggered true rule) ∧
        (executable relayCallback rule = true →
           calls (evaluateRule now currentTemp relayCallback rule w).2
             = calls w ++ [(relayId rule, newState rule w)]) ∧
        (executable relayCallback rule = false →
           (evaluateRule now currentTemp relayCallback rule w).2 = w)) ∧
     (evaluateCondition rule currentTemp = false → currentlyTriggered rule = true →
        evaluateRule now currentTemp relayCallback rule w
          = (set_currentlyTriggered false rule, w)) ∧
     (evaluateCondition rule currentTemp = true → currentlyTriggered rule = true →
        evaluateRule now currentTemp relayCallback rule w = (rule, w))) ∧
  (∀ st w, automationEnabled st = true → (ruleCount st ≤ length (rules st))%nat →
     ruleCount (evaluate now currentTemp relayCallback st w).1 = ruleCount st ∧
     (∀ i rule, (i < ruleCount st)%nat → rules st !! i = Some rule →
        ∃ w0, rules (evaluate now currentTemp relayCallback st w).1 !! i
              = Some (evaluateRule now currentTemp relayCallback rule w0).1) ∧
     ∃ new, calls (evaluate now currentTemp relayCallback st w).2 = calls w ++ new
            ∧ length new
              = length (filter (λ rule, rising currentTemp rule
                                        && executable relayCallback rule = true)
                          (stored st))) ∧
  (∀ st w, automationEnabled st = false →
     evaluate now currentTemp relayCallback st w = (st, w)).
Proof.
  split; [|split].
  - intros rule w Hen. rewrite evaluateRule_spec, executeAction_spec.
    unfold rising, falling. rewrite Hen. simpl.
    split; [|split].
    + intros -> ->. simpl. split; [done|]. split.
      * intros Hex. destruct relayCallback as [f|].
        -- by rewrite Hex.
        -- unfold executable in Hex. by rewrite bool_decide_false in Hex by (by intros [? ?]).
      * intros Hex. destruct relayCallback as [f|]; [|done]. by rewrite Hex.
    + by intros -> ->.
    + by intros -> ->.
  - intros st w Hen Hlen. split; [|split].
    + by rewrite evaluate_enabled.
    + intros i rule Hi Hr. by apply evaluate_slot.
    + rewrite evaluate_enabled by done. simpl. unfold stored.
      apply (sweep_calls (evaluateRule now currentTemp relayCallback)
               (λ rule, rising currentTemp rule && executable relayCallback rule));
        [|done].
      intros a w0. apply evaluateRule_calls.
  - intros st w Hdis. by apply evaluate_disabled.
Qed.

Lemma evaluate_edge_triggered_witness :
  enabled scenarioA_rule = true ∧ evaluateCondition scenarioA_rule 28 = true ∧
  currentlyTriggered scenarioA_rule = false ∧
  executable (Some store_state) scenarioA_rule = true ∧
  calls (evaluateRule 0 28 (Some store_state) scenarioA_rule quiet).2
    = calls quiet ++ [(relayId scenarioA_rule, newState scenarioA_rule quiet)].
Proof.
  repeat (split; [reflexivity|]).
  apply (evaluate_edge_triggered 0 28 (Some store_state)); reflexivity.
Defined.

(** Scenario A: exactly one call, turn-on of relay 2, made at the reading
    28; the flag stays set through 29, 27 and 26 and is cleared at 25. *)
Example scenarioA :
  let st := (addRule 2 TEMP_HIGH TURN_ON 28 init).2 in
  calls (feed (Some store_state) [27; 28; 29; 27; 26; 25] st quiet).2 = [(2, true)] ∧
  calls (feed (Some store_state) [27; 28] st quiet).2 = [(2, true)] ∧
  (currentlyTriggered <$> rules (feed (Some store_state) [27; 28; 29; 27; 26] st quiet).1 !! 0%nat)
    = Some true ∧
  (currentlyTriggered <$> rules (feed (Some store_state) [27; 28; 29; 27; 26; 25] st quiet).1 !! 0%nat)
    = Some false.
Proof. vm_compute. done. Qed.
End RuleEngine.

(** ** Schedules *)

Section ScheduleWindow.
Import ScheduleController ScheduleSpec.

Lemma uint16_minutes (h m : Z) : is_uint8 h → is_uint8 m → uint16 (h * 60 + m) = h * 60 + m.
Proof. unfold is_uint8, uint16. intros Hh Hm. apply Z.mod_small. lia. Qed.

Lemma land_bit (a k : Z) :
  0 <= k → (Z.land a (Z.shiftl 1 k) =? 0) = negb (Z.testbit a k).
Proof.
  intros Hk. rewrite Z.shiftl_1_l.
  destruct (Z.testbit a k) eqn:Hbit; simpl.
  - apply Z.eqb_neq. intros H0.
    assert (Hk' : Z.testbit (Z.land a (2 ^ k)) k = true).
    { by rewrite Z.land_spec, Hbit, Z.pow2_bits_true. }
    rewrite H0, Z.bits_0 in Hk'. done.
  - apply Z.eqb_eq. apply Z.bits_inj'. intros n Hn.
    rewrite Z.land_spec, Z.bits_0.
    destruct (Z.eq_dec k n) as [->|Hne].
    + by rewrite Hbit.
    + rewrite (Z.pow2_bits_false k n) by done. apply andb_false_r.
Qed.

Lemma isDayMatch_bit (sched : Schedule.t) (dayOfWeek : Z) :
  1 <= dayOfWeek <= 7 →
  isDayMatch sched dayOfWeek = Z.testbit (Schedule.daysOfWeek sched) (dayOfWeek - 1)
  ∧ uint8 (Z.shiftl 1 (dayOfWeek - 1)) = Z.shiftl 1 (dayOfWeek - 1).
Proof.
  intros Hd.
  assert (Hu : uint8 (Z.shiftl 1 (dayOfWeek - 1)) = Z.shiftl 1 (dayOfWeek - 1)).
  { assert (Hcases : dayOfWeek = 1 ∨ dayOfWeek = 2 ∨ dayOfWeek = 3 ∨ dayOfWeek = 4
                     ∨ dayOfWeek = 5 ∨ dayOfWeek = 6 ∨ dayOfWeek = 7) by lia.
    destruct Hcases as [->|[->|[->|[->|[->|[->| ->]]]]]]; reflexivity. }
  split; [|done].
  unfold isDayMatch. rewrite Hu, land_bit by lia. apply negb_involutive.
Qed.

(** C3. With the on and off times in minutes since midnight: when
    [offMinutes < onMinutes] the schedule is active exactly when
    [current >= onMinutes] or [current < offMinutes]; otherwise exactly
    when [onMinutes <= current < offMinutes]; in both cases provided the
    bit [1 << (weekday - 1)] is set in the day mask, for an ISO weekday
    1..7; and a schedule whose on time equals its off time is never
    active. *)
Theorem schedule_active_window (sched : Schedule.t) (currentHour currentMin dayOfWeek : Z) :
  Schedule.wf sched → is_uint8 currentHour → is_uint8 currentMin →
  1 <= dayOfWeek <= 7 →
  let current := currentHour * 60 + currentMin in
  (offMinutes sched < onMinutes sched →
     (shouldScheduleBeActive sched currentHour currentMin dayOfWeek = true
      ↔ Z.land (Schedule.daysOfWeek sched) (Z.shiftl 1 (dayOfWeek - 1)) ≠ 0
        ∧ (current >= onMinutes sched ∨ current < offMinutes sched))) ∧
  (¬ offMinutes sched < onMinutes sched →
     (shouldScheduleBeActive sched currentHour currentMin dayOfWeek = true
      ↔ Z.land (Schedule.daysOfWeek sched) (Z.shiftl 1 (dayOfWeek - 1)) ≠ 0
        ∧ onMinutes sched <= current < offMinutes sched)) ∧
  (Z.land (Schedule.daysOfWeek sched) (Z.shiftl 1 (dayOfWeek - 1)) ≠ 0
   ↔ Z.testbit (Schedule.daysOfWeek sched) (dayOfWeek - 1) = true) ∧
  (Schedule.onHour sched = Schedule.offHour sched →
   Schedule.onMinute sched = Schedule.offMinute sched →
     shouldScheduleBeActive sched currentHour currentMin dayOfWeek = false).
Proof.
  intros (_ & HonH & HonM & HoffH & HoffM & _) Hh Hm Hd current.
  destruct (isDayMatch_bit sched dayOfWeek Hd) as [Hday Hu].
  assert (Hland : Z.land (Schedule.daysOfWeek sched) (Z.shiftl 1 (dayOfWeek - 1)) ≠ 0
                  ↔ Z.testbit (Schedule.daysOfWeek sched) (dayOfWeek - 1) = true).
  { rewrite <- Z.eqb_neq, land_bit by lia.
    by destruct (Z.testbit (Schedule.daysOfWeek sched) (dayOfWeek - 1)). }
  unfold shouldScheduleBeActive.
  rewrite !uint16_minutes by done. rewrite Hday.
  fold (onMinutes sched) (offMinutes sched) current.
  split; [|split; [|split]].
  - intros Hwrap. rewrite Hland.
    rewrite (proj2 (Z.ltb_lt _ _) Hwrap).
    destruct (Z.testbit (Schedule.daysOfWeek sched) (dayOfWeek - 1)); simpl.
    + rewrite orb_true_iff, Z.geb_le, Z.ltb_lt. split; [intros [?|?]|intros [_ [?|?]]]; (split || idtac); try done; lia.
    + split; [done|]. by intros [? _].
  - intros Hnowrap. rewrite Hland.
    rewrite (proj2 (Z.ltb_ge _ _)) by lia.
    destruct (Z.testbit (Schedule.daysOfWeek sched) (dayOfWeek - 1)); simpl.
    + rewrite andb_true_iff, Z.geb_le, Z.ltb_lt. split; [intros [? ?]|intros [_ [? ?]]]; (split || idtac); try done; lia.
    + split; [done|]. by intros [? _].
  - exact Hland.
  - intros HeqH HeqM.
    assert (Heq : offMinutes sched = onMinutes sched).
    { unfold offMinutes, onMinutes. by rewrite HeqH, HeqM. }
    rewrite Heq, Z.ltb_irrefl.
    destruct (Z.testbit (Schedule.daysOfWeek sched) (dayOfWeek - 1)); simpl; [|done].
    apply andb_false_iff.
    destruct (Z.ltb_spec current (onMinutes sched)); [left|right]; [|done].
    rewrite Z.geb_leb. apply Z.leb_gt. lia.
Qed.

Lemma schedule_active_window_witness :
  Schedule.wf scenarioB_schedule ∧ is_uint8 23 ∧ is_uint8 30 ∧ 1 <= 3 <= 7 ∧
  offMinutes scenarioB_schedule < onMinutes scenarioB_schedule ∧
  (shouldScheduleBeActive scenarioB_schedule 23 30 3 = true
   ↔ Z.land (Schedule.daysOfWeek scenarioB_schedule) (Z.shiftl 1 (3 - 1)) ≠ 0
     ∧ (23 * 60 + 30 >= onMinutes scenarioB_schedule
        ∨ 23 * 60 + 30 < offMinutes scenarioB_schedule)).
Proof.
  assert (Hwf : Schedule.wf scenarioB_schedule) by (vm_compute; repeat split; congruence).
  assert (H23 : is_uint8 23) by (unfold is_uint8; lia).
  assert (H30 : is_uint8 30) by (unfold is_uint8; lia).
  assert (Hd : 1 <= 3 <= 7) by lia.
  assert (Hwrap : offMinutes scenarioB_schedule < onMinutes scenarioB_schedule)
    by (vm_compute; reflexivity).
  repeat (split; [assumption|]).
  exact (proj1 (schedule_active_window scenarioB_schedule 23 30 3 Hwf H23 H30 Hd) Hwrap).
Defined.

(** Scenario B: activity at 21:59, 22:00, 23:30, 05:59, 06:00, 06:01. *)
Example scenarioB :
  (λ '(h, m), shouldScheduleBeActive scenarioB_schedule h m 1)
    <$> [(21, 59); (22, 0); (23, 30); (5, 59); (6, 0); (6, 1)]
  = [false; true; true; true; false; false].
Proof. reflexivity. Qed.
End ScheduleWindow.

(** ** Timers *)

Section Timers.
Import ScheduleController TimerSpec.

(** The compaction loop keeps the enabled slots, in order, at the front. *)
Lemma compact_spec (n : nat) (arr : list Timer.t) :
  (n ≤ length arr)%nat →
  let '(arr', writeIndex) := for_range 0 n compact_body (arr, O) in
  take writeIndex arr' = filter (λ x, Timer.enabled x = true) (take n arr)
  ∧ drop n arr' = drop n arr
  ∧ length arr' = length arr
  ∧ (writeIndex ≤ n)%nat.
Proof.
  induction n as [|n IH]; intros Hn.
  - rewrite for_range_nil by lia. by rewrite take_0, !drop_0.
  - rewrite for_range_last.
    specialize (IH ltac:(lia)).
    destruct (for_range 0 n compact_body (arr, O)) as [arr1 k].
    destruct IH as (Htake & Hdrop & Hlen & Hk).
    destruct (lookup_lt_is_Some_2 arr n) as [x Hx]; [lia|].
    assert (Hx1 : arr1 !! n = Some x).
    { rewrite <- (Nat.add_0_r n), <- lookup_drop, Hdrop, lookup_drop.
      by rewrite Nat.add_0_r. }
    assert (HdropS : drop (S n) arr1 = drop (S n) arr).
    { replace (S n) with (n + 1)%nat by lia. rewrite <- !drop_drop. by rewrite Hdrop. }
    unfold compact_body. rewrite Hx1.
    rewrite (take_S_r _ _ _ Hx), filter_app, filter_cons, filter_nil.
    destruct (Timer.enabled x) eqn:Hen.
    + rewrite decide_True by done.
      assert (Hins : (if bool_decide (k ≠ n) then <[k := x]> arr1 else arr1)
                     = <[k := x]> arr1).
      { case_bool_decide as Hkn; [done|].
        assert (k = n) as -> by (destruct (decide (k = n)); [done|contradiction]).
        by rewrite list_insert_id. }
      rewrite Hins. repeat split.
      * rewrite (take_S_r _ k x).
        -- rewrite take_insert_ge by lia. by rewrite Htake.
        -- apply list_lookup_insert_eq. lia.
      * rewrite drop_insert_lt by lia. done.
      * by rewrite length_insert.
      * lia.
    + rewrite decide_False by done.
      rewrite app_nil_r. repeat split; try done; try lia.
Qed.

Lemma expireTimer_slot now cb x w :
  (expireTimer now cb x w).1 = if expired now x then Timer.set_enabled false x else x.
Proof.
  unfold expireTimer, expired. destruct (Timer.enabled x); simpl; [|done].
  by destruct (elapsedSeconds now x >=? Timer.duration x).
Qed.

Lemma expireTimer_calls now cb x w :
  calls (expireTimer now cb x w).2 = calls w ++ expiry_calls now cb x.
Proof.
  unfold expireTimer, expiry_calls, expired.
  destruct (Timer.enabled x); simpl; [|by rewrite app_nil_r].
  destruct (elapsedSeconds now x >=? Timer.duration x); simpl; [|by rewrite app_nil_r].
  destruct cb as [f|]; simpl; [done|by rewrite app_nil_r].
Qed.

Lemma filter_enabled_expire now (l : list Timer.t) :
  filter (λ x, Timer.enabled x = true)
    ((λ x, if expired now x then Timer.set_enabled false x else x) <$> l)
  = filter (λ x, survives now x = true) l.
Proof.
  induction l as [|x l IH]; [done|].
  rewrite fmap_cons, !filter_cons, IH.
  unfold expired, survives.
  destruct (Timer.enabled x) eqn:Hen, (elapsedSeconds now x >=? Timer.duration x);
    simpl; rewrite ?Hen; repeat case_decide; try done; congruence.
Qed.

(** One call of [updateTimers]: the counted slots that survive, in their
    order, and nothing else, are counted afterwards; the call log grows by
    the calls of the slots that expire. *)
Lemma updateTimers_spec now cb st w :
  (timerCount st ≤ length (timers st))%nat →
  counted (updateTimers now cb st w).1
    = filter (λ x, survives now x = true) (counted st)
  ∧ timerCount (updateTimers now cb st w).1
    = length (filter (λ x, survives now x = true) (counted st))
  ∧ length (timers (updateTimers now cb st w).1) = length (timers st)
  ∧ calls (updateTimers now cb st w).2
    = calls w ++ concat (expiry_calls now cb <$> counted st)
  ∧ schedules (updateTimers now cb st w).1 = schedules st
  ∧ scheduleCount (updateTimers now cb st w).1 = scheduleCount st
  ∧ rtcAvailable (updateTimers now cb st w).1 = rtcAvailable st.
Proof.
  intros Hn. unfold updateTimers, counted.
  rewrite sweep_thread by done.
  pose proof (thread_length (expireTimer now cb) (take (timerCount st) (timers st)) w) as Hlen1.
  pose proof (thread_map (expireTimer now cb)
                (λ x, if expired now x then Timer.set_enabled false x else x)
                (take (timerCount st) (timers st)) w
                (λ a w0, expireTimer_slot now cb a w0)) as Hmap.
  pose proof (thread_emit (expireTimer now cb) (expiry_calls now cb)
                (λ a w0, expireTimer_calls now cb a w0)
                (take (timerCount st) (timers st)) w) as Hcalls.
  destruct (thread (expireTimer now cb) (take (timerCount st) (timers st)) w)
    as [l1 w1]. simpl in *.
  rewrite length_take in Hlen1.
  pose proof (compact_spec (timerCount st) (l1 ++ drop (timerCount st) (timers st))) as Hc.
  destruct (for_range 0 (timerCount st) compact_body
              (l1 ++ drop (timerCount st) (timers st), O)) as [arr2 k].
  destruct Hc as (Htake & _ & Hlen2 & Hk).
  { rewrite length_app, length_drop. lia. }
  simpl.
  rewrite take_app_length' in Htake by lia.
  rewrite Hmap, filter_enabled_expire in Htake.
  repeat split; try done.
  - rewrite <- Htake. rewrite length_take.
    rewrite length_app, length_drop in Hlen2. lia.
  - rewrite Hlen2, length_app, length_drop. lia.
Qed.

Lemma updateTimers_bound now cb st w :
  (timerCount st ≤ length (timers st))%nat →
  (timerCount (updateTimers now cb st w).1 ≤ timerCount st)%nat
  ∧ (timerCount (updateTimers now cb st w).1
     ≤ length (timers (updateTimers now cb st w).1))%nat.
Proof.
  intros Hn. destruct (updateTimers_spec now cb st w Hn) as (_ & Hk & Hlen & _).
  rewrite Hk, Hlen.
  pose proof (length_filter (λ x, survives now x = true) (counted st)) as Hf.
  unfold counted in *. rewrite length_take in Hf. lia.
Qed.

Lemma sweeps_cons now cb later st w :
  sweeps ((now, cb) :: later) st w
  = sweeps later (updateTimers now cb st w).1 (updateTimers now cb st w).2.
Proof. unfold sweeps. simpl. by destruct (updateTimers now cb st w). Qed.

(** Sweeps never bring a timer into the counted slots. *)
Lemma sweeps_subset later st w x :
  (timerCount st ≤ length (timers st))%nat →
  x ∈ counted (sweeps later st w).1 → x ∈ counted st.
Proof.
  revert st w. induction later as [|[now cb] later IH]; intros st w Hn Hx; [done|].
  rewrite sweeps_cons in Hx. apply IH in Hx.
  - destruct (updateTimers_spec now cb st w Hn) as (Hc & _).
    rewrite Hc in Hx. by apply list_elem_of_filter in Hx as [_ Hx].
  - by apply updateTimers_bound.
Qed.

(** The claim C4 as stated fails: the only timer expires at the sweep at
    5000 ms, it is removed, and no call is made because the callback is
    null. *)
Lemma expiry_without_call :
  let st := (addTimer 0 1 5 true init).2 in
  counted st = [Timer.mk 1 0 5 true true] ∧
  elapsedSeconds 4999 (Timer.mk 1 0 5 true true) < 5 ∧
  elapsedSeconds 5000 (Timer.mk 1 0 5 true true) >= 5 ∧
  calls (updateTimers 5000 None st quiet).2 = [] ∧
  timerCount (updateTimers 5000 None st quiet).1 = 0%nat.
Proof. vm_compute. repeat split; congruence. Qed.

(** C4, amended. For an enabled timer, at the first sweep where
    [(currentMillis - startTime) / 1000 >= duration] (in 32-bit unsigned
    arithmetic) the timer is marked disabled and the callback, when it is
    not null, is invoked exactly once with the relay id and
    [NOT turnOffWhenExpired]; a null callback is not invoked. Before that
    the sweep leaves the timer alone. After the sweep the counted slots
    are the enabled timers that did not expire, in their order, and the
    count is their number; the timer that fired is not counted after this
    sweep nor after any later one. *)
Theorem timer_expiry (now : Z) (relayCallback : Callback) :
  (∀ x w, Timer.enabled x = true → elapsedSeconds now x >= Timer.duration x →
     (expireTimer now relayCallback x w).1 = Timer.set_enabled false x ∧
     (is_Some relayCallback →
        calls (expireTimer now relayCallback x w).2
          = calls w ++ [(Timer.relayId x, negb (Timer.turnOffWhenExpired x))]) ∧
     (relayCallback = None → (expireTimer now relayCallback x w).2 = w)) ∧
  (∀ x w, Timer.enabled x = true → elapsedSeconds now x < Timer.duration x →
     expireTimer now relayCallback x w = (x, w)) ∧
  (∀ st w, (timerCount st ≤ length (timers st))%nat →
     counted (updateTimers now relayCallback st w).1
       = filter (λ x, survives now x = true) (counted st) ∧
     timerCount (updateTimers now relayCallback st w).1
       = length (filter (λ x, survives now x = true) (counted st)) ∧
     (timerCount (updateTimers now relayCallback st w).1 ≤ timerCount st)%nat ∧
     length (timers (updateTimers now relayCallback st w).1) = length (timers st) ∧
     calls (updateTimers now relayCallback st w).2
       = calls w ++ concat (expiry_calls now relayCallback <$> counted st) ∧
     (∀ x later, x ∈ counted st → expired now x = true →
        x ∉ counted (sweeps later (updateTimers now relayCallback st w).1
                       (updateTimers now relayCallback st w).2).1)).
Proof.
  split; [|split].
  - intros x w Hen Hexp. unfold expireTimer. rewrite Hen. simpl.
    rewrite (proj2 (Z.geb_le _ _)) by lia. simpl.
    split; [done|]. split.
    + by intros [f ->].
    + by intros ->.
  - intros x w Hen Hexp. unfold expireTimer. rewrite Hen. simpl.
    destruct (Z.geb_spec (elapsedSeconds now x) (Timer.duration x)); [lia|done].
  - intros st w Hn.
    destruct (updateTimers_spec now relayCallback st w Hn)
      as (Hc & Hk & Hlen & Hcalls & _).
    destruct (updateTimers_bound now relayCallback st w Hn) as [Hle Hn'].
    repeat split; try done.
    intros x later Hx Hexp Hin.
    apply sweeps_subset in Hin; [|done].
    rewrite Hc in Hin. apply list_elem_of_filter in Hin as [Hs _].
    unfold expired, survives in *.
    destruct (Timer.enabled x); simpl in *; [|done].
    by destruct (elapsedSeconds now x >=? Timer.duration x).
Qed.

Lemma timer_expiry_witness :
  (timerCount scenarioC ≤ length (timers scenarioC))%nat ∧
  calls (updateTimers 3200 (Some store_state) scenarioC quiet).2
    = calls quiet
      ++ concat (expiry_calls 3200 (Some store_state) <$> counted scenarioC).
Proof.
  assert (Hn : (timerCount scenarioC ≤ length (timers scenarioC))%nat)
    by (vm_compute; lia).
  split; [exact Hn|].
  apply (timer_expiry 3200 (Some store_state)). exact Hn.
Defined.

(** Scenario C: after the three additions one timer is live, of 3
    seconds; it is still counted at 3199 ms and it fires and leaves at
    3200 ms, three seconds after its start. *)
Example scenarioC_run :
  live_for 1 (counted scenarioC) = [Timer.mk 1 200 3 true true] ∧
  timerCount (updateTimers 3199 (Some store_state) scenarioC quiet).1
    = 1%nat ∧
  calls (updateTimers 3199 (Some store_state) scenarioC quiet).2 = [] ∧
  timerCount (updateTimers 3200 (Some store_state) scenarioC quiet).1
    = 0%nat ∧
  calls (updateTimers 3200 (Some store_state) scenarioC quiet).2
    = [(1, false)].
Proof. vm_compute. done. Qed.

(** *** One enabled timer per relay *)

Lemma live_for_none r (l : list Timer.t) :
  (∀ x, x ∈ l → ¬ (Timer.enabled x = true ∧ Timer.relayId x = r)) →
  live_for r l = [].
Proof.
  induction l as [|y l IH]; intros H; [done|].
  unfold live_for in *. rewrite filter_cons, decide_False.
  - apply IH. intros x Hx. apply H. by right.
  - apply H. by left.
Qed.

Lemma live_for_app r (l1 l2 : list Timer.t) :
  live_for r (l1 ++ l2) = live_for r l1 ++ live_for r l2.
Proof. apply filter_app. Qed.

Lemma live_for_disabled r x (l : list Timer.t) :
  Timer.enabled x = false → live_for r (x :: l) = live_for r l.
Proof.
  intros Hx. unfold live_for. rewrite filter_cons, decide_False; [done|].
  intros [Hen _]. congruence.
Qed.

Lemma findTimerIndex_from_spec n i (arr : list Timer.t) r :
  (findTimerIndex_from n i arr r = -1
   ∧ ∀ j x, (i ≤ j < i + n)%nat → arr !! j = Some x →
            ¬ (Timer.enabled x = true ∧ Timer.relayId x = r))
  ∨ (∃ k x, findTimerIndex_from n i arr r = Z.of_nat k ∧ (i ≤ k < i + n)%nat
            ∧ arr !! k = Some x ∧ Timer.enabled x = true ∧ Timer.relayId x = r
            ∧ ∀ j y, (i ≤ j < k)%nat → arr !! j = Some y →
                     ¬ (Timer.enabled y = true ∧ Timer.relayId y = r)).
Proof.
  revert i. induction n as [|n IH]; intros i; simpl.
  - left. split; [done|]. intros; lia.
  - destruct (arr !! i) as [x|] eqn:Hx.
    + destruct ((Timer.relayId x =? r) && Timer.enabled x) eqn:Hm.
      * right. exists i, x. apply andb_true_iff in Hm as [Hr He].
        apply Z.eqb_eq in Hr. repeat split; try done; try lia; intros; lia.
      * assert (Hno : ¬ (Timer.enabled x = true ∧ Timer.relayId x = r)).
        { intros [He Hr]. rewrite He, Hr, Z.eqb_refl in Hm. done. }
        destruct (IH (S i)) as [[Hres Hall]|(k & y & Hres & Hk & Hy & He & Hr & Hall)].
        -- left. split; [done|]. intros j z Hj Hz.
           destruct (decide (j = i)) as [->|Hne]; [congruence|].
           apply (Hall j z); [lia|done].
        -- right. exists k, y. repeat split; try done; try lia.
           intros j z Hj Hz.
           destruct (decide (j = i)) as [->|Hne]; [congruence|].
           apply (Hall j z); [lia|done].
    + destruct (IH (S i)) as [[Hres Hall]|(k & y & Hres & Hk & Hy & He & Hr & Hall)].
      * left. split; [done|]. intros j z Hj Hz.
        destruct (decide (j = i)) as [->|Hne]; [congruence|].
        apply (Hall j z); [lia|done].
      * right. exists k, y. repeat split; try done; try lia.
        intros j z Hj Hz.
        destruct (decide (j = i)) as [->|Hne]; [congruence|].
        apply (Hall j z); [lia|done].
Qed.

Lemma alter_middle {A : Type} (f : A → A) (l1 l2 : list A) (x : A) :
  alter f (length l1) (l1 ++ x :: l2) = l1 ++ f x :: l2.
Proof.
  rewrite <- (Nat.add_0_r (length l1)). by rewrite alter_app_r.
Qed.

(** [cancelTimer] clears the enabled flag of the first counted timer of
    the relay and touches nothing else; the count stays. *)
Lemma cancelTimer_spec r st :
  (timerCount st ≤ length (timers st))%nat →
  timerCount (cancelTimer r st).2 = timerCount st
  ∧ length (timers (cancelTimer r st).2) = length (timers st)
  ∧ (∀ r', (length (live_for r' (counted (cancelTimer r st).2))
            ≤ length (live_for r' (counted st)))%nat)
  ∧ ((length (live_for r (counted st)) ≤ 1)%nat →
     live_for r (counted (cancelTimer r st).2) = [])
  ∧ ((cancelTimer r st).1 = false → (cancelTimer r st).2 = st)
  ∧ ((cancelTimer r st).1 = true →
     ∃ k x, timers st !! k = Some x ∧ (k < timerCount st)%nat
            ∧ Timer.enabled x = true ∧ Timer.relayId x = r
            ∧ timers (cancelTimer r st).2 = <[k := Timer.set_enabled false x]> (timers st)).
Proof.
  intros Hn. unfold cancelTimer, findTimerIndex.
  destruct (findTimerIndex_from_spec (timerCount st) 0 (timers st) r)
    as [[-> Hall]|(k & x & -> & Hk & Hx & He & Hr & Hall)].
  - simpl. repeat split; try done.
    intros _. apply live_for_none. intros x Hx.
    apply list_elem_of_lookup in Hx as [j Hj].
    apply lookup_take_Some in Hj as [Hj Hlt].
    apply (Hall j x); [lia|done].
  - rewrite (proj2 (Z.geb_le _ _)) by lia. rewrite Nat2Z.id. simpl.
    assert (Hcx : counted st !! k = Some x).
    { unfold counted. rewrite lookup_take_lt by lia. done. }
    assert (Hsplit : ∃ l1 l2, counted st = l1 ++ x :: l2 ∧ length l1 = k
                              ∧ live_for r l1 = []).
    { exists (take k (counted st)), (drop (S k) (counted st)).
      split; [by rewrite take_drop_middle|]. split.
      - rewrite length_take. apply lookup_lt_Some in Hcx. lia.
      - apply live_for_none. intros y Hy.
        apply list_elem_of_lookup in Hy as [j Hj].
        apply lookup_take_Some in Hj as [Hj Hlt].
        apply lookup_take_Some in Hj as [Hj _].
        apply (Hall j y); [lia|done]. }
    destruct Hsplit as (l1 & l2 & Hmid & Hlk & Hpre).
    assert (Hafter : counted (set_timers (alter (Timer.set_enabled false) k (timers st)) st)
                     = l1 ++ Timer.set_enabled false x :: l2).
    { unfold counted at 1. simpl. rewrite take_alter_lt by lia.
      fold (counted st). rewrite Hmid, <- Hlk. apply alter_middle. }
    rewrite Hafter, Hmid.
    assert (Hx' : live_for r (x :: l2) = x :: live_for r l2).
    { unfold live_for. by rewrite filter_cons, decide_True. }
    repeat split.
    + by rewrite length_alter.
    + intros r'. rewrite !live_for_app, !length_app.
      rewrite live_for_disabled by done.
      assert ((length (live_for r' l2) ≤ length (live_for r' (x :: l2)))%nat).
      { unfold live_for. rewrite filter_cons. case_decide; simpl; lia. }
      lia.
    + rewrite !live_for_app, Hpre, Hx', live_for_disabled by done. simpl.
      intros Hone. destruct (live_for r l2); [done|]. simpl in Hone. lia.
    + done.
    + intros _. exists k, x. repeat split; try done; try lia.
      pose proof (lookup_lt_Some _ _ _ Hx) as Hlt.
      apply list_eq. intros j. rewrite list_lookup_alter, list_lookup_insert.
      repeat case_decide; subst; try done; try lia.
      by rewrite Hx.
Qed.

(** [addTimer] refuses when the count is at capacity or the relay does not
    exist; otherwise it cancels, then writes the new timer in the slot at
    the count. *)
Lemma addTimer_spec now r dur flag st :
  length (timers st) = MAX_TIMERS →
  ((MAX_TIMERS ≤ timerCount st)%nat ∨ RELAY_COUNT <= r →
     addTimer now r dur flag st = (false, st))
  ∧ ((timerCount st < MAX_TIMERS)%nat → r < RELAY_COUNT →
     (addTimer now r dur flag st).1 = true
     ∧ counted (addTimer now r dur flag st).2
       = counted (cancelTimer r st).2 ++ [Timer.mk r now dur flag true]
     ∧ timerCount (addTimer now r dur flag st).2 = S (timerCount st)
     ∧ length (timers (addTimer now r dur flag st).2) = MAX_TIMERS).
Proof.
  intros Hlen. unfold addTimer. split.
  - intros [Hfull|Hr].
    + by rewrite (proj2 (Nat.leb_le _ _) Hfull).
    + destruct (MAX_TIMERS <=? timerCount st)%nat; [done|].
      by rewrite (proj2 (Z.leb_le _ _) Hr).
  - intros Hroom Hr.
    rewrite (proj2 (Nat.leb_gt _ _) Hroom), (proj2 (Z.leb_gt _ _) Hr).
    destruct (cancelTimer_spec r st) as (Hcount & Hlen' & _); [lia|].
    simpl. rewrite Hcount. repeat split.
    + unfold counted. simpl. rewrite Hcount.
      rewrite (take_S_r _ _ (Timer.mk r now dur flag true)).
      * by rewrite take_insert_ge by lia.
      * apply list_lookup_insert_eq. lia.
    + rewrite length_insert. lia.
Qed.

(** The wall clock is never available, so [update] is the timer sweep. *)
Lemma update_updateTimers now cb st w :
  update now cb st w = updateTimers now cb st w.
Proof.
  unfold update. destruct (updateTimers now cb st w) as [st' w'].
  destruct (rtcAvailable st') eqn:Hrtc; simpl; [|done].
  unfold getCurrentTime. by rewrite Hrtc.
Qed.

Lemma loadFromSD_timers st sd :
  timers (loadFromSD st sd).2 = timers st
  ∧ timerCount (loadFromSD st sd).2 = timerCount st.
Proof.
  unfold loadFromSD.
  destruct (negb (SD.exists_ sd FILE_SCHEDULES)); [done|].
  destruct (SD.open_read sd FILE_SCHEDULES) as [file|]; [|done].
  destruct (SD.read file) as [b rest]. simpl.
  destruct (MAX_SCHEDULES <? Z.to_nat (uint8 b))%nat; [done|].
  by destruct (read_records _ _ _ _ _ _).
Qed.

Lemma timers_ok_frame st st' :
  timers st' = timers st → timerCount st' = timerCount st →
  timers_ok st → timers_ok st'.
Proof.
  intros Ht Hc (Hlen & Hn & Hone). unfold timers_ok, counted in *.
  rewrite Ht, Hc. done.
Qed.

Lemma timers_ok_cancelTimer r st : timers_ok st → timers_ok (cancelTimer r st).2.
Proof.
  intros (Hlen & Hn & Hone).
  destruct (cancelTimer_spec r st) as (Hc & Hl & Hle & _); [lia|].
  unfold timers_ok. rewrite Hc, Hl. repeat split; try done.
  intros r'. specialize (Hle r'). specialize (Hone r'). lia.
Qed.

Lemma timers_ok_updateTimers now cb st w :
  timers_ok st → timers_ok (updateTimers now cb st w).1.
Proof.
  intros (Hlen & Hn & Hone).
  destruct (updateTimers_spec now cb st w) as (Hc & _ & Hl & _); [lia|].
  destruct (updateTimers_bound now cb st w) as [Hle _]; [lia|].
  unfold timers_ok. rewrite Hl, Hc. repeat split; try done; try lia.
  intros r'. specialize (Hone r').
  unfold live_for in *.
  rewrite list_filter_filter, <- (list_filter_filter_l _ (λ x, Timer.enabled x = true ∧ Timer.relayId x = r'));
    [|by intros x [? ?]].
  etrans; [apply sublist_length, sublist_filter|done].
Qed.

Lemma addTimer_live now r dur flag st :
  timers_ok st → (addTimer now r dur flag st).1 = true →
  live_for r (counted (addTimer now r dur flag st).2) = [Timer.mk r now dur flag true]
  ∧ timers_ok (addTimer now r dur flag st).2.
Proof.
  intros (Hlen & Hn & Hone) Hok.
  destruct (addTimer_spec now r dur flag st Hlen) as [Hfail Hsucc].
  destruct (decide (timerCount st < MAX_TIMERS)%nat) as [Hroom|Hfull];
    [|rewrite Hfail in Hok by (left; lia); done].
  destruct (Z.lt_ge_cases r RELAY_COUNT) as [Hr|Hr];
    [|rewrite Hfail in Hok by (by right); done].
  destruct (Hsucc Hroom Hr) as (_ & Hc & Hk & Hl).
  destruct (cancelTimer_spec r st) as (_ & _ & Hle & Hnone & _); [lia|].
  assert (Hnew : live_for r [Timer.mk r now dur flag true] = [Timer.mk r now dur flag true]).
  { unfold live_for. by rewrite filter_cons, decide_True. }
  split.
  - rewrite Hc, live_for_app, Hnone by apply Hone. by rewrite Hnew.
  - unfold timers_ok. rewrite Hk, Hl, Hc. repeat split; try done; try lia.
    intros r'. rewrite live_for_app, length_app.
    destruct (decide (r' = r)) as [->|Hne].
    + rewrite Hnone by apply Hone. by rewrite Hnew.
    + unfold live_for at 2. rewrite filter_cons, decide_False by (by intros [_ ?]).
      simpl. specialize (Hle r'). specialize (Hone r'). lia.
Qed.

Lemma timers_ok_addTimer now r dur flag st :
  timers_ok st → timers_ok (addTimer now r dur flag st).2.
Proof.
  intros Hok. destruct (addTimer now r dur flag st).1 eqn:Hres.
  - by apply addTimer_live.
  - destruct Hok as (Hlen & Hn & Hone).
    destruct (addTimer_spec now r dur flag st Hlen) as [Hfail Hsucc].
    destruct (decide (timerCount st < MAX_TIMERS)%nat) as [Hroom|Hfull];
      [|by rewrite Hfail by (left; lia)].
    destruct (Z.lt_ge_cases r RELAY_COUNT) as [Hr|Hr];
      [|by rewrite Hfail by (by right)].
    destruct (Hsucc Hroom Hr) as (Htrue & _). congruence.
Qed.

(** Every reachable state satisfies the invariant of the timer array. *)
Lemma reachable_timers_ok st : reachable st → timers_ok st.
Proof.
  induction 1 as [|st sd _ IH|st now cb w _ IH|st r h1 m1 h2 m2 d _ IH|st i _ IH
                  |st i b _ IH|st _ IH|st sd _ IH|st now r dur flag _ IH|st r _ IH|st _ IH].
  - unfold timers_ok, init. simpl. repeat split; try done; lia.
  - unfold begin. simpl.
    destruct (loadFromSD_timers (set_rtcAvailable false st) sd) as [Ht Hc].
    by apply (timers_ok_frame st).
  - rewrite update_updateTimers. by apply timers_ok_updateTimers.
  - apply (timers_ok_frame st); [| |done]; unfold addSchedule;
      by repeat (case_match; simpl).
  - apply (timers_ok_frame st); [| |done]; unfold removeSchedule;
      by repeat (case_match; simpl).
  - apply (timers_ok_frame st); [| |done]; unfold setScheduleEnabled;
      by repeat (case_match; simpl).
  - by apply (timers_ok_frame st).
  - destruct (loadFromSD_timers st sd) as [Ht Hc]. by apply (timers_ok_frame st).
  - by apply timers_ok_addTimer.
  - by apply timers_ok_cancelTimer.
  - destruct IH as (Hlen & Hn & Hone). unfold timers_ok, clearAllTimers, counted.
    simpl. repeat split; try done; try lia; intros r; simpl; lia.
Qed.

Lemma disable_for_none r (l : list Timer.t) :
  live_for r l = [] → disable_for r <$> l = l.
Proof.
  induction l as [|x l IH]; [done|].
  unfold live_for in *. rewrite filter_cons, fmap_cons.
  case_decide as Hx; [done|]. intros Hl.
  unfold disable_for at 1. rewrite bool_decide_false by done.
  by rewrite IH.
Qed.

Lemma live_for_disable_for r (l : list Timer.t) :
  live_for r (disable_for r <$> l) = [].
Proof.
  apply live_for_none. intros y Hy [Hen Hr].
  apply list_elem_of_fmap in Hy as (x & -> & _).
  unfold disable_for in Hen, Hr. case_bool_decide as Hx.
  - by destruct x.
  - by apply Hx.
Qed.

Lemma live_for_disable_for_ne r r' (l : list Timer.t) :
  r' ≠ r → live_for r' (disable_for r <$> l) = live_for r' l.
Proof.
  intros Hne. induction l as [|x l IH]; [done|].
  rewrite fmap_cons. unfold live_for in *. rewrite !filter_cons, IH.
  unfold disable_for. case_bool_decide as Hx.
  - destruct Hx as [Hen Hr]. rewrite !decide_False; [done| |].
    + intros [_ Hr']. congruence.
    + intros [Hen' _]. by destruct x.
  - done.
Qed.

(** In a state with at most one enabled timer for the relay, disabling
    the first one, as [cancelTimer] does, disables them all. *)
Lemma cancelTimer_counted r st :
  (timerCount st ≤ length (timers st))%nat →
  (length (live_for r (counted st)) ≤ 1)%nat →
  counted (cancelTimer r st).2 = disable_for r <$> counted st.
Proof.
  intros Hn Hone.
  destruct (cancelTimer_spec r st Hn) as (Hc & _ & _ & Hnone & Hfalse & Htrue).
  specialize (Hnone Hone).
  destruct (cancelTimer r st).1 eqn:Hres.
  - destruct (Htrue eq_refl) as (k & x & Hx & Hk & Hen & Hr & Ht).
    assert (Hcx : counted st !! k = Some x).
    { unfold counted. by rewrite lookup_take_lt by lia. }
    assert (Hafter : counted (cancelTimer r st).2
                     = take k (counted st) ++ Timer.set_enabled false x
                         :: drop (S k) (counted st)).
    { unfold counted at 1. rewrite Ht, Hc, take_insert_lt by lia.
      fold (counted st). apply list_eq. intros j.
      pose proof (lookup_lt_Some _ _ _ Hcx) as Hlt.
      rewrite list_lookup_insert by done.
      destruct (decide (k = j)) as [<-|Hne].
      - rewrite decide_True by done.
        rewrite lookup_app_r by (rewrite length_take; lia).
        rewrite length_take. by replace (k - k `min` length (counted st))%nat with O by lia.
      - rewrite decide_False by (intros [? ?]; done).
        rewrite <- (take_drop_middle (counted st) k x Hcx) at 1.
        destruct (decide (j < k)%nat).
        + by rewrite !lookup_app_l by (rewrite length_take; lia).
        + rewrite !lookup_app_r by (rewrite length_take; lia).
          rewrite length_take.
          replace (j - k `min` length (counted st))%nat with (S (j - k - 1)) by lia.
          done. }
    rewrite Hafter in Hnone |- *.
    rewrite live_for_app, live_for_disabled in Hnone by done.
    apply app_nil in Hnone as [Hpre Hpost].
    rewrite <- (take_drop_middle (counted st) k x Hcx) at 3.
    rewrite fmap_app, fmap_cons, !disable_for_none by done.
    unfold disable_for. by rewrite bool_decide_true.
  - rewrite Hfalse in Hnone |- * by done. by rewrite disable_for_none.
Qed.

(** C5. In every state reachable through the public operations at most
    one enabled timer is counted per relay. [addTimer] succeeds exactly
    when a slot is left and the relay exists, also when the relay already
    has a live timer; a refused [addTimer] changes nothing. A successful
    one disables the enabled timer of its relay, if any, leaves every
    other counted timer as it is and appends the new timer: afterwards
    the relay has exactly one enabled timer, the new one with the start
    time, duration and expiry flag supplied, and the enabled timers of
    the other relays are those there were. [cancelTimer] disables the
    enabled timer of its relay and leaves the others; it and the timer
    sweep (of [updateTimers], and of [update]) keep the invariant. *)
Theorem one_enabled_timer_per_relay (st : ScheduleController.t) :
  reachable st →
  (∀ relayId, (length (live_for relayId (counted st)) ≤ 1)%nat) ∧
  (∀ now relayId durationSeconds turnOffWhenExpired,
     ((addTimer now relayId durationSeconds turnOffWhenExpired st).1 = true
      ↔ (timerCount st < MAX_TIMERS)%nat ∧ relayId < RELAY_COUNT) ∧
     ((addTimer now relayId durationSeconds turnOffWhenExpired st).1 = false →
      (addTimer now relayId durationSeconds turnOffWhenExpired st).2 = st) ∧
     ((addTimer now relayId durationSeconds turnOffWhenExpired st).1 = true →
      counted (addTimer now relayId durationSeconds turnOffWhenExpired st).2
        = (disable_for relayId <$> counted st)
          ++ [Timer.mk relayId now durationSeconds turnOffWhenExpired true]
      ∧ live_for relayId
          (counted (addTimer now relayId durationSeconds turnOffWhenExpired st).2)
        = [Timer.mk relayId now durationSeconds turnOffWhenExpired true]
      ∧ (∀ r', r' ≠ relayId →
           live_for r'
             (counted (addTimer now relayId durationSeconds turnOffWhenExpired st).2)
           = live_for r' (counted st))
      ∧ ∀ r', (length (live_for r'
                 (counted (addTimer now relayId durationSeconds turnOffWhenExpired st).2))
               ≤ 1)%nat)) ∧
  (∀ relayId,
     counted (cancelTimer relayId st).2 = disable_for relayId <$> counted st
     ∧ live_for relayId (counted (cancelTimer relayId st).2) = []
     ∧ (∀ r', r' ≠ relayId →
          live_for r' (counted (cancelTimer relayId st).2) = live_for r' (counted st))
     ∧ ∀ r', (length (live_for r' (counted (cancelTimer relayId st).2)) ≤ 1)%nat) ∧
  (∀ now relayCallback w r',
     (length (live_for r' (counted (updateTimers now relayCallback st w).1)) ≤ 1)%nat
     ∧ (length (live_for r' (counted (update now relayCallback st w).1)) ≤ 1)%nat).
Proof.
  intros Hreach. pose proof (reachable_timers_ok st Hreach) as Hok.
  pose proof Hok as (Hlen & Hn & Hone).
  assert (Hcancel : ∀ r, counted (cancelTimer r st).2 = disable_for r <$> counted st).
  { intros r. apply cancelTimer_counted; [lia|apply Hone]. }
  split; [|split; [|split]].
  - apply Hone.
  - intros now r dur flag.
    destruct (addTimer_spec now r dur flag st Hlen) as [Hfail Hsucc].
    assert (Hiff : (addTimer now r dur flag st).1 = true
                   ↔ (timerCount st < MAX_TIMERS)%nat ∧ r < RELAY_COUNT).
    { split.
      - intros Hres.
        destruct (decide (timerCount st < MAX_TIMERS)%nat) as [Hroom|Hfull];
          [|rewrite Hfail in Hres by (left; lia); done].
        destruct (Z.lt_ge_cases r RELAY_COUNT) as [Hr|Hr];
          [done|rewrite Hfail in Hres by (by right); done].
      - intros [Hroom Hr]. by destruct (Hsucc Hroom Hr) as [? _]. }
    split; [exact Hiff|]. split.
    + intros Hres.
      destruct (decide (timerCount st < MAX_TIMERS)%nat) as [Hroom|Hfull];
        [|by rewrite Hfail by (left; lia)].
      destruct (Z.lt_ge_cases r RELAY_COUNT) as [Hr|Hr];
        [|by rewrite Hfail by (by right)].
      rewrite (proj2 Hiff) in Hres by done. done.
    + intros Hres. destruct (proj1 Hiff Hres) as [Hroom Hr].
      destruct (Hsucc Hroom Hr) as (_ & Hc & _).
      destruct (addTimer_live now r dur flag st Hok Hres) as [Hlive Hok'].
      rewrite Hcancel in Hc.
      split; [exact Hc|]. split; [exact Hlive|]. split; [|apply Hok'].
      intros r' Hne. rewrite Hc, live_for_app, live_for_disable_for_ne by done.
      unfold live_for at 2. rewrite filter_cons, decide_False, filter_nil.
      * by rewrite app_nil_r.
      * intros [_ Hr']. simpl in Hr'. congruence.
  - intros r. split; [apply Hcancel|]. rewrite Hcancel.
    split; [apply live_for_disable_for|]. split.
    + intros r' Hne. by apply live_for_disable_for_ne.
    + intros r'. rewrite <- Hcancel. apply (timers_ok_cancelTimer r st Hok).
  - intros now cb w r'. rewrite update_updateTimers.
    split; apply (timers_ok_updateTimers now cb st w Hok).
Qed.

Lemma one_enabled_timer_per_relay_witness :
  reachable scenarioC_before ∧
  live_for 1 (counted scenarioC_before) = [Timer.mk 1 100 10 true true] ∧
  (addTimer 200 1 3 true scenarioC_before).1 = true ∧
  live_for 1 (counted (addTimer 200 1 3 true scenarioC_before).2)
  = [Timer.mk 1 200 3 true true].
Proof.
  assert (Hreach : reachable scenarioC_before).
  { unfold scenarioC_before. do 2 apply reach_addTimer. apply reach_init. }
  split; [exact Hreach|]. split; [reflexivity|].
  destruct (one_enabled_timer_per_relay scenarioC_before Hreach) as (_ & Hadd & _).
  destruct (Hadd 200 1 3 true) as (Hiff & _ & Hsucc).
  assert (Hres : (addTimer 200 1 3 true scenarioC_before).1 = true).
  { apply (proj2 Hiff). split; [vm_compute; lia|vm_compute; congruence]. }
  split; [exact Hres|]. apply (Hsucc Hres).
Defined.

(** C10. When the timer count is at [MAX_TIMERS], [addTimer] returns
    false and leaves the controller as it was, whatever the enabled flags
    of the counted slots: the capacity check comes before the implicit
    cancellation, so an enabled timer of the same relay stays. [cancelTimer]
    never changes the count: when it finds a timer it clears the enabled
    flag of that slot only. The timer sweep sets the count to the number
    of counted timers that are still enabled. *)
Theorem addTimer_at_capacity (st : ScheduleController.t) :
  (∀ now relayId durationSeconds turnOffWhenExpired,
     (MAX_TIMERS ≤ timerCount st)%nat →
     addTimer now relayId durationSeconds turnOffWhenExpired st = (false, st)) ∧
  (∀ relayId, timerCount (cancelTimer relayId st).2 = timerCount st) ∧
  (∀ relayId, (timerCount st ≤ length (timers st))%nat →
     (cancelTimer relayId st).1 = true →
     ∃ k x, timers st !! k = Some x ∧ (k < timerCount st)%nat
            ∧ timers (cancelTimer relayId st).2
              = <[k := Timer.set_enabled false x]> (timers st)) ∧
  (∀ now relayCallback w, (timerCount st ≤ length (timers st))%nat →
     timerCount (updateTimers now relayCallback st w).1
     = length (filter (λ x, survives now x = true) (counted st))).
Proof.
  split; [|split; [|split]].
  - intros now r dur flag Hfull. unfold addTimer.
    by rewrite (proj2 (Nat.leb_le _ _) Hfull).
  - intros r. unfold cancelTimer.
    by destruct (findTimerIndex r st >=? 0).
  - intros r Hn Hres.
    destruct (cancelTimer_spec r st Hn) as (_ & _ & _ & _ & _ & Hfound).
    destruct (Hfound Hres) as (k & x & Hx & Hk & _ & _ & Ht).
    by exists k, x.
  - intros now cb w Hn. by apply updateTimers_spec.
Qed.

Lemma addTimer_at_capacity_witness :
  (MAX_TIMERS ≤ timerCount full_with_gap)%nat ∧
  length (filter (λ x, Timer.enabled x = true) (counted full_with_gap)) = 4%nat ∧
  addTimer 1000 1 5 false full_with_gap = (false, full_with_gap).
Proof.
  assert (Hfull : (MAX_TIMERS ≤ timerCount full_with_gap)%nat) by (vm_compute; lia).
  split; [exact Hfull|]. split; [reflexivity|].
  apply (addTimer_at_capacity full_with_gap). exact Hfull.
Defined.

(** Five counted slots, four of them enabled: a timer for relay 0 is
    refused until a sweep has compacted the array. *)
Example full_with_gap_run :
  timerCount full_with_gap = 5%nat ∧
  (addTimer 1000 0 5 true full_with_gap).1 = false ∧
  timerCount (updateTimers 1000 None full_with_gap quiet).1 = 4%nat ∧
  (addTimer 1000 0 5 true (updateTimers 1000 None full_with_gap quiet).1).1 = true.
Proof. vm_compute. done. Qed.
End Timers.

(** ** Rule and schedule management *)

Section ShiftDown.
Context {A : Type}.

Lemma shift_loop_lookup (m i : nat) (arr : list A) :
  (i + m < length arr)%nat →
  length (for_loop m i
            (λ i arr, match arr !! S i with Some x => <[i := x]> arr | None => arr end)
            arr) = length arr
  ∧ ∀ j, for_loop m i
           (λ i arr, match arr !! S i with Some x => <[i := x]> arr | None => arr end)
           arr !! j
         = if decide (i ≤ j < i + m)%nat then arr !! S j else arr !! j.
Proof.
  induction m as [|m IH]; intros Hm.
  - simpl. split; [done|]. intros j. case_decide; [lia|done].
  - rewrite for_loop_last. destruct IH as [Hlen Hlook]; [lia|].
    rewrite Hlook. rewrite decide_False by lia.
    destruct (lookup_lt_is_Some_2 arr (S (i + m))) as [x Hx]; [lia|].
    rewrite Hx. split.
    + by rewrite length_insert.
    + intros j. destruct (decide (j = i + m)%nat) as [->|Hne].
      * rewrite list_lookup_insert_eq by lia. by rewrite decide_True by lia.
      * rewrite list_lookup_insert_ne by done. rewrite Hlook.
        repeat case_decide; try done; lia.
Qed.

(** Removing slot [index] of [count] counted slots: the slots after it
    move down by one, in order. *)
Lemma shift_down_spec (index count : nat) (arr : list A) :
  (index < count)%nat → (count ≤ length arr)%nat →
  length (shift_down index count arr) = length arr
  ∧ take (count - 1) (shift_down index count arr) = delete index (take count arr).
Proof.
  intros Hi Hc. unfold shift_down, for_range.
  destruct (shift_loop_lookup (count - 1 - index) index arr) as [Hlen Hlook]; [lia|].
  split; [done|].
  apply list_eq. intros j.
  rewrite lookup_take, list_lookup_delete.
  case_decide as Hj.
  - rewrite Hlook. repeat case_decide; try lia.
    + rewrite lookup_take_lt by lia. done.
    + rewrite lookup_take_lt by lia. done.
  - symmetry. case_decide; [lia|]. apply lookup_take_ge. lia.
Qed.
End ShiftDown.

Section Management.

(** C9. [addRule] and [addSchedule] return false and leave the controller
    as it was when the collection is at capacity or the relay id is out of
    range (for [addSchedule] also when an hour exceeds 23 or a minute
    exceeds 59). [removeRule] and [removeSchedule] return false on an
    index at or beyond the count (changing nothing), and otherwise move
    every later entry down by one, in order, and decrement the count.
    [setRuleEnabled] and [setScheduleEnabled] do nothing, and [getRule]
    and [getSchedule] return null, on an index at or beyond the count. *)
Theorem management_failure_modes :
  (∀ st relayId triggerType action threshold,
     (MAX_AUTOMATION_RULES ≤ AutomationController.ruleCount st)%nat
     ∨ RELAY_COUNT <= relayId →
     AutomationController.addRule relayId triggerType action threshold st = (false, st)) ∧
  (∀ st relayId onHour onMin offHour offMin days,
     (MAX_SCHEDULES ≤ ScheduleController.scheduleCount st)%nat
     ∨ RELAY_COUNT <= relayId ∨ 23 < onHour ∨ 23 < offHour ∨ 59 < onMin ∨ 59 < offMin →
     ScheduleController.addSchedule relayId onHour onMin offHour offMin days st
     = (false, st)) ∧
  (∀ st index, (AutomationController.ruleCount st ≤ index)%nat →
     AutomationController.removeRule index st = (false, st)
     ∧ (∀ enabled, AutomationController.setRuleEnabled index enabled st = st)
     ∧ AutomationController.getRule index st = None) ∧
  (∀ st index, (ScheduleController.scheduleCount st ≤ index)%nat →
     ScheduleController.removeSchedule index st = (false, st)
     ∧ (∀ enabled, ScheduleController.setScheduleEnabled index enabled st = st)
     ∧ ScheduleController.getSchedule index st = None) ∧
  (∀ st index, (index < AutomationController.ruleCount st)%nat →
     (AutomationController.ruleCount st ≤ length (AutomationController.rules st))%nat →
     (AutomationController.removeRule index st).1 = true
     ∧ AutomationController.stored (AutomationController.removeRule index st).2
       = delete index (AutomationController.stored st)
     ∧ AutomationController.ruleCount (AutomationController.removeRule index st).2
       = (AutomationController.ruleCount st - 1)%nat
     ∧ length (AutomationController.rules (AutomationController.removeRule index st).2)
       = length (AutomationController.rules st)) ∧
  (∀ st index, (index < ScheduleController.scheduleCount st)%nat →
     (ScheduleController.scheduleCount st ≤ length (ScheduleController.schedules st))%nat →
     (ScheduleController.removeSchedule index st).1 = true
     ∧ ScheduleController.stored (ScheduleController.removeSchedule index st).2
       = delete index (ScheduleController.stored st)
     ∧ ScheduleController.scheduleCount (ScheduleController.removeSchedule index st).2
       = (ScheduleController.scheduleCount st - 1)%nat
     ∧ length (ScheduleController.schedules (ScheduleController.removeSchedule index st).2)
       = length (ScheduleController.schedules st)).
Proof.
  split; [|split; [|split; [|split; [|split]]]].
  - intros st r tt a thr [Hfull|Hr]; unfold AutomationController.addRule.
    + by rewrite (proj2 (Nat.leb_le _ _) Hfull).
    + destruct (MAX_AUTOMATION_RULES <=? _)%nat; [done|].
      by rewrite (proj2 (Z.leb_le _ _) Hr).
  - intros st r h1 m1 h2 m2 d Hbad. unfold ScheduleController.addSchedule.
    destruct (MAX_SCHEDULES <=? _)%nat eqn:Hcap; [done|].
    apply Nat.leb_gt in Hcap.
    assert (Hcond : (RELAY_COUNT <=? r) || (23 <? h1) || (23 <? h2)
                    || (59 <? m1) || (59 <? m2) = true).
    { rewrite !orb_true_iff, Z.leb_le, !Z.ltb_lt. lia. }
    by rewrite Hcond.
  - intros st i Hi.
    unfold AutomationController.removeRule, AutomationController.setRuleEnabled,
      AutomationController.getRule.
    by rewrite (proj2 (Nat.leb_le _ _) Hi), (proj2 (Nat.ltb_ge _ _) Hi).
  - intros st i Hi.
    unfold ScheduleController.removeSchedule, ScheduleController.setScheduleEnabled,
      ScheduleController.getSchedule.
    by rewrite (proj2 (Nat.leb_le _ _) Hi), (proj2 (Nat.ltb_ge _ _) Hi).
  - intros st i Hi Hlen. unfold AutomationController.removeRule.
    rewrite (proj2 (Nat.leb_gt _ _) Hi). simpl.
    destruct (shift_down_spec i (AutomationController.ruleCount st)
                (AutomationController.rules st) Hi Hlen) as [Hl Ht].
    by unfold AutomationController.stored.
  - intros st i Hi Hlen. unfold ScheduleController.removeSchedule.
    rewrite (proj2 (Nat.leb_gt _ _) Hi). simpl.
    destruct (shift_down_spec i (ScheduleController.scheduleCount st)
                (ScheduleController.schedules st) Hi Hlen) as [Hl Ht].
    by unfold ScheduleController.stored.
Qed.

Lemma management_failure_modes_witness :
  (1 < AutomationController.ruleCount StoreSpec.three_rules)%nat ∧
  (AutomationController.ruleCount StoreSpec.three_rules
   ≤ length (AutomationController.rules StoreSpec.three_rules))%nat ∧
  AutomationController.stored (AutomationController.removeRule 1 StoreSpec.three_rules).2
  = delete 1%nat (AutomationController.stored StoreSpec.three_rules).
Proof.
  assert (H1 : (1 < AutomationController.ruleCount StoreSpec.three_rules)%nat)
    by (vm_compute; lia).
  assert (H2 : (AutomationController.ruleCount StoreSpec.three_rules
                ≤ length (AutomationController.rules StoreSpec.three_rules))%nat)
    by (vm_compute; lia).
  split; [exact H1|]. split; [exact H2|].
  apply management_failure_modes; [exact H1|exact H2].
Defined.

(** Removing the middle one of three rules. *)
Example remove_middle_rule :
  AutomationRule.relayId
    <$> AutomationController.stored (AutomationController.removeRule 1 StoreSpec.three_rules).2
  = [2; 4].
Proof. reflexivity. Qed.

(** With [threshold + 10] narrowed to [uint8_t], the rule [addRule]
    creates has [threshold <= thresholdHigh] exactly for thresholds up to
    245. *)
Lemma addRule_thresholdHigh st relayId triggerType action threshold :
  is_uint8 threshold →
  length (AutomationController.rules st) = MAX_AUTOMATION_RULES →
  (AutomationController.addRule relayId triggerType action threshold st).1 = true →
  ∃ rule,
    AutomationController.stored
      (AutomationController.addRule relayId triggerType action threshold st).2
      !! AutomationController.ruleCount st = Some rule
    ∧ AutomationRule.threshold rule = threshold
    ∧ AutomationRule.thresholdHigh rule = uint8 (threshold + 10)
    ∧ (AutomationRule.threshold rule <= AutomationRule.thresholdHigh rule
       ↔ threshold <= 245).
Proof.
  intros Hth Hlen. unfold AutomationController.addRule, AutomationController.stored.
  destruct (MAX_AUTOMATION_RULES <=? _)%nat eqn:Hcap; [done|].
  destruct (RELAY_COUNT <=? relayId); [done|]. simpl. intros _.
  apply Nat.leb_gt in Hcap.
  eexists. split.
  - rewrite lookup_take_lt by lia. apply list_lookup_insert_eq. lia.
  - simpl. repeat split; unfold is_uint8, uint8 in *;
      intros; Z.div_mod_to_equations; lia.
Qed.

(** C8, at the failing input: a range rule added with threshold 250 is
    stored with upper threshold 4, below its threshold. *)
Theorem addRule_range_overflow :
  (AutomationController.addRule 0 TEMP_RANGE TURN_ON 250 AutomationController.init).1
    = true ∧
  AutomationController.stored
    (AutomationController.addRule 0 TEMP_RANGE TURN_ON 250 AutomationController.init).2
    = [AutomationRule.mk 0 TEMP_RANGE TURN_ON 250 4 true false 2 0] ∧
  AutomationRule.thresholdHigh (AutomationRule.mk 0 TEMP_RANGE TURN_ON 250 4 true false 2 0)
  < AutomationRule.threshold (AutomationRule.mk 0 TEMP_RANGE TURN_ON 250 4 true false 2 0).
Proof.
  split; [reflexivity|]. split; [reflexivity|]. simpl. lia.
Qed.
End Management.

(** ** Persistence *)

Section RecordsFacts.
Context {A : Type} (sizeof : nat) (to_bytes : A → list Z) (of_bytes : list Z → A).
Context (wf_rec : A → Prop).
Hypothesis to_bytes_length : ∀ a, length (to_bytes a) = sizeof.
Hypothesis of_to_bytes : ∀ a, wf_rec a → of_bytes (to_bytes a) = a.

Lemma write_records_spec (count : nat) (arr : list A) (file : list Z) :
  (count ≤ length arr)%nat →
  write_records to_bytes count arr file = file ++ concat (to_bytes <$> take count arr).
Proof.
  unfold write_records. induction count as [|count IH]; intros Hc.
  - rewrite for_range_nil by lia. by rewrite take_0, app_nil_r.
  - rewrite for_range_last, IH by lia.
    destruct (lookup_lt_is_Some_2 arr count) as [r Hr]; [lia|].
    rewrite Hr, (take_S_r _ _ _ Hr), fmap_app, concat_app. simpl.
    by rewrite app_nil_r, app_assoc.
Qed.

Lemma read_thread (news olds : list A) (tail : list Z) :
  length olds = length news → Forall wf_rec news →
  thread (read_record sizeof to_bytes of_bytes) olds
    (concat (to_bytes <$> news) ++ tail) = (news, tail).
Proof using to_bytes_length of_to_bytes.
  revert olds. induction news as [|n news IH]; intros olds Hlen Hwf.
  - by destruct olds.
  - destruct olds as [|o olds]; [done|].
    apply Forall_cons in Hwf as [Hn Hwf].
    simpl. unfold read_record at 1, SD.read_buf.
    rewrite <- app_assoc.
    rewrite take_app_length' by (by rewrite to_bytes_length).
    rewrite drop_app_length' by (by rewrite to_bytes_length).
    rewrite (drop_ge (to_bytes o)) by (rewrite !to_bytes_length; lia).
    rewrite app_nil_r, of_to_bytes by done.
    rewrite IH; [done| |done]. simpl in Hlen. lia.
Qed.

(** Reading back what [write_records] wrote restores the records. *)
Lemma read_records_spec (count : nat) (arr news : list A) (tail : list Z) :
  (count ≤ length arr)%nat → length news = count → Forall wf_rec news →
  read_records sizeof to_bytes of_bytes count arr (concat (to_bytes <$> news) ++ tail)
  = (news ++ drop count arr, tail).
Proof using to_bytes_length of_to_bytes.
  intros Hc Hn Hwf. unfold read_records. rewrite sweep_thread by done.
  rewrite read_thread; [done| |done].
  rewrite length_take. lia.
Qed.

Lemma read_records_length (count : nat) (arr : list A) (file : list Z) :
  length (read_records sizeof to_bytes of_bytes count arr file).1 = length arr.
Proof. apply sweep_length. Qed.
End RecordsFacts.

Section Codecs.

Lemma of_le32_le32 (z : Z) : is_uint32 z →
  of_le32 (z mod 256) ((z / 256) mod 256) ((z / 65536) mod 256) ((z / 16777216) mod 256) = z.
Proof. unfold is_uint32, of_le32. intros Hz. Z.div_mod_to_equations. lia. Qed.

Lemma le32_bytes (z : Z) : Forall is_uint8 (le32 z).
Proof.
  unfold le32. repeat (apply Forall_cons; split); try apply Forall_nil_2;
    apply Z.mod_pos_bound; lia.
Qed.

Lemma bool_of_to_byte (b : bool) : bool_of_byte (bool_to_byte b) = b.
Proof. by destruct b. Qed.

Lemma bool_byte (b : bool) : is_uint8 (bool_to_byte b).
Proof. unfold is_uint8. destruct b; simpl; lia. Qed.

Lemma TriggerType_of_to_byte (x : TriggerType) :
  TriggerType_of_byte (TriggerType_to_byte x) = x.
Proof.
  destruct x as [| | | | | |n]; try reflexivity.
  unfold TriggerType_to_byte, TriggerType_of_byte.
  repeat match goal with
         | |- context [?a =? ?b] => destruct (Z.eqb_spec a b); [lia|]
         end.
  f_equal. lia.
Qed.

Lemma ActionType_of_to_byte (x : ActionType) :
  ActionType_of_byte (ActionType_to_byte x) = x.
Proof.
  destruct x as [| | |n]; try reflexivity.
  unfold ActionType_to_byte, ActionType_of_byte.
  repeat match goal with
         | |- context [?a =? ?b] => destruct (Z.eqb_spec a b); [lia|]
         end.
  f_equal. lia.
Qed.

Lemma AutomationRule_to_bytes_length (r : AutomationRule.t) :
  length (AutomationRule.to_bytes r) = AutomationRule.sizeof.
Proof. reflexivity. Qed.

Lemma AutomationRule_of_to_bytes (r : AutomationRule.t) :
  AutomationRule.wf r → AutomationRule.of_bytes (AutomationRule.to_bytes r) = r.
Proof.
  intros (_ & _ & _ & _ & Ht & _). destruct r. simpl in *.
  unfold AutomationRule.of_bytes, AutomationRule.to_bytes, byte_at. simpl.
  by rewrite TriggerType_of_to_byte, ActionType_of_to_byte, !bool_of_to_byte,
    of_le32_le32.
Qed.

Lemma AutomationRule_bytes (r : AutomationRule.t) :
  AutomationRule.wf r → Forall is_uint8 (AutomationRule.to_bytes r).
Proof.
  intros (Hr & Hth & Hhi & Hhy & _ & Htt & Hact).
  unfold AutomationRule.to_bytes. apply Forall_app. split; [|apply le32_bytes].
  repeat (apply Forall_cons; split); try apply Forall_nil_2; try done;
    try apply bool_byte.
  - unfold is_uint8. destruct (AutomationRule.triggerType r) as [| | | | | |n] eqn:E;
      simpl; try lia. specialize (Htt n eq_refl). lia.
  - unfold is_uint8. destruct (AutomationRule.action r) as [| | |n] eqn:E;
      simpl; try lia. specialize (Hact n eq_refl). lia.
Qed.

Lemma Schedule_to_bytes_length (x : Schedule.t) :
  length (Schedule.to_bytes x) = Schedule.sizeof.
Proof. reflexivity. Qed.

Lemma Schedule_of_to_bytes (x : Schedule.t) :
  Schedule.wf x → Schedule.of_bytes (Schedule.to_bytes x) = x.
Proof.
  intros _. destruct x.
  unfold Schedule.of_bytes, Schedule.to_bytes, byte_at. simpl.
  by rewrite !bool_of_to_byte.
Qed.

Lemma Schedule_bytes (x : Schedule.t) :
  Schedule.wf x → Forall is_uint8 (Schedule.to_bytes x).
Proof.
  intros (H1 & H2 & H3 & H4 & H5 & H6). unfold Schedule.to_bytes.
  repeat (apply Forall_cons; split); try apply Forall_nil_2; try done;
    apply bool_byte.
Qed.
End Codecs.

Section LoadFailure.
Import StoreSpec.

(** The claim C6 as stated fails: with the file missing, and with a file
    that cannot be opened, [loadFromSD] returns false and the rule (the
    schedule) held in memory is still counted. *)
Lemma failed_load_keeps_entries :
  (SD.exists_ empty_card FILE_AUTOMATION = false
   ∧ (AutomationController.loadFromSD one_rule empty_card).1 = false
   ∧ AutomationController.ruleCount
       (AutomationController.loadFromSD one_rule empty_card).2 = 1%nat) ∧
  (SD.exists_ offline_card FILE_AUTOMATION = true
   ∧ SD.open_read offline_card FILE_AUTOMATION = None
   ∧ (AutomationController.loadFromSD one_rule offline_card).1 = false
   ∧ AutomationController.ruleCount
       (AutomationController.loadFromSD one_rule offline_card).2 = 1%nat) ∧
  (SD.exists_ empty_card FILE_SCHEDULES = false
   ∧ (ScheduleController.loadFromSD one_schedule empty_card).1 = false
   ∧ ScheduleController.scheduleCount
       (ScheduleController.loadFromSD one_schedule empty_card).2 = 1%nat) ∧
  (SD.exists_ offline_card FILE_SCHEDULES = true
   ∧ SD.open_read offline_card FILE_SCHEDULES = None
   ∧ (ScheduleController.loadFromSD one_schedule offline_card).1 = false
   ∧ ScheduleController.scheduleCount
       (ScheduleController.loadFromSD one_schedule offline_card).2 = 1%nat).
Proof. vm_compute. done. Qed.

(** C6, amended. [loadFromSD] fails in three cases only. When the file is
    missing or cannot be opened it returns failure and leaves the
    collection in memory exactly as it was (it is not reset). When the
    count byte read exceeds the capacity (an empty file reads as 255) it
    returns failure with the logical count reset to zero and every array
    slot as it was: no record is read. In every case the arrays keep
    their size. *)
Theorem loadFromSD_failure :
  (∀ st sd,
     SD.exists_ sd FILE_AUTOMATION = false ∨ SD.open_read sd FILE_AUTOMATION = None →
     AutomationController.loadFromSD st sd = (false, st)) ∧
  (∀ st sd file,
     SD.exists_ sd FILE_AUTOMATION = true → SD.open_read sd FILE_AUTOMATION = Some file →
     (MAX_AUTOMATION_RULES < Z.to_nat (uint8 (SD.read file).1))%nat →
     AutomationController.loadFromSD st sd
     = (false, AutomationController.set_ruleCount 0 st)) ∧
  (∀ st sd, (AutomationController.loadFromSD st sd).1 = false →
     SD.exists_ sd FILE_AUTOMATION = false ∨ SD.open_read sd FILE_AUTOMATION = None
     ∨ ∃ file, SD.open_read sd FILE_AUTOMATION = Some file
               ∧ (MAX_AUTOMATION_RULES < Z.to_nat (uint8 (SD.read file).1))%nat) ∧
  (∀ st sd,
     length (AutomationController.rules (AutomationController.loadFromSD st sd).2)
     = length (AutomationController.rules st)) ∧
  (∀ st sd,
     SD.exists_ sd FILE_SCHEDULES = false ∨ SD.open_read sd FILE_SCHEDULES = None →
     ScheduleController.loadFromSD st sd = (false, st)) ∧
  (∀ st sd file,
     SD.exists_ sd FILE_SCHEDULES = true → SD.open_read sd FILE_SCHEDULES = Some file →
     (MAX_SCHEDULES < Z.to_nat (uint8 (SD.read file).1))%nat →
     ScheduleController.loadFromSD st sd
     = (false, ScheduleController.set_scheduleCount 0 st)) ∧
  (∀ st sd, (ScheduleController.loadFromSD st sd).1 = false →
     SD.exists_ sd FILE_SCHEDULES = false ∨ SD.open_read sd FILE_SCHEDULES = None
     ∨ ∃ file, SD.open_read sd FILE_SCHEDULES = Some file
               ∧ (MAX_SCHEDULES < Z.to_nat (uint8 (SD.read file).1))%nat) ∧
  (∀ st sd,
     length (ScheduleController.schedules (ScheduleController.loadFromSD st sd).2)
     = length (ScheduleController.schedules st)).
Proof.
  repeat apply conj.
  - intros st sd [Hmiss|Hopen]; unfold AutomationController.loadFromSD.
    + by rewrite Hmiss.
    + destruct (negb (SD.exists_ sd FILE_AUTOMATION)); [done|]. by rewrite Hopen.
  - intros st sd file Hex Hopen Hbig. unfold AutomationController.loadFromSD.
    rewrite Hex, Hopen. simpl. destruct (SD.read file) as [b rest]. simpl in *.
    by rewrite (proj2 (Nat.ltb_lt _ _) Hbig).
  - intros st sd. unfold AutomationController.loadFromSD.
    destruct (SD.exists_ sd FILE_AUTOMATION); simpl; [|by left].
    destruct (SD.open_read sd FILE_AUTOMATION) as [file|]; [|by right; left].
    destruct (SD.read file) as [b rest] eqn:Hread. simpl.
    destruct (MAX_AUTOMATION_RULES <? Z.to_nat (uint8 b))%nat eqn:Hbig.
    + intros _. right. right. exists file. rewrite Hread. simpl.
      split; [done|]. by apply Nat.ltb_lt.
    + by destruct (read_records _ _ _ _ _ _).
  - intros st sd. unfold AutomationController.loadFromSD.
    destruct (negb (SD.exists_ sd FILE_AUTOMATION)); [done|].
    destruct (SD.open_read sd FILE_AUTOMATION) as [file|]; [|done].
    destruct (SD.read file) as [b rest]. simpl.
    destruct (MAX_AUTOMATION_RULES <? Z.to_nat (uint8 b))%nat; [done|].
    pose proof (read_records_length AutomationRule.sizeof AutomationRule.to_bytes
                  AutomationRule.of_bytes (Z.to_nat (uint8 b))
                  (AutomationController.rules st) rest) as Hlen.
    by destruct (read_records _ _ _ _ _ _).
  - intros st sd [Hmiss|Hopen]; unfold ScheduleController.loadFromSD.
    + by rewrite Hmiss.
    + destruct (negb (SD.exists_ sd FILE_SCHEDULES)); [done|]. by rewrite Hopen.
  - intros st sd file Hex Hopen Hbig. unfold ScheduleController.loadFromSD.
    rewrite Hex, Hopen. simpl. destruct (SD.read file) as [b rest]. simpl in *.
    by rewrite (proj2 (Nat.ltb_lt _ _) Hbig).
  - intros st sd. unfold ScheduleController.loadFromSD.
    destruct (SD.exists_ sd FILE_SCHEDULES); simpl; [|by left].
    destruct (SD.open_read sd FILE_SCHEDULES) as [file|]; [|by right; left].
    destruct (SD.read file) as [b rest] eqn:Hread. simpl.
    destruct (MAX_SCHEDULES <? Z.to_nat (uint8 b))%nat eqn:Hbig.
    + intros _. right. right. exists file. rewrite Hread. simpl.
      split; [done|]. by apply Nat.ltb_lt.
    + by destruct (read_records _ _ _ _ _ _).
  - intros st sd. unfold ScheduleController.loadFromSD.
    destruct (negb (SD.exists_ sd FILE_SCHEDULES)); [done|].
    destruct (SD.open_read sd FILE_SCHEDULES) as [file|]; [|done].
    destruct (SD.read file) as [b rest]. simpl.
    destruct (MAX_SCHEDULES <? Z.to_nat (uint8 b))%nat; [done|].
    pose proof (read_records_length Schedule.sizeof Schedule.to_bytes
                  Schedule.of_bytes (Z.to_nat (uint8 b))
                  (ScheduleController.schedules st) rest) as Hlen.
    by destruct (read_records _ _ _ _ _ _).
Qed.

Lemma loadFromSD_failure_witness :
  SD.exists_ overfull_card FILE_AUTOMATION = true ∧
  SD.open_read overfull_card FILE_AUTOMATION = Some overfull_rule_file ∧
  (MAX_AUTOMATION_RULES < Z.to_nat (uint8 (SD.read overfull_rule_file).1))%nat ∧
  AutomationController.loadFromSD one_rule overfull_card
  = (false, AutomationController.set_ruleCount 0 one_rule).
Proof.
  assert (H1 : SD.exists_ overfull_card FILE_AUTOMATION = true) by reflexivity.
  assert (H2 : SD.open_read overfull_card FILE_AUTOMATION = Some overfull_rule_file)
    by reflexivity.
  assert (H3 : (MAX_AUTOMATION_RULES
                < Z.to_nat (uint8 (SD.read overfull_rule_file).1))%nat)
    by (vm_compute; lia).
  split; [exact H1|]. split; [exact H2|]. split; [exact H3|].
  exact (proj1 (proj2 loadFromSD_failure) one_rule overfull_card _ H1 H2 H3).
Defined.

(** An empty file: [file.read()] returns -1, the count reads as 255. *)
Example load_empty_file :
  AutomationController.loadFromSD one_rule
    (SD.mk {[ FILE_AUTOMATION := [] ]} {[ "data" ]} true)
  = (false, AutomationController.set_ruleCount 0 one_rule).
Proof. reflexivity. Qed.
End LoadFailure.

Section RoundTrip.
Import StoreSpec.

(** After the removal of an old file and the creation of the directory,
    a file opened for writing on a card that is ready starts empty. *)
Lemma SD_open_fresh (sd : SD.card) (path : string) :
  SD.ready sd = true →
  let sd1 := if SD.exists_ sd path then SD.remove sd path else sd in
  let sd2 := if negb (SD.exists_ sd1 "data") then SD.mkdir sd1 "data" else sd1 in
  SD.open_write sd2 path = Some [] ∧ SD.ready sd2 = true.
Proof.
  intros Hready sd1 sd2.
  assert (Hnone : SD.files sd1 !! path = None).
  { subst sd1. destruct (SD.exists_ sd path) eqn:Hex.
    - simpl. apply lookup_delete_eq.
    - unfold SD.exists_ in Hex. apply orb_false_iff in Hex as [Hex _].
      apply bool_decide_eq_false in Hex.
      destruct (SD.files sd !! path) eqn:E; [|done]. exfalso. apply Hex. eauto. }
  assert (Hready1 : SD.ready sd1 = true).
  { subst sd1. by destruct (SD.exists_ sd path). }
  assert (Hfiles2 : SD.files sd2 = SD.files sd1 ∧ SD.ready sd2 = true).
  { subst sd2. by destruct (negb (SD.exists_ sd1 "data")). }
  destruct Hfiles2 as [Hf2 Hr2]. split; [|done].
  unfold SD.open_write. by rewrite Hr2, Hf2, Hnone.
Qed.

Lemma SD_read_back (sd : SD.card) (path : string) (content : list Z) :
  SD.ready sd = true →
  SD.exists_ (SD.close_write sd path content) path = true
  ∧ SD.open_read (SD.close_write sd path content) path = Some content.
Proof.
  intros Hready. unfold SD.exists_, SD.open_read, SD.close_write. simpl.
  rewrite Hready, lookup_insert_eq. split; [|done].
  rewrite bool_decide_true by eauto. done.
Qed.

Lemma saveToSD_rules st sd :
  SD.ready sd = true →
  (AutomationController.ruleCount st ≤ length (AutomationController.rules st))%nat →
  ∃ sd2, SD.ready sd2 = true ∧
    AutomationController.saveToSD st sd
    = (true, SD.close_write sd2 FILE_AUTOMATION
               (Z.of_nat (AutomationController.ruleCount st)
                :: concat (AutomationRule.to_bytes <$> AutomationController.stored st))).
Proof.
  intros Hready Hn. unfold AutomationController.saveToSD.
  destruct (SD_open_fresh sd FILE_AUTOMATION Hready) as [Hopen Hr2].
  simpl in Hopen, Hr2. eexists. split; [exact Hr2|].
  rewrite Hopen. by rewrite write_records_spec by done.
Qed.

Lemma saveToSD_schedules st sd :
  SD.ready sd = true →
  (ScheduleController.scheduleCount st ≤ length (ScheduleController.schedules st))%nat →
  ∃ sd2, SD.ready sd2 = true ∧
    ScheduleController.saveToSD st sd
    = (true, SD.close_write sd2 FILE_SCHEDULES
               (Z.of_nat (ScheduleController.scheduleCount st)
                :: concat (Schedule.to_bytes <$> ScheduleController.stored st))).
Proof.
  intros Hready Hn. unfold ScheduleController.saveToSD.
  destruct (SD_open_fresh sd FILE_SCHEDULES Hready) as [Hopen Hr2].
  simpl in Hopen, Hr2. eexists. split; [exact Hr2|].
  rewrite Hopen. by rewrite write_records_spec by done.
Qed.

Lemma count_byte (n : nat) : (n < 256)%nat → Z.to_nat (uint8 (Z.of_nat n)) = n.
Proof. intros Hn. unfold uint8. rewrite Z.mod_small by lia. lia. Qed.

(** C7. For every sequence of rules (of schedules) in memory, of any
    length from zero to the capacity, [saveToSD] on a card that is ready
    succeeds and writes the count byte followed by the records, and
    [loadFromSD] from the resulting card, into any controller, succeeds
    and leaves the same count and, slot by slot, records equal to the
    ones saved. *)
Theorem save_load_roundtrip :
  (∀ st st0 sd,
     AutomationController.wf st →
     Forall AutomationRule.wf (AutomationController.stored st) →
     length (AutomationController.rules st0) = MAX_AUTOMATION_RULES →
     SD.ready sd = true →
     (AutomationController.saveToSD st sd).1 = true
     ∧ (∃ file, SD.open_read (AutomationController.saveToSD st sd).2 FILE_AUTOMATION
                = Some file
                ∧ SD.wf_file file
                ∧ length file
                  = (1 + AutomationRule.sizeof * AutomationController.ruleCount st)%nat)
     ∧ (AutomationController.loadFromSD st0 (AutomationController.saveToSD st sd).2).1
       = true
     ∧ AutomationController.ruleCount
         (AutomationController.loadFromSD st0 (AutomationController.saveToSD st sd).2).2
       = AutomationController.ruleCount st
     ∧ AutomationController.stored
         (AutomationController.loadFromSD st0 (AutomationController.saveToSD st sd).2).2
       = AutomationController.stored st) ∧
  (∀ st st0 sd,
     ScheduleController.wf st →
     Forall Schedule.wf (ScheduleController.stored st) →
     length (ScheduleController.schedules st0) = MAX_SCHEDULES →
     SD.ready sd = true →
     (ScheduleController.saveToSD st sd).1 = true
     ∧ (∃ file, SD.open_read (ScheduleController.saveToSD st sd).2 FILE_SCHEDULES
                = Some file
                ∧ SD.wf_file file
                ∧ length file
                  = (1 + Schedule.sizeof * ScheduleController.scheduleCount st)%nat)
     ∧ (ScheduleController.loadFromSD st0 (ScheduleController.saveToSD st sd).2).1 = true
     ∧ ScheduleController.scheduleCount
         (ScheduleController.loadFromSD st0 (ScheduleController.saveToSD st sd).2).2
       = ScheduleController.scheduleCount st
     ∧ ScheduleController.stored
         (ScheduleController.loadFromSD st0 (ScheduleController.saveToSD st sd).2).2
       = ScheduleController.stored st).
Proof.
  split.
  - intros st st0 sd [Hlen Hn] Hwf Hlen0 Hready.
    destruct (saveToSD_rules st sd Hready) as (sd2 & Hr2 & Hsave); [lia|].
    rewrite Hsave. simpl.
    destruct (SD_read_back sd2 FILE_AUTOMATION
                (Z.of_nat (AutomationController.ruleCount st)
                 :: concat (AutomationRule.to_bytes <$> AutomationController.stored st))
                Hr2) as [Hex Hopen].
    assert (Hstored : length (AutomationController.stored st)
                      = AutomationController.ruleCount st).
    { unfold AutomationController.stored. rewrite length_take. lia. }
    split; [done|]. split.
    { eexists. split; [exact Hopen|]. split.
      - apply Forall_cons. split; [unfold is_uint8, MAX_AUTOMATION_RULES in *; lia|].
        apply Forall_concat, Forall_fmap.
        eapply Forall_impl; [exact Hwf|]. intros r Hr. by apply AutomationRule_bytes.
      - simpl. f_equal. rewrite <- Hstored.
        clear. induction (AutomationController.stored st) as [|r l IH]; [done|].
        rewrite fmap_cons, concat_cons, length_app, IH. simpl. lia. }
    unfold AutomationController.loadFromSD. rewrite Hex, Hopen. simpl.
    rewrite count_byte by (unfold MAX_AUTOMATION_RULES in *; lia).
    rewrite (proj2 (Nat.ltb_ge _ _)) by lia.
    rewrite <- (app_nil_r (concat _)).
    rewrite (read_records_spec AutomationRule.sizeof AutomationRule.to_bytes
               AutomationRule.of_bytes AutomationRule.wf
               AutomationRule_to_bytes_length AutomationRule_of_to_bytes)
      by (done || lia).
    simpl. split; [done|]. split; [done|].
    unfold AutomationController.stored at 1. simpl.
    by rewrite take_app_length'.
  - intros st st0 sd (Hlen & Hn & _) Hwf Hlen0 Hready.
    destruct (saveToSD_schedules st sd Hready) as (sd2 & Hr2 & Hsave); [lia|].
    rewrite Hsave. simpl.
    destruct (SD_read_back sd2 FILE_SCHEDULES
                (Z.of_nat (ScheduleController.scheduleCount st)
                 :: concat (Schedule.to_bytes <$> ScheduleController.stored st))
                Hr2) as [Hex Hopen].
    assert (Hstored : length (ScheduleController.stored st)
                      = ScheduleController.scheduleCount st).
    { unfold ScheduleController.stored. rewrite length_take. lia. }
    split; [done|]. split.
    { eexists. split; [exact Hopen|]. split.
      - apply Forall_cons. split; [unfold is_uint8, MAX_SCHEDULES in *; lia|].
        apply Forall_concat, Forall_fmap.
        eapply Forall_impl; [exact Hwf|]. intros r Hr. by apply Schedule_bytes.
      - simpl. f_equal. rewrite <- Hstored.
        clear. induction (ScheduleController.stored st) as [|r l IH]; [done|].
        rewrite fmap_cons, concat_cons, length_app, IH. simpl. lia. }
    unfold ScheduleController.loadFromSD. rewrite Hex, Hopen. simpl.
    rewrite count_byte by (unfold MAX_SCHEDULES in *; lia).
    rewrite (proj2 (Nat.ltb_ge _ _)) by lia.
    rewrite <- (app_nil_r (concat _)).
    rewrite (read_records_spec Schedule.sizeof Schedule.to_bytes
               Schedule.of_bytes Schedule.wf
               Schedule_to_bytes_length Schedule_of_to_bytes)
      by (done || lia).
    simpl. split; [done|]. split; [done|].
    unfold ScheduleController.stored at 1. simpl.
    by rewrite take_app_length'.
Qed.

Lemma save_load_roundtrip_witness :
  AutomationController.wf full_rules ∧
  Forall AutomationRule.wf (AutomationController.stored full_rules) ∧
  length (AutomationController.rules AutomationController.init) = MAX_AUTOMATION_RULES ∧
  SD.ready empty_card = true ∧
  AutomationController.ruleCount full_rules = MAX_AUTOMATION_RULES ∧
  AutomationController.stored
    (AutomationController.loadFromSD AutomationController.init
       (AutomationController.saveToSD full_rules empty_card).2).2
  = AutomationController.stored full_rules.
Proof.
  assert (H1 : AutomationController.wf full_rules) by (split; vm_compute; lia).
  assert (H2 : Forall AutomationRule.wf (AutomationController.stored full_rules)).
  { unfold AutomationController.stored, full_rules, three_rules, one_rule. simpl.
    repeat (apply Forall_cons; split); try apply Forall_nil_2;
      unfold AutomationRule.wf, is_uint8, is_uint32; simpl;
      repeat split; try (vm_compute; congruence); intros n Hn; discriminate Hn. }
  assert (H3 : length (AutomationController.rules AutomationController.init)
               = MAX_AUTOMATION_RULES) by reflexivity.
  assert (H4 : SD.ready empty_card = true) by reflexivity.
  split; [exact H1|]. split; [exact H2|]. split; [exact H3|]. split; [exact H4|].
  split; [reflexivity|].
  apply (proj1 save_load_roundtrip full_rules AutomationController.init empty_card
           H1 H2 H3 H4).
Defined.

(** The empty store and the full store of schedules, computed. *)
Example roundtrip_empty :
  AutomationController.loadFromSD one_rule
    (AutomationController.saveToSD AutomationController.init empty_card).2
  = (true, AutomationController.set_ruleCount 0 one_rule).
Proof. reflexivity. Qed.

Example roundtrip_three_schedules :
  ScheduleController.stored
    (ScheduleController.loadFromSD ScheduleController.init
       (ScheduleController.saveToSD three_schedules empty_card).2).2
  = ScheduleController.stored three_schedules.
Proof. reflexivity. Qed.
End RoundTrip.


(** * Further properties of the rule engine *)

Section RuleKinds.
Import AutomationRule AutomationController RuleSpec EngineSpec.

(** X1. For a threshold-low rule, [evaluateCondition] is
    [measurement <= threshold] while the rule is not triggered and
    [measurement <= threshold + hysteresis] once it is (the sum is taken in
    [int]: it does not wrap). A triggered rule is left alone, without any
    call, for every reading up to [threshold + hysteresis], those in the
    band above the threshold included; its flag is cleared only by a
    reading above [threshold + hysteresis], and, for an enabled rule, by
    every such reading, without any call. *)
Theorem threshold_low_hysteresis (rule : AutomationRule.t) (currentTemp : Z) :
  triggerType rule = TEMP_LOW →
  (currentlyTriggered rule = false →
     (evaluateCondition rule currentTemp = true ↔ currentTemp <= threshold rule)) ∧
  (currentlyTriggered rule = true →
     (evaluateCondition rule currentTemp = true
      ↔ currentTemp <= threshold rule + hysteresis rule)) ∧
  (currentlyTriggered rule = true →
     ∀ now cb w,
       (currentTemp <= threshold rule + hysteresis rule →
          evaluateRule now currentTemp cb rule w = (rule, w)) ∧
       (currentlyTriggered (evaluateRule now currentTemp cb rule w).1 = false →
          threshold rule + hysteresis rule < currentTemp) ∧
       (enabled rule = true → threshold rule + hysteresis rule < currentTemp →
          evaluateRule now currentTemp cb rule w = (set_currentlyTriggered false rule, w))).
Proof.
  intros Hkind.
  assert (Hoff : currentlyTriggered rule = false →
            (evaluateCondition rule currentTemp = true ↔ currentTemp <= threshold rule)).
  { intros Hf. unfold evaluateCondition. rewrite Hkind, Hf. apply Z.leb_le. }
  assert (Hon : currentlyTriggered rule = true →
            (evaluateCondition rule currentTemp = true
             ↔ currentTemp <= threshold rule + hysteresis rule)).
  { intros Ht. unfold evaluateCondition. rewrite Hkind, Ht. apply Z.leb_le. }
  split; [exact Hoff|]. split; [exact Hon|].
  intros Ht now cb w. specialize (Hon Ht).
  unfold evaluateRule. rewrite Ht.
  destruct (evaluateCondition rule currentTemp) eqn:Hc.
  - assert (currentTemp <= threshold rule + hysteresis rule) by by apply Hon.
    destruct (enabled rule); simpl; rewrite ?Ht;
      (split; [done | split; [intros; congruence | intros; lia]]).
  - assert (¬ currentTemp <= threshold rule + hysteresis rule).
    { intros Hle. apply Hon in Hle. congruence. }
    destruct (enabled rule); simpl; rewrite ?Ht;
      (split; [intros; lia | split; [intros; lia | intros; done]]).
Qed.

Lemma threshold_low_hysteresis_witness :
  triggerType low_rule = TEMP_LOW ∧ currentlyTriggered low_rule = true ∧
  27 <= threshold low_rule + hysteresis low_rule ∧
  evaluateRule 0 27 (Some store_state) low_rule quiet = (low_rule, quiet).
Proof.
  split; [reflexivity|]. split; [reflexivity|]. split; [vm_compute; congruence|].
  apply (threshold_low_hysteresis low_rule 27 eq_refl); [reflexivity|].
  vm_compute; congruence.
Defined.

(** X2. A rule whose trigger kind is none of threshold-high, threshold-low
    and range (manual-only, motion, light, or a byte without enumerator)
    never actuates: the loop body leaves the world as it is, whatever the
    reading, and an enabled rule of such a kind ends with its flag clear. *)
Theorem other_kinds_never_actuate (rule : AutomationRule.t) :
  triggerType rule ≠ TEMP_HIGH → triggerType rule ≠ TEMP_LOW →
  triggerType rule ≠ TEMP_RANGE →
  ∀ now currentTemp cb w,
    evaluateCondition rule currentTemp = false ∧
    (evaluateRule now currentTemp cb rule w).2 = w ∧
    (enabled rule = true →
       currentlyTriggered (evaluateRule now currentTemp cb rule w).1 = false) ∧
    same_config rule (evaluateRule now currentTemp cb rule w).1.
Proof.
  intros H1 H2 H3 now currentTemp cb w.
  assert (Hc : evaluateCondition rule currentTemp = false).
  { unfold evaluateCondition. by destruct (triggerType rule). }
  unfold evaluateRule. rewrite Hc. simpl.
  destruct (enabled rule) eqn:Hen, (currentlyTriggered rule) eqn:Ht; simpl;
    unfold same_config; simpl; rewrite ?Hen, ?Ht; by repeat split.
Qed.

Lemma other_kinds_never_actuate_witness :
  (evaluateRule 0 99 (Some store_state)
     (AutomationRule.mk 2 MANUAL_ONLY TURN_ON 28 38 true true 2 0) quiet).2 = quiet.
Proof.
  apply (other_kinds_never_actuate (AutomationRule.mk 2 MANUAL_ONLY TURN_ON 28 38 true true 2 0));
    discriminate.
Defined.
End RuleKinds.

Section EvaluatePass.
Import AutomationRule AutomationController RuleSpec EngineSpec.

Lemma evaluateRule_fst now currentTemp cb rule w :
  (evaluateRule now currentTemp cb rule w).1 = nextRule now currentTemp rule.
Proof.
  unfold nextRule. rewrite !evaluateRule_spec.
  by destruct (rising currentTemp rule), (falling currentTemp rule).
Qed.

Lemma nextRule_same_config now currentTemp rule :
  same_config rule (nextRule now currentTemp rule).
Proof.
  unfold nextRule. rewrite evaluateRule_spec. unfold same_config.
  by destruct (rising currentTemp rule), (falling currentTemp rule).
Qed.

(** The rule array after [evaluate]: the counted slots are stepped, each
    one by itself; the other slots are left alone. *)
Lemma evaluate_rules now currentTemp cb st w :
  automationEnabled st = true → (ruleCount st ≤ length (rules st))%nat →
  rules (evaluate now currentTemp cb st w).1
  = (nextRule now currentTemp <$> stored st) ++ drop (ruleCount st) (rules st).
Proof.
  intros Hen Hn. rewrite evaluate_enabled by done. simpl.
  rewrite sweep_thread by done. simpl. unfold stored.
  by rewrite (thread_map _ (nextRule now currentTemp))
    by (intros; apply evaluateRule_fst).
Qed.

(** X3. [evaluate] never changes the configuration of a rule: the count,
    the size of the array, the global switch and, in every slot, the relay,
    the trigger kind, the action, both thresholds, the enabled flag and the
    hysteresis stay; only triggered flags and trigger timestamps of counted
    slots can change, and the slots beyond the count are untouched. *)
Theorem evaluate_keeps_configuration now currentTemp cb st w :
  (ruleCount st ≤ length (rules st))%nat →
  ruleCount (evaluate now currentTemp cb st w).1 = ruleCount st ∧
  automationEnabled (evaluate now currentTemp cb st w).1 = automationEnabled st ∧
  Forall2 same_config (rules st) (rules (evaluate now currentTemp cb st w).1) ∧
  drop (ruleCount st) (rules (evaluate now currentTemp cb st w).1)
  = drop (ruleCount st) (rules st).
Proof.
  intros Hn. destruct (automationEnabled st) eqn:Hen.
  - rewrite evaluate_rules by done. rewrite evaluate_enabled by done. simpl.
    split; [done|]. split; [done|]. split.
    + rewrite <- (take_drop (ruleCount st) (rules st)) at 1.
      apply Forall2_app.
      * unfold stored. apply Forall2_fmap_r, Forall_Forall2_diag, Forall_forall.
        intros r _. apply nextRule_same_config.
      * apply Forall_Forall2_diag, Forall_forall. intros r _. by unfold same_config.
    + rewrite drop_app_length'; [done|].
      unfold stored. rewrite length_fmap, length_take. lia.
  - rewrite evaluate_disabled by done. simpl. rewrite Hen.
    split; [done|]. split; [done|]. split; [|done].
    apply Forall_Forall2_diag, Forall_forall. intros r _. by unfold same_config.
Qed.

Lemma evaluate_keeps_configuration_witness :
  (ruleCount StoreSpec.three_rules ≤ length (rules StoreSpec.three_rules))%nat ∧
  ruleCount (evaluate 0 30 (Some store_state) StoreSpec.three_rules quiet).1
  = ruleCount StoreSpec.three_rules.
Proof.
  assert (Hn : (ruleCount StoreSpec.three_rules
                ≤ length (rules StoreSpec.three_rules))%nat) by (vm_compute; lia).
  split; [exact Hn|].
  apply (evaluate_keeps_configuration 0 30 (Some store_state) StoreSpec.three_rules quiet Hn).
Defined.

Lemma nextRule_settled now currentTemp rule :
  0 <= hysteresis rule →
  ∀ now' cb' w',
    evaluateRule now' currentTemp cb' (nextRule now currentTemp rule) w'
    = (nextRule now currentTemp rule, w').
Proof.
  intros Hh now' cb' w'. unfold nextRule, evaluateRule, evaluateCondition.
  destruct rule as [r tt a thr hi en trig hys t0]. simpl in *.
  destruct en; simpl; [|done].
  destruct (currentTemp >=? thr) eqn:E1, (currentTemp >=? thr - hys) eqn:E2,
    (currentTemp <=? thr) eqn:E3, (currentTemp <=? thr + hys) eqn:E4,
    (currentTemp <=? hi) eqn:E5;
    destruct tt, trig; simpl; rewrite ?E1, ?E2, ?E3, ?E4, ?E5; simpl;
    rewrite ?E1, ?E2, ?E3, ?E4, ?E5; try done;
    exfalso;
    repeat match goal with
           | H : (_ >=? _) = true |- _ => apply Z.geb_le in H
           | H : (_ >=? _) = false |- _ => rewrite Z.geb_leb in H; apply Z.leb_gt in H
           | H : (_ <=? _) = true |- _ => apply Z.leb_le in H
           | H : (_ <=? _) = false |- _ => apply Z.leb_gt in H
           end; lia.
Qed.

Lemma thread_fixed {A W : Type} (step : A → W → A * W) (l : list A) (w : W) :
  (∀ a, a ∈ l → ∀ w0, step a w0 = (a, w0)) → thread step l w = (l, w).
Proof.
  revert w. induction l as [|a l IH]; intros w Hfix; [done|].
  simpl. rewrite (Hfix a) by (by left).
  rewrite IH; [done|]. intros b Hb. apply Hfix. by right.
Qed.

(** X4. No chatter: once [evaluate] has run at a reading, running it again
    at the same reading (at any time, with any callback, in any world)
    makes no call and changes nothing in the controller, provided no
    counted rule has a negative hysteresis. *)
Theorem evaluate_settles now currentTemp cb st w :
  (ruleCount st ≤ length (rules st))%nat →
  Forall (λ r, 0 <= hysteresis r) (stored st) →
  ∀ now' cb' w',
    evaluate now' currentTemp cb' (evaluate now currentTemp cb st w).1 w'
    = ((evaluate now currentTemp cb st w).1, w').
Proof.
  intros Hn Hhys now' cb' w'.
  destruct (automationEnabled st) eqn:Hen.
  - pose proof (evaluate_rules now currentTemp cb st w Hen Hn) as Hrules.
    rewrite (evaluate_enabled now currentTemp cb st w Hen) in *. simpl in Hrules.
    set (rules1 := (sweep (evaluateRule now currentTemp cb) (ruleCount st) (rules st) w).1) in *.
    assert (Hlen1 : length (nextRule now currentTemp <$> stored st) = ruleCount st).
    { unfold stored. rewrite length_fmap, length_take. lia. }
    rewrite evaluate_enabled by done. simpl.
    rewrite sweep_thread by (rewrite Hrules, length_app; lia). simpl.
    rewrite Hrules at 1 2 3. rewrite take_app_length', drop_app_length' by done.
    rewrite thread_fixed.
    + simpl. by rewrite <- Hrules.
    + intros r Hr w0. apply list_elem_of_fmap in Hr as (r0 & -> & Hr0).
      apply nextRule_settled. by apply (proj1 (Forall_forall _ _) Hhys).
  - rewrite !evaluate_disabled by (by rewrite ?evaluate_disabled). done.
Qed.

Lemma evaluate_settles_witness :
  (ruleCount StoreSpec.three_rules ≤ length (rules StoreSpec.three_rules))%nat ∧
  Forall (λ r, 0 <= hysteresis r) (stored StoreSpec.three_rules) ∧
  evaluate 5000 30 (Some store_state)
    (evaluate 0 30 (Some store_state) StoreSpec.three_rules quiet).1 quiet
  = ((evaluate 0 30 (Some store_state) StoreSpec.three_rules quiet).1, quiet).
Proof.
  assert (Hn : (ruleCount StoreSpec.three_rules
                ≤ length (rules StoreSpec.three_rules))%nat) by (vm_compute; lia).
  assert (Hh : Forall (λ r, 0 <= hysteresis r) (stored StoreSpec.three_rules)).
  { unfold stored, StoreSpec.three_rules, StoreSpec.one_rule. simpl.
    repeat (apply Forall_cons; split); try apply Forall_nil_2; vm_compute; congruence. }
  split; [exact Hn|]. split; [exact Hh|].
  apply (evaluate_settles 0 30 (Some store_state) StoreSpec.three_rules quiet Hn Hh).
Defined.
End EvaluatePass.


(** * Further properties of rule and schedule management *)

Section AppendRemove.

(** Writing the slot at the count and counting it appends to the stored
    sequence. *)
Lemma take_S_insert {A : Type} (n : nat) (x : A) (arr : list A) :
  (n < length arr)%nat → take (S n) (<[n := x]> arr) = take n arr ++ [x].
Proof.
  intros Hn. rewrite (take_S_r _ _ x) by (by apply list_lookup_insert_eq).
  by rewrite take_insert_ge by lia.
Qed.

(** X5. A successful [addRule] (room left, relay in range) appends one rule
    to the stored sequence: the relay, kind, action and threshold given,
    the upper threshold [threshold + 10] narrowed to a byte, enabled, not
    triggered, with the default hysteresis and no trigger time; [getRule]
    at the old count returns it and the rules stored before are unchanged.
    A successful [addSchedule] (room left, relay, hours and minutes in
    range) appends the schedule given, enabled and not active. *)
Theorem add_appends :
  (∀ st relayId triggerType action threshold,
     length (AutomationController.rules st) = MAX_AUTOMATION_RULES →
     (AutomationController.ruleCount st < MAX_AUTOMATION_RULES)%nat →
     relayId < RELAY_COUNT →
     (AutomationController.addRule relayId triggerType action threshold st).1 = true
     ∧ AutomationController.stored
         (AutomationController.addRule relayId triggerType action threshold st).2
       = AutomationController.stored st
         ++ [AutomationRule.mk relayId triggerType action threshold
               (uint8 (threshold + 10)) true false TEMP_HYSTERESIS 0]
     ∧ AutomationController.getRule (AutomationController.ruleCount st)
         (AutomationController.addRule relayId triggerType action threshold st).2
       = Some (AutomationRule.mk relayId triggerType action threshold
                 (uint8 (threshold + 10)) true false TEMP_HYSTERESIS 0)
     ∧ AutomationController.ruleCount
         (AutomationController.addRule relayId triggerType action threshold st).2
       = S (AutomationController.ruleCount st)
     ∧ length (AutomationController.rules
                 (AutomationController.addRule relayId triggerType action threshold st).2)
       = MAX_AUTOMATION_RULES) ∧
  (∀ st relayId onHour onMin offHour offMin days,
     length (ScheduleController.schedules st) = MAX_SCHEDULES →
     (ScheduleController.scheduleCount st < MAX_SCHEDULES)%nat →
     relayId < RELAY_COUNT → onHour <= 23 → offHour <= 23 → onMin <= 59 → offMin <= 59 →
     (ScheduleController.addSchedule relayId onHour onMin offHour offMin days st).1 = true
     ∧ ScheduleController.stored
         (ScheduleController.addSchedule relayId onHour onMin offHour offMin days st).2
       = ScheduleController.stored st
         ++ [Schedule.mk relayId onHour onMin offHour offMin days true false]
     ∧ ScheduleController.getSchedule (ScheduleController.scheduleCount st)
         (ScheduleController.addSchedule relayId onHour onMin offHour offMin days st).2
       = Some (Schedule.mk relayId onHour onMin offHour offMin days true false)
     ∧ ScheduleController.scheduleCount
         (ScheduleController.addSchedule relayId onHour onMin offHour offMin days st).2
       = S (ScheduleController.scheduleCount st)
     ∧ length (ScheduleController.schedules
                 (ScheduleController.addSchedule relayId onHour onMin offHour offMin days st).2)
       = MAX_SCHEDULES).
Proof.
  split.
  - intros st r tt a thr Hlen Hroom Hr. unfold AutomationController.addRule.
    rewrite (proj2 (Nat.leb_gt _ _) Hroom), (proj2 (Z.leb_gt _ _) Hr).
    unfold AutomationController.stored, AutomationController.getRule.
    cbn [fst snd AutomationController.ruleCount AutomationController.rules
         AutomationController.set_ruleCount AutomationController.set_rules].
    split; [done|]. split; [by apply take_S_insert; lia|]. split; [|split].
    + rewrite (proj2 (Nat.leb_gt _ _)) by lia. apply list_lookup_insert_eq. lia.
    + done.
    + by rewrite length_insert.
  - intros st r h1 m1 h2 m2 d Hlen Hroom Hr Hh1 Hh2 Hm1 Hm2.
    unfold ScheduleController.addSchedule.
    rewrite (proj2 (Nat.leb_gt _ _) Hroom), (proj2 (Z.leb_gt _ _) Hr).
    rewrite !(proj2 (Z.ltb_ge _ _)) by lia.
    unfold ScheduleController.stored, ScheduleController.getSchedule.
    cbn [fst snd orb ScheduleController.scheduleCount ScheduleController.schedules
         ScheduleController.set_scheduleCount ScheduleController.set_schedules].
    split; [done|]. split; [by apply take_S_insert; lia|]. split; [|split].
    + rewrite (proj2 (Nat.leb_gt _ _)) by lia. apply list_lookup_insert_eq. lia.
    + done.
    + by rewrite length_insert.
Qed.

Lemma add_appends_witness :
  length (AutomationController.rules StoreSpec.one_rule) = MAX_AUTOMATION_RULES ∧
  (AutomationController.ruleCount StoreSpec.one_rule < MAX_AUTOMATION_RULES)%nat ∧
  3 < RELAY_COUNT ∧
  AutomationController.getRule (AutomationController.ruleCount StoreSpec.one_rule)
    (AutomationController.addRule 3 TEMP_RANGE TOGGLE 20 StoreSpec.one_rule).2
  = Some (AutomationRule.mk 3 TEMP_RANGE TOGGLE 20 (uint8 (20 + 10)) true false
            TEMP_HYSTERESIS 0).
Proof.
  assert (H1 : length (AutomationController.rules StoreSpec.one_rule)
               = MAX_AUTOMATION_RULES) by reflexivity.
  assert (H2 : (AutomationController.ruleCount StoreSpec.one_rule
                < MAX_AUTOMATION_RULES)%nat) by (vm_compute; lia).
  assert (H3 : 3 < RELAY_COUNT) by (vm_compute; congruence).
  split; [exact H1|]. split; [exact H2|]. split; [exact H3|].
  apply (proj1 add_appends StoreSpec.one_rule 3 TEMP_RANGE TOGGLE 20 H1 H2 H3).
Defined.

(** X6. Removing the entry an add has just appended (the index is the old
    count) gives back the stored sequence and the count there were before
    the add, for rules and for schedules. *)
Theorem add_then_remove :
  (∀ st relayId triggerType action threshold,
     length (AutomationController.rules st) = MAX_AUTOMATION_RULES →
     (AutomationController.addRule relayId triggerType action threshold st).1 = true →
     (AutomationController.removeRule (AutomationController.ruleCount st)
        (AutomationController.addRule relayId triggerType action threshold st).2).1 = true
     ∧ AutomationController.stored
         (AutomationController.removeRule (AutomationController.ruleCount st)
            (AutomationController.addRule relayId triggerType action threshold st).2).2
       = AutomationController.stored st
     ∧ AutomationController.ruleCount
         (AutomationController.removeRule (AutomationController.ruleCount st)
            (AutomationController.addRule relayId triggerType action threshold st).2).2
       = AutomationController.ruleCount st) ∧
  (∀ st relayId onHour onMin offHour offMin days,
     length (ScheduleController.schedules st) = MAX_SCHEDULES →
     (ScheduleController.addSchedule relayId onHour onMin offHour offMin days st).1 = true →
     (ScheduleController.removeSchedule (ScheduleController.scheduleCount st)
        (ScheduleController.addSchedule relayId onHour onMin offHour offMin days st).2).1
       = true
     ∧ ScheduleController.stored
         (ScheduleController.removeSchedule (ScheduleController.scheduleCount st)
            (ScheduleController.addSchedule relayId onHour onMin offHour offMin days st).2).2
       = ScheduleController.stored st
     ∧ ScheduleController.scheduleCount
         (ScheduleController.removeSchedule (ScheduleController.scheduleCount st)
            (ScheduleController.addSchedule relayId onHour onMin offHour offMin days st).2).2
       = ScheduleController.scheduleCount st).
Proof.
  split.
  - intros st r tt a thr Hlen. unfold AutomationController.addRule.
    destruct (MAX_AUTOMATION_RULES <=? _)%nat eqn:Hcap; [done|].
    destruct (RELAY_COUNT <=? r); [done|]. intros _.
    apply Nat.leb_gt in Hcap.
    unfold AutomationController.removeRule.
    cbn [fst snd AutomationController.ruleCount AutomationController.rules
         AutomationController.set_ruleCount AutomationController.set_rules].
    rewrite (proj2 (Nat.leb_gt _ _)) by lia.
    cbn [fst snd AutomationController.ruleCount AutomationController.rules
         AutomationController.set_ruleCount AutomationController.set_rules].
    destruct (shift_down_spec (AutomationController.ruleCount st)
                (S (AutomationController.ruleCount st))
                (<[AutomationController.ruleCount st :=
                     AutomationRule.mk r tt a thr (uint8 (thr + 10)) true false
                       TEMP_HYSTERESIS 0]> (AutomationController.rules st)))
      as [_ Htake]; [lia|rewrite length_insert; lia|].
    unfold AutomationController.stored.
    cbn [fst snd AutomationController.ruleCount AutomationController.rules
         AutomationController.set_ruleCount AutomationController.set_rules].
    replace (S (AutomationController.ruleCount st) - 1)%nat
      with (AutomationController.ruleCount st) in * by lia.
    split; [done|]. split; [|done].
    rewrite Htake, take_S_insert by lia.
    rewrite <- (length_take_le (AutomationController.rules st)
                  (AutomationController.ruleCount st)) at 1 by lia.
    by rewrite delete_middle, app_nil_r.
  - intros st r h1 m1 h2 m2 d Hlen. unfold ScheduleController.addSchedule.
    destruct (MAX_SCHEDULES <=? _)%nat eqn:Hcap; [done|].
    destruct ((RELAY_COUNT <=? r) || _ || _ || _ || _); [done|]. intros _.
    apply Nat.leb_gt in Hcap.
    unfold ScheduleController.removeSchedule.
    cbn [fst snd ScheduleController.scheduleCount ScheduleController.schedules
         ScheduleController.set_scheduleCount ScheduleController.set_schedules].
    rewrite (proj2 (Nat.leb_gt _ _)) by lia.
    cbn [fst snd ScheduleController.scheduleCount ScheduleController.schedules
         ScheduleController.set_scheduleCount ScheduleController.set_schedules].
    destruct (shift_down_spec (ScheduleController.scheduleCount st)
                (S (ScheduleController.scheduleCount st))
                (<[ScheduleController.scheduleCount st :=
                     Schedule.mk r h1 m1 h2 m2 d true false]>
                   (ScheduleController.schedules st)))
      as [_ Htake]; [lia|rewrite length_insert; lia|].
    unfold ScheduleController.stored.
    cbn [fst snd ScheduleController.scheduleCount ScheduleController.schedules
         ScheduleController.set_scheduleCount ScheduleController.set_schedules].
    replace (S (ScheduleController.scheduleCount st) - 1)%nat
      with (ScheduleController.scheduleCount st) in * by lia.
    split; [done|]. split; [|done].
    rewrite Htake, take_S_insert by lia.
    rewrite <- (length_take_le (ScheduleController.schedules st)
                  (ScheduleController.scheduleCount st)) at 1 by lia.
    by rewrite delete_middle, app_nil_r.
Qed.

Lemma add_then_remove_witness :
  length (AutomationController.rules StoreSpec.one_rule) = MAX_AUTOMATION_RULES ∧
  (AutomationController.addRule 3 TEMP_RANGE TOGGLE 20 StoreSpec.one_rule).1 = true ∧
  AutomationController.stored
    (AutomationController.removeRule (AutomationController.ruleCount StoreSpec.one_rule)
       (AutomationController.addRule 3 TEMP_RANGE TOGGLE 20 StoreSpec.one_rule).2).2
  = AutomationController.stored StoreSpec.one_rule.
Proof.
  assert (H1 : length (AutomationController.rules StoreSpec.one_rule)
               = MAX_AUTOMATION_RULES) by reflexivity.
  assert (H2 : (AutomationController.addRule 3 TEMP_RANGE TOGGLE 20 StoreSpec.one_rule).1
               = true) by reflexivity.
  split; [exact H1|]. split; [exact H2|].
  apply (proj1 add_then_remove StoreSpec.one_rule 3 TEMP_RANGE TOGGLE 20 H1 H2).
Defined.
End AppendRemove.

Section EnableDisable.
Import AutomationRule AutomationController RuleSpec EngineSpec.

Lemma nextRule_disabled now currentTemp rule :
  enabled rule = false → nextRule now currentTemp rule = rule.
Proof. intros Hen. unfold nextRule, evaluateRule. by rewrite Hen. Qed.

Lemma evaluations_cons now currentTemp cb l st w :
  evaluations ((now, currentTemp, cb) :: l) st w
  = evaluations l (evaluate now currentTemp cb st w).1 (evaluate now currentTemp cb st w).2.
Proof. unfold evaluations. simpl. by destruct (evaluate now currentTemp cb st w). Qed.

Lemma evaluate_sizes now currentTemp cb st w :
  ruleCount (evaluate now currentTemp cb st w).1 = ruleCount st
  ∧ length (rules (evaluate now currentTemp cb st w).1) = length (rules st).
Proof.
  destruct (automationEnabled st) eqn:Hauto; [|by rewrite evaluate_disabled].
  rewrite evaluate_enabled by done. simpl. split; [done|]. apply sweep_length.
Qed.

Lemma evaluate_slot_disabled now currentTemp cb st w i rule :
  (ruleCount st ≤ length (rules st))%nat →
  rules st !! i = Some rule → enabled rule = false →
  rules (evaluate now currentTemp cb st w).1 !! i = Some rule.
Proof.
  intros Hn Hi Hen. destruct (automationEnabled st) eqn:Hauto;
    [|by rewrite evaluate_disabled].
  destruct (decide (i < ruleCount st)%nat) as [Hlt|Hge].
  - destruct (evaluate_slot now currentTemp cb st w i rule Hn Hauto Hlt Hi) as [w0 ->].
    by rewrite evaluateRule_fst, nextRule_disabled.
  - rewrite evaluate_rules by done.
    rewrite lookup_app_r; unfold stored; rewrite length_fmap, length_take_le by lia; [|lia].
    rewrite lookup_drop. rewrite <- Hi. f_equal. lia.
Qed.

(** X7. [setRuleEnabled] on a counted index changes the enabled flag of that
    rule and nothing else: [getRule] there returns the old rule with the
    flag given, every other index reads as before and the count stays. *)
Theorem setRuleEnabled_get st index flag :
  (index < ruleCount st)%nat → (ruleCount st ≤ length (rules st))%nat →
  getRule index (setRuleEnabled index flag st)
    = AutomationRule.set_enabled flag <$> getRule index st ∧
  (∀ j, j ≠ index → getRule j (setRuleEnabled index flag st) = getRule j st) ∧
  ruleCount (setRuleEnabled index flag st) = ruleCount st ∧
  length (rules (setRuleEnabled index flag st)) = length (rules st).
Proof.
  intros Hi Hn. unfold setRuleEnabled, getRule.
  rewrite (proj2 (Nat.ltb_lt _ _) Hi).
  cbn [ruleCount rules set_rules].
  rewrite (proj2 (Nat.leb_gt _ _) Hi).
  split; [by rewrite list_lookup_alter_eq|]. split; [|split].
  - intros j Hj. destruct (ruleCount st <=? j)%nat; [done|].
    by rewrite list_lookup_alter_ne.
  - done.
  - by rewrite length_alter.
Qed.

Lemma setRuleEnabled_get_witness :
  (1 < ruleCount StoreSpec.three_rules)%nat ∧
  (ruleCount StoreSpec.three_rules ≤ length (rules StoreSpec.three_rules))%nat ∧
  getRule 1 (setRuleEnabled 1 false StoreSpec.three_rules)
  = AutomationRule.set_enabled false <$> getRule 1 StoreSpec.three_rules.
Proof.
  assert (H1 : (1 < ruleCount StoreSpec.three_rules)%nat) by (vm_compute; lia).
  assert (H2 : (ruleCount StoreSpec.three_rules
                ≤ length (rules StoreSpec.three_rules))%nat) by (vm_compute; lia).
  split; [exact H1|]. split; [exact H2|].
  apply (setRuleEnabled_get StoreSpec.three_rules 1 false H1 H2).
Defined.

(** X8. A disabled rule is frozen: over any run of evaluations, at any
    readings, its slot stays exactly as it was, triggered flag included. So
    a rule disabled while triggered is still flagged when it is enabled
    again, and the loop body then makes no call and changes nothing at a
    reading that holds its condition. *)
Theorem disabled_rule_frozen st i rule :
  (ruleCount st ≤ length (rules st))%nat →
  rules st !! i = Some rule → enabled rule = false →
  ∀ run w,
    rules (evaluations run st w).1 !! i = Some rule ∧
    (currentlyTriggered rule = true → (i < ruleCount st)%nat →
     rules (setRuleEnabled i true (evaluations run st w).1) !! i
       = Some (AutomationRule.set_enabled true rule) ∧
     ∀ now currentTemp cb w',
       evaluateCondition rule currentTemp = true →
       evaluateRule now currentTemp cb (AutomationRule.set_enabled true rule) w'
       = (AutomationRule.set_enabled true rule, w')).
Proof.
  intros Hn Hi Hen run.
  assert (Hrun : ∀ w, rules (evaluations run st w).1 !! i = Some rule
                      ∧ ruleCount (evaluations run st w).1 = ruleCount st
                      ∧ length (rules (evaluations run st w).1) = length (rules st)).
  { revert st Hn Hi. induction run as [|[[now temp] cb] run IH]; intros st Hn Hi w; [done|].
    rewrite evaluations_cons.
    destruct (evaluate_sizes now temp cb st w) as [Hc Hl].
    destruct (IH (evaluate now temp cb st w).1) with (w := (evaluate now temp cb st w).2)
      as (H1 & H2 & H3).
    - rewrite Hc, Hl. done.
    - by apply evaluate_slot_disabled.
    - rewrite H1, H2, H3, Hc, Hl. done. }
  intros w. destruct (Hrun w) as (Hslot & Hcount & Hlen).
  split; [done|].
  intros Htrig Hlt. split.
  - unfold setRuleEnabled. rewrite (proj2 (Nat.ltb_lt _ _)) by lia.
    cbn [rules set_rules]. by rewrite list_lookup_alter_eq, Hslot.
  - intros now currentTemp cb w' Hcond.
    unfold evaluateRule.
    cbn [enabled AutomationRule.set_enabled negb].
    assert (Hc' : evaluateCondition (AutomationRule.set_enabled true rule) currentTemp = true).
    { rewrite <- Hcond. unfold evaluateCondition. by destruct rule. }
    rewrite Hc'. cbn [currentlyTriggered AutomationRule.set_enabled].
    by rewrite Htrig.
Qed.

Lemma disabled_rule_frozen_witness :
  (ruleCount middle_disabled ≤ length (rules middle_disabled))%nat ∧
  rules middle_disabled !! 1%nat
    = Some (AutomationRule.mk 2 TEMP_LOW TURN_OFF 26 36 false true 2 0) ∧
  rules (evaluations [(10, 40, Some store_state); (20, 22, Some store_state)]
           middle_disabled quiet).1 !! 1%nat
    = Some (AutomationRule.mk 2 TEMP_LOW TURN_OFF 26 36 false true 2 0).
Proof.
  assert (H1 : (ruleCount middle_disabled ≤ length (rules middle_disabled))%nat)
    by (vm_compute; lia).
  assert (H2 : rules middle_disabled !! 1%nat
               = Some (AutomationRule.mk 2 TEMP_LOW TURN_OFF 26 36 false true 2 0))
    by reflexivity.
  split; [exact H1|]. split; [exact H2|].
  apply (disabled_rule_frozen middle_disabled 1
           (AutomationRule.mk 2 TEMP_LOW TURN_OFF 26 36 false true 2 0) H1 H2 eq_refl).
Defined.
End EnableDisable.

Section ClearAndBegin.
Import AutomationRule AutomationController RuleSpec EngineSpec.

(** X9. [clearAllRules] leaves no rule: the count is zero, [getRule]
    returns null at every index, every slot of the array is disabled, a
    following [evaluate] leaves the world as it is, and a following
    [addRule] for an existing relay succeeds, whatever the count was. *)
Theorem clearAllRules_empties st :
  ruleCount (clearAllRules st) = 0%nat ∧
  (∀ i, getRule i (clearAllRules st) = None) ∧
  Forall (λ r, enabled r = false) (rules (clearAllRules st)) ∧
  length (rules (clearAllRules st)) = length (rules st) ∧
  (∀ now currentTemp cb w, (evaluate now currentTemp cb (clearAllRules st) w).2 = w) ∧
  (length (rules st) = MAX_AUTOMATION_RULES →
   ∀ relayId triggerType action threshold, relayId < RELAY_COUNT →
     (addRule relayId triggerType action threshold (clearAllRules st)).1 = true).
Proof.
  split; [done|]. split; [done|]. split; [|split; [|split]].
  - unfold clearAllRules. cbn [rules set_rules].
    apply Forall_fmap, Forall_forall. by intros r _.
  - unfold clearAllRules. cbn [rules set_rules]. by rewrite length_fmap.
  - intros now currentTemp cb w.
    destruct (automationEnabled (clearAllRules st)) eqn:Hauto;
      [|by rewrite evaluate_disabled].
    rewrite evaluate_enabled by done. reflexivity.
  - intros Hlen r tt a thr Hr. unfold addRule, clearAllRules.
    cbn [ruleCount set_rules set_ruleCount].
    by rewrite (proj2 (Z.leb_gt _ _) Hr).
Qed.

Lemma clearAllRules_empties_witness :
  length (rules StoreSpec.full_rules) = MAX_AUTOMATION_RULES ∧ 3 < RELAY_COUNT ∧
  (addRule 3 TEMP_HIGH TURN_ON 25 StoreSpec.full_rules).1 = false ∧
  (addRule 3 TEMP_HIGH TURN_ON 25 (clearAllRules StoreSpec.full_rules)).1 = true.
Proof.
  assert (H1 : length (rules StoreSpec.full_rules) = MAX_AUTOMATION_RULES) by reflexivity.
  assert (H2 : 3 < RELAY_COUNT) by (vm_compute; congruence).
  split; [exact H1|]. split; [exact H2|]. split; [reflexivity|].
  apply (clearAllRules_empties StoreSpec.full_rules); [exact H1|exact H2].
Defined.

Lemma loadFromSD_init_failed sd :
  (loadFromSD init sd).1 = false → (loadFromSD init sd).2 = init.
Proof.
  unfold loadFromSD.
  destruct (negb (SD.exists_ sd FILE_AUTOMATION)); [done|].
  destruct (SD.open_read sd FILE_AUTOMATION) as [file|]; [|done].
  destruct (SD.read file) as [b rest]. cbn [ruleCount set_ruleCount].
  destruct (MAX_AUTOMATION_RULES <? Z.to_nat (uint8 b))%nat; [done|].
  by destruct (read_records _ _ _ _ _ _).
Qed.

(** X10. [begin] on a freshly constructed controller: when [loadFromSD]
    fails (no file, no open, or a count beyond capacity) the stored rules
    are exactly the two defaults, turn-on of relay 2 at 28 and turn-off of
    relay 2 at 26; when it succeeds the controller is the one loaded and no
    default is added. *)
Theorem begin_defaults sd :
  ((loadFromSD init sd).1 = false →
     stored (begin init sd) = default_rules ∧ ruleCount (begin init sd) = 2%nat) ∧
  ((loadFromSD init sd).1 = true → begin init sd = (loadFromSD init sd).2).
Proof.
  split.
  - intros Hfail. pose proof (loadFromSD_init_failed sd Hfail) as Hst.
    unfold begin. destruct (loadFromSD init sd) as [ok st]. simpl in *. subst ok st.
    by vm_compute.
  - intros Hok. unfold begin. destruct (loadFromSD init sd) as [ok st].
    simpl in *. by subst ok.
Qed.

Lemma begin_defaults_witness :
  (loadFromSD init StoreSpec.empty_card).1 = false ∧
  stored (begin init StoreSpec.empty_card) = default_rules.
Proof.
  assert (H1 : (loadFromSD init StoreSpec.empty_card).1 = false) by reflexivity.
  split; [exact H1|].
  apply (proj1 (begin_defaults StoreSpec.empty_card) H1).
Defined.
End ClearAndBegin.

Section Capacity.

Lemma AutomationController_wf_addRule r tt a thr st :
  AutomationController.wf st → AutomationController.wf (AutomationController.addRule r tt a thr st).2.
Proof.
  intros [Hlen Hn]. unfold AutomationController.addRule.
  destruct (MAX_AUTOMATION_RULES <=? _)%nat eqn:Hcap; [done|].
  destruct (RELAY_COUNT <=? r); [done|].
  apply Nat.leb_gt in Hcap. split; simpl; [by rewrite length_insert|lia].
Qed.

Lemma AutomationController_wf_loadFromSD st sd :
  AutomationController.wf st → AutomationController.wf (AutomationController.loadFromSD st sd).2.
Proof.
  intros [Hlen Hn]. unfold AutomationController.loadFromSD.
  destruct (negb (SD.exists_ sd FILE_AUTOMATION)); [done|].
  destruct (SD.open_read sd FILE_AUTOMATION) as [file|]; [|done].
  destruct (SD.read file) as [b rest].
  cbn [AutomationController.ruleCount AutomationController.set_ruleCount
       AutomationController.rules].
  destruct (MAX_AUTOMATION_RULES <? Z.to_nat (uint8 b))%nat eqn:Hbig.
  - split; simpl; [done|lia].
  - apply Nat.ltb_ge in Hbig.
    pose proof (read_records_length AutomationRule.sizeof AutomationRule.to_bytes
                  AutomationRule.of_bytes (Z.to_nat (uint8 b))
                  (AutomationController.rules st) rest) as Hl.
    destruct (read_records _ _ _ _ _ _) as [rules' rest']. simpl in *.
    split; simpl; [by rewrite Hl|done].
Qed.

Lemma automation_reachable_wf st : EngineSpec.reachable st → AutomationController.wf st.
Proof.
  induction 1 as [|st sd _ IH|st now temp cb w _ IH|st r tt a thr _ IH|st i _ IH
                  |st i b _ IH|st b _ IH|st _ IH|st sd _ IH].
  - split; [done|]. simpl. unfold MAX_AUTOMATION_RULES. lia.
  - unfold AutomationController.begin.
    pose proof (AutomationController_wf_loadFromSD st sd IH) as Hl.
    destruct (AutomationController.loadFromSD st sd) as [ok st1]. simpl in *.
    destruct ok; simpl; [done|].
    by do 2 apply AutomationController_wf_addRule.
  - destruct IH as [Hlen Hn].
    destruct (evaluate_sizes now temp cb st w) as [Hc Hl].
    split; [by rewrite Hl|by rewrite Hc].
  - by apply AutomationController_wf_addRule.
  - destruct IH as [Hlen Hn]. unfold AutomationController.removeRule.
    destruct (AutomationController.ruleCount st <=? i)%nat eqn:Hi; [done|].
    apply Nat.leb_gt in Hi.
    destruct (shift_down_spec i (AutomationController.ruleCount st)
                (AutomationController.rules st)) as [Hl _]; [done|lia|].
    split; simpl; [by rewrite Hl|lia].
  - destruct IH as [Hlen Hn]. unfold AutomationController.setRuleEnabled.
    destruct (i <? AutomationController.ruleCount st)%nat; [|done].
    split; simpl; [by rewrite length_alter|done].
  - done.
  - destruct IH as [Hlen Hn]. split; simpl; [by rewrite length_fmap|lia].
  - by apply AutomationController_wf_loadFromSD.
Qed.

Lemma schedule_reachable_schedules st :
  TimerSpec.reachable st →
  length (ScheduleController.schedules st) = MAX_SCHEDULES
  ∧ (ScheduleController.scheduleCount st ≤ MAX_SCHEDULES)%nat.
Proof.
  assert (Hload : ∀ st sd,
            length (ScheduleController.schedules st) = MAX_SCHEDULES
            ∧ (ScheduleController.scheduleCount st ≤ MAX_SCHEDULES)%nat →
            length (ScheduleController.schedules (ScheduleController.loadFromSD st sd).2)
              = MAX_SCHEDULES
            ∧ (ScheduleController.scheduleCount (ScheduleController.loadFromSD st sd).2
               ≤ MAX_SCHEDULES)%nat).
  { intros st0 sd [Hlen Hn]. unfold ScheduleController.loadFromSD.
    destruct (negb (SD.exists_ sd FILE_SCHEDULES)); [done|].
    destruct (SD.open_read sd FILE_SCHEDULES) as [file|]; [|done].
    destruct (SD.read file) as [b rest].
    cbn [ScheduleController.scheduleCount ScheduleController.set_scheduleCount
         ScheduleController.schedules].
    destruct (MAX_SCHEDULES <? Z.to_nat (uint8 b))%nat eqn:Hbig.
    - split; simpl; [done|lia].
    - apply Nat.ltb_ge in Hbig.
      pose proof (read_records_length Schedule.sizeof Schedule.to_bytes
                    Schedule.of_bytes (Z.to_nat (uint8 b))
                    (ScheduleController.schedules st0) rest) as Hl.
      destruct (read_records _ _ _ _ _ _) as [l' rest']. simpl in *.
      split; simpl; [by rewrite Hl|done]. }
  induction 1 as [|st sd _ IH|st now cb w _ IH|st r h1 m1 h2 m2 d _ IH|st i _ IH
                  |st i b _ IH|st _ IH|st sd _ IH|st now r dur flag _ IH|st r _ IH|st _ IH].
  - split; [done|]. simpl. unfold MAX_SCHEDULES. lia.
  - unfold ScheduleController.begin. simpl.
    by apply (Hload (ScheduleController.set_rtcAvailable false st) sd).
  - rewrite update_updateTimers.
    destruct IH as [Hlen Hn].
    unfold ScheduleController.updateTimers.
    destruct (sweep _ _ _ _) as [t1 w1]. destruct (for_range _ _ _ _) as [t2 k]. done.
  - destruct IH as [Hlen Hn]. unfold ScheduleController.addSchedule.
    destruct (MAX_SCHEDULES <=? _)%nat eqn:Hcap; [done|].
    destruct ((RELAY_COUNT <=? r) || _ || _ || _ || _); [done|].
    apply Nat.leb_gt in Hcap. split; simpl; [by rewrite length_insert|lia].
  - destruct IH as [Hlen Hn]. unfold ScheduleController.removeSchedule.
    destruct (ScheduleController.scheduleCount st <=? i)%nat eqn:Hi; [done|].
    apply Nat.leb_gt in Hi.
    destruct (shift_down_spec i (ScheduleController.scheduleCount st)
                (ScheduleController.schedules st)) as [Hl _]; [done|lia|].
    split; simpl; [by rewrite Hl|lia].
  - destruct IH as [Hlen Hn]. unfold ScheduleController.setScheduleEnabled.
    destruct (i <? ScheduleController.scheduleCount st)%nat; [|done].
    split; simpl; [by rewrite length_alter|done].
  - destruct IH as [Hlen Hn]. split; simpl; [done|lia].
  - by apply Hload.
  - destruct IH as [Hlen Hn]. unfold ScheduleController.addTimer.
    destruct (MAX_TIMERS <=? _)%nat; [done|].
    destruct (RELAY_COUNT <=? r); [done|].
    unfold ScheduleController.cancelTimer.
    by destruct (ScheduleController.findTimerIndex r st >=? 0).
  - destruct IH as [Hlen Hn]. unfold ScheduleController.cancelTimer.
    by destruct (ScheduleController.findTimerIndex r st >=? 0).
  - done.
Qed.

(** X11. Capacity is never exceeded: in every state either controller
    reaches from its constructor through its public operations (loads of
    arbitrary files included), the arrays keep their declared sizes and the
    counts of rules, schedules and timers stay within [MAX_AUTOMATION_RULES],
    [MAX_SCHEDULES] and [MAX_TIMERS]; so every index the loops use is in
    bounds. *)
Theorem capacity_invariant :
  (∀ st, EngineSpec.reachable st → AutomationController.wf st) ∧
  (∀ st, TimerSpec.reachable st → ScheduleController.wf st).
Proof.
  split.
  - apply automation_reachable_wf.
  - intros st Hreach.
    destruct (schedule_reachable_schedules st Hreach) as [H1 H2].
    destruct (reachable_timers_ok st Hreach) as (H3 & H4 & _).
    by repeat split.
Qed.

Lemma capacity_invariant_witness :
  EngineSpec.reachable
    (AutomationController.loadFromSD StoreSpec.full_rules StoreSpec.overfull_card).2 ∧
  AutomationController.wf
    (AutomationController.loadFromSD StoreSpec.full_rules StoreSpec.overfull_card).2.
Proof.
  assert (Hreach : EngineSpec.reachable
            (AutomationController.loadFromSD StoreSpec.full_rules StoreSpec.overfull_card).2).
  { apply EngineSpec.reach_loadFromSD.
    unfold StoreSpec.full_rules, StoreSpec.three_rules, StoreSpec.one_rule.
    do 5 apply EngineSpec.reach_addRule. apply EngineSpec.reach_init. }
  split; [exact Hreach|].
  apply (proj1 capacity_invariant _ Hreach).
Defined.
End Capacity.

Section ShortFiles.

Lemma read_record_eof {A : Type} (sizeof : nat) (to_bytes : A → list Z)
    (of_bytes : list Z → A) (old : A) :
  read_record sizeof to_bytes of_bytes old [] = (of_bytes (to_bytes old), []).
Proof.
  unfold read_record, SD.read_buf. rewrite take_nil, drop_nil. simpl.
  by rewrite drop_0.
Qed.

Lemma read_thread_eof {A : Type} (sizeof : nat) (to_bytes : A → list Z)
    (of_bytes : list Z → A) (wf_rec : A → Prop) (olds : list A) :
  (∀ a, wf_rec a → of_bytes (to_bytes a) = a) → Forall wf_rec olds →
  thread (read_record sizeof to_bytes of_bytes) olds [] = (olds, []).
Proof.
  intros Hrt. induction olds as [|o olds IH]; intros Hwf; [done|].
  apply Forall_cons in Hwf as [Ho Hwf].
  cbn [thread]. rewrite read_record_eof, Hrt by done.
  by rewrite IH.
Qed.

Lemma read_records_tail {A : Type} (sizeof : nat) (to_bytes : A → list Z)
    (of_bytes : list Z → A) (count : nat) (arr : list A) (file : list Z) :
  (count ≤ length arr)%nat →
  drop count (read_records sizeof to_bytes of_bytes count arr file).1 = drop count arr.
Proof.
  intros Hc. unfold read_records. rewrite sweep_thread by done. simpl.
  rewrite drop_app_length'; [done|].
  rewrite thread_length, length_take. lia.
Qed.

(** X12. [loadFromSD] trusts the count byte: whenever the file can be
    opened and its first byte is at most the capacity, the load reports
    success and the count becomes that byte, however few record bytes
    follow; the slots from the count on are untouched. In particular a file
    that holds the count byte alone makes the first slots of the array, as
    they were in memory, the stored entries. *)
Theorem loadFromSD_trusts_count :
  (∀ st sd b rest,
     SD.exists_ sd FILE_AUTOMATION = true →
     SD.open_read sd FILE_AUTOMATION = Some (b :: rest) →
     0 <= b <= Z.of_nat MAX_AUTOMATION_RULES →
     length (AutomationController.rules st) = MAX_AUTOMATION_RULES →
     (AutomationController.loadFromSD st sd).1 = true
     ∧ AutomationController.ruleCount (AutomationController.loadFromSD st sd).2 = Z.to_nat b
     ∧ drop (Z.to_nat b) (AutomationController.rules (AutomationController.loadFromSD st sd).2)
       = drop (Z.to_nat b) (AutomationController.rules st)
     ∧ (rest = [] →
        Forall AutomationRule.wf (take (Z.to_nat b) (AutomationController.rules st)) →
        AutomationController.rules (AutomationController.loadFromSD st sd).2
        = AutomationController.rules st)) ∧
  (∀ st sd b rest,
     SD.exists_ sd FILE_SCHEDULES = true →
     SD.open_read sd FILE_SCHEDULES = Some (b :: rest) →
     0 <= b <= Z.of_nat MAX_SCHEDULES →
     length (ScheduleController.schedules st) = MAX_SCHEDULES →
     (ScheduleController.loadFromSD st sd).1 = true
     ∧ ScheduleController.scheduleCount (ScheduleController.loadFromSD st sd).2 = Z.to_nat b
     ∧ drop (Z.to_nat b) (ScheduleController.schedules (ScheduleController.loadFromSD st sd).2)
       = drop (Z.to_nat b) (ScheduleController.schedules st)
     ∧ (rest = [] →
        Forall Schedule.wf (take (Z.to_nat b) (ScheduleController.schedules st)) →
        ScheduleController.schedules (ScheduleController.loadFromSD st sd).2
        = ScheduleController.schedules st)).
Proof.
  split.
  - intros st sd b rest Hex Hopen Hb Hlen. unfold AutomationController.loadFromSD.
    rewrite Hex, Hopen. cbn [negb SD.read].
    cbn [AutomationController.ruleCount AutomationController.set_ruleCount
         AutomationController.rules].
    assert (Hu : uint8 b = b).
    { unfold uint8. apply Z.mod_small. unfold MAX_AUTOMATION_RULES in Hb. lia. }
    rewrite Hu. rewrite (proj2 (Nat.ltb_ge _ _)) by lia.
    pose proof (read_records_tail AutomationRule.sizeof AutomationRule.to_bytes
                  AutomationRule.of_bytes (Z.to_nat b)
                  (AutomationController.rules st) rest) as Htail.
    destruct (read_records _ _ _ _ _ _) as [rules' rest'] eqn:Hread. simpl in *.
    split; [done|]. split; [done|]. split; [apply Htail; lia|].
    intros -> Hwf. unfold read_records in Hread.
    rewrite sweep_thread in Hread by lia.
    rewrite (read_thread_eof _ _ _ AutomationRule.wf) in Hread
      by (done || apply AutomationRule_of_to_bytes).
    simpl in Hread. injection Hread as <- _. apply take_drop.
  - intros st sd b rest Hex Hopen Hb Hlen. unfold ScheduleController.loadFromSD.
    rewrite Hex, Hopen. cbn [negb SD.read].
    cbn [ScheduleController.scheduleCount ScheduleController.set_scheduleCount
         ScheduleController.schedules].
    assert (Hu : uint8 b = b).
    { unfold uint8. apply Z.mod_small. unfold MAX_SCHEDULES in Hb. lia. }
    rewrite Hu. rewrite (proj2 (Nat.ltb_ge _ _)) by lia.
    pose proof (read_records_tail Schedule.sizeof Schedule.to_bytes
                  Schedule.of_bytes (Z.to_nat b)
                  (ScheduleController.schedules st) rest) as Htail.
    destruct (read_records _ _ _ _ _ _) as [l' rest'] eqn:Hread. simpl in *.
    split; [done|]. split; [done|]. split; [apply Htail; lia|].
    intros -> Hwf. unfold read_records in Hread.
    rewrite sweep_thread in Hread by lia.
    rewrite (read_thread_eof _ _ _ Schedule.wf) in Hread
      by (done || apply Schedule_of_to_bytes).
    simpl in Hread. injection Hread as <- _. apply take_drop.
Qed.

Lemma loadFromSD_trusts_count_witness :
  SD.exists_ ExtraSpec.count_only_card FILE_AUTOMATION = true ∧
  SD.open_read ExtraSpec.count_only_card FILE_AUTOMATION = Some (3 :: []) ∧
  0 <= 3 <= Z.of_nat MAX_AUTOMATION_RULES ∧
  length (AutomationController.rules
            (AutomationController.set_ruleCount 0 StoreSpec.three_rules))
    = MAX_AUTOMATION_RULES ∧
  AutomationController.ruleCount
    (AutomationController.loadFromSD
       (AutomationController.set_ruleCount 0 StoreSpec.three_rules)
       ExtraSpec.count_only_card).2 = Z.to_nat 3.
Proof.
  assert (H1 : SD.exists_ ExtraSpec.count_only_card FILE_AUTOMATION = true) by reflexivity.
  assert (H2 : SD.open_read ExtraSpec.count_only_card FILE_AUTOMATION = Some (3 :: []))
    by reflexivity.
  assert (H3 : 0 <= 3 <= Z.of_nat MAX_AUTOMATION_RULES) by (vm_compute; split; congruence).
  assert (H4 : length (AutomationController.rules
                         (AutomationController.set_ruleCount 0 StoreSpec.three_rules))
               = MAX_AUTOMATION_RULES) by reflexivity.
  split; [exact H1|]. split; [exact H2|]. split; [exact H3|]. split; [exact H4|].
  apply (proj1 loadFromSD_trusts_count _ _ 3 [] H1 H2 H3 H4).
Defined.
End ShortFiles.


(** * Further properties of schedules and timers *)

Section ScheduleSwitch.
Import ScheduleController ScheduleSpec ExtraSpec.

(** X13. Exchanging the on and off times of a schedule whose two times
    differ gives the complementary window: on a day of the mask the
    exchanged schedule is active exactly when the original is not (the
    window that wraps midnight is the complement of the one that does
    not); off the mask both are inactive. *)
Theorem window_complement (sched : Schedule.t) (currentHour currentMin dayOfWeek : Z) :
  Schedule.wf sched → is_uint8 currentHour → is_uint8 currentMin →
  onMinutes sched ≠ offMinutes sched →
  shouldScheduleBeActive (swap_times sched) currentHour currentMin dayOfWeek
  = isDayMatch sched dayOfWeek
    && negb (shouldScheduleBeActive sched currentHour currentMin dayOfWeek).
Proof.
  intros (_ & HonH & HonM & HoffH & HoffM & _) Hh Hm Hne.
  unfold shouldScheduleBeActive.
  change (isDayMatch (swap_times sched) dayOfWeek) with (isDayMatch sched dayOfWeek).
  cbn [swap_times Schedule.onHour Schedule.onMinute Schedule.offHour Schedule.offMinute].
  rewrite !uint16_minutes by done.
  fold (onMinutes sched) (offMinutes sched) in *.
  destruct (isDayMatch sched dayOfWeek); simpl; [|done].
  destruct (Z.ltb_spec (onMinutes sched) (offMinutes sched)),
    (Z.ltb_spec (offMinutes sched) (onMinutes sched)); try lia;
    destruct (Z.geb_spec (currentHour * 60 + currentMin) (onMinutes sched)),
      (Z.geb_spec (currentHour * 60 + currentMin) (offMinutes sched)),
      (Z.ltb_spec (currentHour * 60 + currentMin) (onMinutes sched)),
      (Z.ltb_spec (currentHour * 60 + currentMin) (offMinutes sched));
    simpl; try done; lia.
Qed.

Lemma window_complement_witness :
  Schedule.wf scenarioB_schedule ∧ is_uint8 12 ∧ is_uint8 0 ∧
  onMinutes scenarioB_schedule ≠ offMinutes scenarioB_schedule ∧
  shouldScheduleBeActive (swap_times scenarioB_schedule) 12 0 3
  = isDayMatch scenarioB_schedule 3
    && negb (shouldScheduleBeActive scenarioB_schedule 12 0 3).
Proof.
  assert (Hwf : Schedule.wf scenarioB_schedule) by (vm_compute; repeat split; congruence).
  assert (H12 : is_uint8 12) by (unfold is_uint8; lia).
  assert (H0 : is_uint8 0) by (unfold is_uint8; lia).
  assert (Hne : onMinutes scenarioB_schedule ≠ offMinutes scenarioB_schedule)
    by (vm_compute; congruence).
  repeat (split; [assumption|]).
  exact (window_complement scenarioB_schedule 12 0 3 Hwf H12 H0 Hne).
Defined.

(** X14. The body of the schedule loop keeps the active flag in step with
    the window: for an enabled schedule the flag afterwards is the computed
    activity and nothing else of the schedule changes; the callback, when
    it is not null, is called exactly once, with the relay of the schedule
    and the new activity, when the activity differs from the old flag, and
    never otherwise. A disabled schedule is left alone. *)
Theorem switchSchedule_tracks cb currentHour currentMin dayOfWeek sched w :
  (Schedule.enabled sched = true →
     (switchSchedule cb currentHour currentMin dayOfWeek sched w).1
     = Schedule.set_isActive
         (shouldScheduleBeActive sched currentHour currentMin dayOfWeek) sched) ∧
  (Schedule.enabled sched = false →
     switchSchedule cb currentHour currentMin dayOfWeek sched w = (sched, w)) ∧
  calls (switchSchedule cb currentHour currentMin dayOfWeek sched w).2
  = calls w ++ switch_calls cb currentHour currentMin dayOfWeek sched.
Proof.
  unfold switchSchedule, switch_calls.
  destruct (Schedule.enabled sched); simpl.
  - destruct (shouldScheduleBeActive sched currentHour currentMin dayOfWeek),
      sched as [r h1 m1 h2 m2 d en act]; destruct act, cb as [f|]; simpl;
      rewrite ?app_nil_r; by repeat split.
  - rewrite app_nil_r. by repeat split.
Qed.

Lemma switchSchedule_tracks_witness :
  Schedule.enabled scenarioB_schedule = true ∧
  (switchSchedule (Some store_state) 23 30 3 scenarioB_schedule quiet).1
  = Schedule.set_isActive (shouldScheduleBeActive scenarioB_schedule 23 30 3)
      scenarioB_schedule.
Proof.
  split; [reflexivity|].
  apply (switchSchedule_tracks (Some store_state) 23 30 3 scenarioB_schedule quiet).
  reflexivity.
Defined.
End ScheduleSwitch.

Section NoClock.
Import ScheduleController TimerSpec.

Lemma updateTimers_lastMinute now cb st w :
  lastMinute (updateTimers now cb st w).1 = lastMinute st.
Proof.
  unfold updateTimers.
  destruct (sweep _ _ _ _) as [t1 w1]. by destruct (for_range _ _ _ _) as [t2 k].
Qed.

Lemma reachable_no_clock st : reachable st → rtcAvailable st = false.
Proof.
  assert (Hload : ∀ st sd, rtcAvailable (loadFromSD st sd).2 = rtcAvailable st).
  { intros st0 sd. unfold loadFromSD.
    destruct (negb (SD.exists_ sd FILE_SCHEDULES)); [done|].
    destruct (SD.open_read sd FILE_SCHEDULES) as [file|]; [|done].
    destruct (SD.read file) as [b rest]. simpl.
    destruct (MAX_SCHEDULES <? Z.to_nat (uint8 b))%nat; [done|].
    by destruct (read_records _ _ _ _ _ _). }
  induction 1 as [|st sd _ IH|st now cb w _ IH|st r h1 m1 h2 m2 d _ IH|st i _ IH
                  |st i b _ IH|st _ IH|st sd _ IH|st now r dur flag _ IH|st r _ IH|st _ IH].
  - done.
  - unfold begin. simpl. by rewrite Hload.
  - rewrite update_updateTimers. unfold updateTimers.
    destruct (sweep _ _ _ _) as [t1 w1]. by destruct (for_range _ _ _ _) as [t2 k].
  - unfold addSchedule. by repeat (case_match; simpl).
  - unfold removeSchedule. by repeat (case_match; simpl).
  - unfold setScheduleEnabled. by repeat (case_match; simpl).
  - done.
  - by rewrite Hload.
  - unfold addTimer, cancelTimer. by repeat (case_match; simpl).
  - unfold cancelTimer. by repeat (case_match; simpl).
  - done.
Qed.

(** X15. The schedules never run: [begin] always reports that no clock is
    available, no reachable state has the clock flag set, and [update], in
    any state, leaves the schedules, their count, their active flags and
    the last minute as they are; the calls it makes are the expiry calls of
    the timers and nothing else. *)
Theorem schedules_never_run :
  (∀ st sd, (begin st sd).1 = false) ∧
  (∀ st, reachable st → rtcAvailable st = false) ∧
  (∀ st now cb w,
     schedules (update now cb st w).1 = schedules st ∧
     scheduleCount (update now cb st w).1 = scheduleCount st ∧
     lastMinute (update now cb st w).1 = lastMinute st) ∧
  (∀ st now cb w, (timerCount st ≤ length (timers st))%nat →
     calls (update now cb st w).2
     = calls w ++ concat (expiry_calls now cb <$> counted st)).
Proof.
  split; [|split; [|split]].
  - intros st sd. unfold begin.
    cbn [fst]. unfold loadFromSD.
    destruct (negb (SD.exists_ sd FILE_SCHEDULES)); [done|].
    destruct (SD.open_read sd FILE_SCHEDULES) as [file|]; [|done].
    destruct (SD.read file) as [b rest]. simpl.
    destruct (MAX_SCHEDULES <? Z.to_nat (uint8 b))%nat; [done|].
    by destruct (read_records _ _ _ _ _ _).
  - apply reachable_no_clock.
  - intros st now cb w. rewrite update_updateTimers.
    split; [|split]; [| |apply updateTimers_lastMinute];
      unfold updateTimers; destruct (sweep _ _ _ _) as [t1 w1];
      by destruct (for_range _ _ _ _) as [t2 k].
  - intros st now cb w Hn. rewrite update_updateTimers.
    by apply updateTimers_spec.
Qed.

Lemma schedules_never_run_witness :
  reachable (addSchedule 0 0 0 23 59 SCHEDULE_DAILY init).2 ∧
  rtcAvailable (addSchedule 0 0 0 23 59 SCHEDULE_DAILY init).2 = false.
Proof.
  assert (Hreach : reachable (addSchedule 0 0 0 23 59 SCHEDULE_DAILY init).2).
  { apply reach_addSchedule, reach_init. }
  split; [exact Hreach|].
  apply (proj1 (proj2 schedules_never_run) _ Hreach).
Defined.
End NoClock.

Section TimerClock.
Import ScheduleController TimerSpec ExtraSpec.

(** X16. The elapsed time survives the wrap of the millisecond counter: for
    a timer started at [startTime], [d] milliseconds later (with
    [d < 2^32]) the counter reads [(startTime + d) mod 2^32] and
    [elapsedSeconds] is [d / 1000], whether or not the counter has wrapped
    in between. *)
Theorem elapsed_across_wrap (timer : Timer.t) (d : Z) :
  is_uint32 (Timer.startTime timer) → 0 <= d < 4294967296 →
  elapsedSeconds (uint32 (Timer.startTime timer + d)) timer = d / 1000.
Proof.
  unfold is_uint32, elapsedSeconds, uint32. intros Hs Hd.
  rewrite Zminus_mod_idemp_l.
  replace (Timer.startTime timer + d - Timer.startTime timer) with d by lia.
  rewrite (Z.mod_small d) by lia.
  apply Z.mod_small. Z.div_mod_to_equations. lia.
Qed.

Lemma elapsed_across_wrap_witness :
  is_uint32 (Timer.startTime late_timer) ∧ 0 <= 5000 < 4294967296 ∧
  uint32 (Timer.startTime late_timer + 5000) = 4704 ∧
  elapsedSeconds (uint32 (Timer.startTime late_timer + 5000)) late_timer = 5000 / 1000.
Proof.
  assert (H1 : is_uint32 (Timer.startTime late_timer))
    by (vm_compute; split; congruence).
  assert (H2 : 0 <= 5000 < 4294967296) by lia.
  split; [exact H1|]. split; [exact H2|]. split; [reflexivity|].
  apply (elapsed_across_wrap late_timer 5000 H1 H2).
Defined.

Lemma elapsedSeconds_bound now timer : 0 <= elapsedSeconds now timer <= 4294967.
Proof.
  unfold elapsedSeconds, uint32.
  pose proof (Z.mod_pos_bound (now - Timer.startTime timer) 4294967296 ltac:(lia)) as Hm.
  rewrite (Z.mod_small (_ / 1000)); Z.div_mod_to_equations; lia.
Qed.

(** X17. A timer of more than 4294967 seconds never fires: the elapsed
    seconds, taken from a 32-bit millisecond difference, never exceed
    4294967 (about 49.7 days), so the sweep leaves such a timer alone at
    every time, although [addTimer] accepts the duration. *)
Theorem long_timer_never_fires (timer : Timer.t) :
  4294967 < Timer.duration timer →
  ∀ now cb w, expireTimer now cb timer w = (timer, w).
Proof.
  intros Hlong now cb w. unfold expireTimer.
  destruct (Timer.enabled timer); simpl; [|done].
  pose proof (elapsedSeconds_bound now timer) as Hb.
  destruct (Z.geb_spec (elapsedSeconds now timer) (Timer.duration timer)); [lia|done].
Qed.

Lemma long_timer_never_fires_witness :
  4294967 < Timer.duration (Timer.mk 1 0 4294968 true true) ∧
  (addTimer 0 1 4294968 true init).1 = true ∧
  expireTimer 4294967295 (Some store_state) (Timer.mk 1 0 4294968 true true) quiet
  = (Timer.mk 1 0 4294968 true true, quiet).
Proof.
  assert (H1 : 4294967 < Timer.duration (Timer.mk 1 0 4294968 true true))
    by (vm_compute; congruence).
  split; [exact H1|]. split; [reflexivity|].
  apply (long_timer_never_fires (Timer.mk 1 0 4294968 true true) H1).
Defined.
End TimerClock.

Section TimerLookup.
Import ScheduleController TimerSpec ExtraSpec.

(** The search finds the first enabled counted timer of the relay. *)
Lemma findTimerIndex_head r st :
  (timerCount st ≤ length (timers st))%nat →
  (findTimerIndex r st = -1 ∧ live_for r (counted st) = [])
  ∨ (∃ k x, findTimerIndex r st = Z.of_nat k ∧ timers st !! k = Some x
            ∧ head (live_for r (counted st)) = Some x).
Proof.
  intros Hn. unfold findTimerIndex.
  destruct (findTimerIndex_from_spec (timerCount st) 0 (timers st) r)
    as [[Hres Hall]|(k & x & Hres & Hk & Hx & He & Hr & Hall)].
  - left. split; [done|]. apply live_for_none. intros x Hx.
    apply list_elem_of_lookup in Hx as [j Hj].
    apply lookup_take_Some in Hj as [Hj Hlt].
    apply (Hall j x); [lia|done].
  - right. exists k, x. split; [done|]. split; [done|].
    assert (Hcx : counted st !! k = Some x).
    { unfold counted. by rewrite lookup_take_lt by lia. }
    rewrite <- (take_drop_middle _ _ _ Hcx), live_for_app.
    rewrite (live_for_none r (take k (counted st))).
    + simpl. unfold live_for. by rewrite filter_cons, decide_True.
    + intros y Hy. apply list_elem_of_lookup in Hy as [j Hj].
      apply lookup_take_Some in Hj as [Hj Hlt].
      apply lookup_take_Some in Hj as [Hj _].
      apply (Hall j y); [lia|done].
Qed.

Lemma getTimer_head r st :
  (timerCount st ≤ length (timers st))%nat →
  getTimer r st = head (live_for r (counted st)).
Proof.
  intros Hn. unfold getTimer.
  destruct (findTimerIndex_head r st Hn) as [[-> ->]|(k & x & -> & Hx & ->)]; [done|].
  rewrite (proj2 (Z.ltb_ge _ _)) by lia. by rewrite Nat2Z.id.
Qed.

Lemma getTimerRemaining_head now r st :
  (timerCount st ≤ length (timers st))%nat →
  getTimerRemaining now r st
  = match head (live_for r (counted st)) with
    | Some x =>
        if elapsedSeconds now x >=? Timer.duration x then 0
        else Timer.duration x - elapsedSeconds now x
    | None => 0
    end.
Proof.
  intros Hn. unfold getTimerRemaining.
  destruct (findTimerIndex_head r st Hn) as [[-> ->]|(k & x & -> & Hx & ->)]; [done|].
  rewrite (proj2 (Z.ltb_ge _ _)) by lia. by rewrite Nat2Z.id, Hx.
Qed.

Lemma cancelTimer_found r st :
  (timerCount st ≤ length (timers st))%nat →
  (cancelTimer r st).1 = bool_decide (live_for r (counted st) ≠ []).
Proof.
  intros Hn. unfold cancelTimer.
  destruct (findTimerIndex_head r st Hn) as [[-> ->]|(k & x & -> & Hx & Hhead)].
  - by rewrite bool_decide_false by (by intros ?).
  - rewrite (proj2 (Z.geb_le _ _)) by lia. simpl.
    rewrite bool_decide_true; [done|]. by destruct (live_for r (counted st)).
Qed.

(** X18. Lookup after insert: in a reachable state, after a successful
    [addTimer] for a relay, [getTimer] for that relay returns the timer
    just added (its start time, duration and expiry flag, enabled), and
    [getTimerRemaining] at the time of the addition returns the whole
    duration. *)
Theorem getTimer_after_addTimer st now relayId durationSeconds turnOffWhenExpired :
  reachable st → 0 <= durationSeconds →
  (addTimer now relayId durationSeconds turnOffWhenExpired st).1 = true →
  getTimer relayId (addTimer now relayId durationSeconds turnOffWhenExpired st).2
  = Some (Timer.mk relayId now durationSeconds turnOffWhenExpired true) ∧
  getTimerRemaining now relayId
    (addTimer now relayId durationSeconds turnOffWhenExpired st).2
  = durationSeconds.
Proof.
  intros Hreach Hdur Hok. pose proof (reachable_timers_ok st Hreach) as Hinv.
  destruct (addTimer_live now relayId durationSeconds turnOffWhenExpired st Hinv Hok)
    as [Hlive (Hlen & Hn & _)].
  rewrite getTimer_head, getTimerRemaining_head, Hlive by lia. simpl.
  split; [done|].
  assert (He : elapsedSeconds now
                 (Timer.mk relayId now durationSeconds turnOffWhenExpired true) = 0).
  { unfold elapsedSeconds. simpl. by rewrite Z.sub_diag. }
  rewrite He. destruct (Z.geb_spec 0 durationSeconds); lia.
Qed.

Lemma getTimer_after_addTimer_witness :
  reachable scenarioC ∧ 0 <= 7 ∧ (addTimer 900 1 7 false scenarioC).1 = true ∧
  getTimer 1 (addTimer 900 1 7 false scenarioC).2 = Some (Timer.mk 1 900 7 false true).
Proof.
  assert (Hreach : reachable scenarioC).
  { unfold scenarioC. do 3 apply reach_addTimer. apply reach_init. }
  assert (H7 : 0 <= 7) by lia.
  assert (Hok : (addTimer 900 1 7 false scenarioC).1 = true) by reflexivity.
  split; [exact Hreach|]. split; [exact H7|]. split; [exact Hok|].
  apply (getTimer_after_addTimer scenarioC 900 1 7 false Hreach H7 Hok).
Defined.

(** X19. Lookup after delete: [cancelTimer] answers whether the relay had
    an enabled timer; in a reachable state, after it the relay has none:
    [getTimer] returns null, [getTimerRemaining] returns 0 and a second
    [cancelTimer] answers false. The timers of the other relays are found
    as before. *)
Theorem getTimer_after_cancelTimer st relayId :
  reachable st →
  (cancelTimer relayId st).1 = bool_decide (is_Some (getTimer relayId st)) ∧
  getTimer relayId (cancelTimer relayId st).2 = None ∧
  (∀ now, getTimerRemaining now relayId (cancelTimer relayId st).2 = 0) ∧
  (cancelTimer relayId (cancelTimer relayId st).2).1 = false ∧
  (∀ r', r' ≠ relayId → getTimer r' (cancelTimer relayId st).2 = getTimer r' st).
Proof.
  intros Hreach. pose proof (reachable_timers_ok st Hreach) as (Hlen & Hn & Hone).
  destruct (cancelTimer_spec relayId st) as (Hc & Hl & _ & Hnone & Hsame & Hfound); [lia|].
  specialize (Hnone (Hone relayId)).
  assert (Hn' : (timerCount (cancelTimer relayId st).2
                 ≤ length (timers (cancelTimer relayId st).2))%nat) by (rewrite Hc, Hl; lia).
  split; [|split; [|split; [|split]]].
  - rewrite cancelTimer_found, getTimer_head by lia.
    by destruct (live_for relayId (counted st)).
  - by rewrite getTimer_head, Hnone.
  - intros now. by rewrite getTimerRemaining_head, Hnone.
  - rewrite cancelTimer_found, Hnone by done. by rewrite bool_decide_false by (by intros ?).
  - intros r' Hne. rewrite !getTimer_head by lia.
    destruct (cancelTimer relayId st).1 eqn:Hres; [|by rewrite Hsame].
    destruct (Hfound eq_refl) as (k & x & Hx & Hk & Hen & Hr & Ht).
    unfold counted. rewrite Hc, Ht. rewrite take_insert_lt by lia.
    fold (counted st).
    assert (Hcx : counted st !! k = Some x).
    { unfold counted. by rewrite lookup_take_lt by lia. }
    rewrite <- (take_drop_middle _ _ _ Hcx) at 2.
    rewrite insert_take_drop by (apply lookup_lt_Some in Hcx; lia).
    rewrite !live_for_app. f_equal. f_equal.
    unfold live_for. rewrite !filter_cons.
    rewrite decide_False by (intros [He _]; done).
    rewrite decide_False by (intros [_ Hr']; congruence). done.
Qed.

Lemma getTimer_after_cancelTimer_witness :
  reachable five_timers ∧ getTimer 0 (cancelTimer 0 five_timers).2 = None.
Proof.
  assert (Hreach : reachable five_timers).
  { unfold five_timers. do 5 apply reach_addTimer. apply reach_init. }
  split; [exact Hreach|].
  apply (getTimer_after_cancelTimer five_timers 0 Hreach).
Defined.
End TimerLookup.

Section TimerSweeps.
Import ScheduleController TimerSpec ExtraSpec.

Lemma survivors_quiet now cb (l : list Timer.t) :
  Forall (λ x, survives now x = true) l → concat (expiry_calls now cb <$> l) = [].
Proof.
  induction 1 as [|x l Hx _ IH]; [done|].
  rewrite fmap_cons, concat_cons, IH, app_nil_r.
  unfold expiry_calls, expired, survives in *.
  destruct (Timer.enabled x); [|done].
  by destruct (elapsedSeconds now x >=? Timer.duration x).
Qed.

(** X20. After a timer sweep every counted timer is enabled and unexpired,
    and a second sweep at the same time (with any callback) makes no call
    and leaves the counted timers and the count as they are. *)
Theorem sweep_settles st now cb w :
  (timerCount st ≤ length (timers st))%nat →
  Forall (λ x, Timer.enabled x = true ∧ survives now x = true)
    (counted (updateTimers now cb st w).1) ∧
  ∀ cb' w',
    counted (updateTimers now cb' (updateTimers now cb st w).1 w').1
      = counted (updateTimers now cb st w).1 ∧
    timerCount (updateTimers now cb' (updateTimers now cb st w).1 w').1
      = timerCount (updateTimers now cb st w).1 ∧
    calls (updateTimers now cb' (updateTimers now cb st w).1 w').2 = calls w'.
Proof.
  intros Hn.
  destruct (updateTimers_spec now cb st w Hn) as (Hc & Hk & _).
  destruct (updateTimers_bound now cb st w Hn) as [_ Hn1].
  assert (Hall : Forall (λ x, survives now x = true) (counted (updateTimers now cb st w).1)).
  { rewrite Hc. apply Forall_forall. intros x Hx.
    by apply list_elem_of_filter in Hx as [Hx _]. }
  split.
  - eapply Forall_impl; [exact Hall|]. intros x Hx. split; [|done].
    unfold survives in Hx. by destruct (Timer.enabled x).
  - intros cb' w'.
    destruct (updateTimers_spec now cb' (updateTimers now cb st w).1 w' Hn1)
      as (Hc2 & Hk2 & _ & Hcalls2 & _).
    assert (Hfix : filter (λ x, survives now x = true) (counted (updateTimers now cb st w).1)
                   = counted (updateTimers now cb st w).1).
    { rewrite Hc. by apply list_filter_filter_l. }
    split; [by rewrite Hc2|]. split.
    + rewrite Hk2, Hfix, Hk. by rewrite <- Hc.
    + rewrite Hcalls2, survivors_quiet by done. apply app_nil_r.
Qed.

Lemma sweep_settles_witness :
  (timerCount scenarioC ≤ length (timers scenarioC))%nat ∧
  calls (updateTimers 3200 (Some store_state)
           (updateTimers 3200 (Some store_state) scenarioC quiet).1 quiet).2
  = calls quiet.
Proof.
  assert (Hn : (timerCount scenarioC ≤ length (timers scenarioC))%nat)
    by (vm_compute; lia).
  split; [exact Hn|].
  apply (sweep_settles scenarioC 3200 (Some store_state) quiet Hn).
Defined.

Lemma live_for_filter r (P : Timer.t → Prop) `{!∀ x, Decision (P x)} (l : list Timer.t) :
  live_for r (filter P l) = filter P (live_for r l).
Proof.
  unfold live_for. rewrite !list_filter_filter. apply list_filter_iff.
  intros x. tauto.
Qed.

(** X21. [getTimerRemaining] agrees with the sweep: it is never negative;
    in a reachable state, when it is positive for a relay at some time, an
    [update] at that time keeps the timer of the relay ([getTimer] returns
    the same timer before and after); when it is zero, the relay has no
    timer after the [update]. *)
Theorem remaining_agrees_with_update st now cb w relayId :
  reachable st →
  0 <= getTimerRemaining now relayId st ∧
  (0 < getTimerRemaining now relayId st →
     is_Some (getTimer relayId st) ∧
     getTimer relayId (update now cb st w).1 = getTimer relayId st) ∧
  (getTimerRemaining now relayId st = 0 →
     getTimer relayId (update now cb st w).1 = None).
Proof.
  intros Hreach. pose proof (reachable_timers_ok st Hreach) as (Hlen & Hn & Hone).
  rewrite update_updateTimers.
  destruct (updateTimers_spec now cb st w) as (Hc & _); [lia|].
  destruct (updateTimers_bound now cb st w) as [_ Hn1]; [lia|].
  rewrite getTimerRemaining_head, !getTimer_head, Hc, live_for_filter by lia.
  specialize (Hone relayId).
  destruct (live_for relayId (counted st)) as [|x [|y l]] eqn:Hlive;
    [simpl; repeat split; (done || lia)| |simpl in Hone; lia].
  assert (Hen : Timer.enabled x = true).
  { assert (Hx : x ∈ live_for relayId (counted st)) by (rewrite Hlive; by left).
    unfold live_for in Hx. by apply list_elem_of_filter in Hx as [[? _] _]. }
  pose proof (elapsedSeconds_bound now x) as Hb.
  simpl. rewrite filter_cons, filter_nil. unfold survives. rewrite Hen. simpl.
  destruct (Z.geb_spec (elapsedSeconds now x) (Timer.duration x)); simpl;
    repeat case_decide; try done; repeat split; (eauto || lia).
Qed.

Lemma remaining_agrees_with_update_witness :
  reachable scenarioC ∧ 0 < getTimerRemaining 1200 1 scenarioC ∧
  getTimer 1 (update 1200 (Some store_state) scenarioC quiet).1 = getTimer 1 scenarioC.
Proof.
  assert (Hreach : reachable scenarioC).
  { unfold scenarioC. do 3 apply reach_addTimer. apply reach_init. }
  assert (Hpos : 0 < getTimerRemaining 1200 1 scenarioC) by (vm_compute; congruence).
  split; [exact Hreach|]. split; [exact Hpos|].
  apply (remaining_agrees_with_update scenarioC 1200 (Some store_state) quiet 1 Hreach).
  exact Hpos.
Defined.

Lemma live_sum (l : list Timer.t) :
  Forall (λ x, Timer.enabled x = true ∧ 0 <= Timer.relayId x < RELAY_COUNT) l →
  length l
  = (length (live_for 0 l) + length (live_for 1 l) + length (live_for 2 l)
     + length (live_for 3 l) + length (live_for 4 l))%nat.
Proof.
  induction 1 as [|x l [Hen Hr] _ IH]; [done|].
  unfold live_for in *. rewrite !filter_cons. unfold RELAY_COUNT in Hr.
  repeat case_decide; simpl; rewrite IH; try lia; exfalso; intuition lia.
Qed.

(** X22. There are as many timer slots as relays, so after an [update] a
    relay without a timer can always be given one: in a reachable state
    whose counted timers are for existing relays, once [update] has run,
    [addTimer] succeeds for every existing relay for which [getTimer]
    returns null. *)
Theorem free_relay_accepts_timer st now cb w relayId :
  reachable st →
  Forall (λ x, 0 <= Timer.relayId x < RELAY_COUNT) (counted st) →
  0 <= relayId < RELAY_COUNT →
  getTimer relayId (update now cb st w).1 = None →
  ∀ now' durationSeconds turnOffWhenExpired,
    (addTimer now' relayId durationSeconds turnOffWhenExpired (update now cb st w).1).1
    = true.
Proof.
  intros Hreach Hrange Hr Hnone now' dur flag.
  pose proof (reachable_timers_ok st Hreach) as Hok.
  pose proof (timers_ok_updateTimers now cb st w Hok) as (Hlen1 & Hn1 & Hone1).
  destruct Hok as (Hlen & Hn & Hone).
  rewrite update_updateTimers in *.
  destruct (updateTimers_spec now cb st w) as (Hc & _); [lia|].
  rewrite getTimer_head in Hnone by lia.
  set (st1 := (updateTimers now cb st w).1) in *.
  assert (Hempty : live_for relayId (counted st1) = []).
  { by destruct (live_for relayId (counted st1)). }
  assert (Hall : Forall (λ x, Timer.enabled x = true ∧ 0 <= Timer.relayId x < RELAY_COUNT)
                   (counted st1)).
  { rewrite Hc. apply Forall_forall. intros x Hx.
    apply list_elem_of_filter in Hx as [Hs Hx]. split.
    - unfold survives in Hs. by destruct (Timer.enabled x).
    - by apply (proj1 (Forall_forall _ _) Hrange). }
  pose proof (live_sum (counted st1) Hall) as Hsum.
  assert (Hcount : length (counted st1) = timerCount st1).
  { unfold counted. rewrite length_take. lia. }
  assert (Hroom : (timerCount st1 < MAX_TIMERS)%nat).
  { pose proof (Hone1 0) as H0. pose proof (Hone1 1) as H1. pose proof (Hone1 2) as H2.
    pose proof (Hone1 3) as H3. pose proof (Hone1 4) as H4.
    unfold RELAY_COUNT in Hr. unfold MAX_TIMERS.
    assert (Hcases : relayId = 0 ∨ relayId = 1 ∨ relayId = 2 ∨ relayId = 3 ∨ relayId = 4)
      by lia.
    destruct Hcases as [->|[->|[->|[->| ->]]]]; rewrite Hempty in *; simpl in *; lia. }
  destruct (addTimer_spec now' relayId dur flag st1 Hlen1) as [_ Hsucc].
  apply Hsucc; [done|lia].
Qed.

Lemma free_relay_accepts_timer_witness :
  reachable full_with_gap ∧
  Forall (λ x, 0 <= Timer.relayId x < RELAY_COUNT) (counted full_with_gap) ∧
  0 <= 0 < RELAY_COUNT ∧
  getTimer 0 (update 1000 None full_with_gap quiet).1 = None ∧
  (addTimer 1000 0 5 true full_with_gap).1 = false ∧
  (addTimer 1000 0 5 true (update 1000 None full_with_gap quiet).1).1 = true.
Proof.
  assert (Hreach : reachable full_with_gap).
  { unfold full_with_gap, five_timers. apply reach_cancelTimer.
    do 5 apply reach_addTimer. apply reach_init. }
  assert (Hrange : Forall (λ x, 0 <= Timer.relayId x < RELAY_COUNT) (counted full_with_gap)).
  { unfold counted, full_with_gap, five_timers. simpl.
    repeat (apply Forall_cons; split); try apply Forall_nil_2; vm_compute;
      split; congruence. }
  assert (Hr : 0 <= 0 < RELAY_COUNT) by (vm_compute; split; congruence).
  assert (Hnone : getTimer 0 (update 1000 None full_with_gap quiet).1 = None)
    by reflexivity.
  split; [exact Hreach|]. split; [exact Hrange|]. split; [exact Hr|].
  split; [exact Hnone|]. split; [reflexivity|].
  apply (free_relay_accepts_timer full_with_gap 1000 None quiet 0 Hreach Hrange Hr Hnone).
Defined.
End TimerSweeps.


(** * Scenes *)

Section Scenes.
Import SceneController SceneSpec.

Lemma apply_scene_calls f (states : list bool) w :
  length states = Z.to_nat RELAY_COUNT →
  calls (for_range 0 (Z.to_nat RELAY_COUNT)
           (λ i w, invoke f (Z.of_nat i) (default false (states !! i)) w) w)
  = calls w ++ imap (λ i b, (Z.of_nat i, b)) states.
Proof.
  intros Hlen.
  destruct states as [|b0 [|b1 [|b2 [|b3 [|b4 [|b5 l]]]]]]; try done.
  unfold for_range. simpl. by rewrite <- !app_assoc.
Qed.

(** X23. [activateSceneById] applies a scene exactly when the id is below
    the scene count, the scene is enabled and the callback is not null;
    then it calls the callback once per relay, relay 0 to relay 4 in this
    order, with the state the scene holds for it. In every other case it
    returns false and makes no call. *)
Theorem activateSceneById_applies st sceneId cb w :
  ((activateSceneById sceneId cb st w).1 = true ↔
     (sceneId < sceneCount st)%nat ∧ is_Some cb
     ∧ ∃ sc, scenes st !! sceneId = Some sc ∧ Scene.enabled sc = true) ∧
  ((activateSceneById sceneId cb st w).1 = false →
     (activateSceneById sceneId cb st w).2 = w) ∧
  (∀ sc, (activateSceneById sceneId cb st w).1 = true →
     scenes st !! sceneId = Some sc →
     length (Scene.relayStates sc) = Z.to_nat RELAY_COUNT →
     calls (activateSceneById sceneId cb st w).2 = calls w ++ scene_calls sc).
Proof.
  unfold activateSceneById.
  destruct (Nat.leb_spec (sceneCount st) sceneId) as [Hge|Hlt]; simpl.
  - split; [|split]; try done. split; [done|]. intros (Hlt & _). lia.
  - destruct (scenes st !! sceneId) as [sc|] eqn:Hsc; simpl.
    + destruct (Scene.enabled sc) eqn:Hen; simpl.
      * destruct cb as [f|]; simpl.
        -- split; [|split]; try done.
           ++ split; [|done]. intros _. split; [done|]. split; [eauto|]. eauto.
           ++ intros sc' _ [= <-] Hlen. by apply (apply_scene_calls f).
        -- split; [|split]; try done. split; [done|]. by intros (_ & [? ?] & _).
      * split; [|split]; try done. split; [done|].
        intros (_ & _ & sc' & [= <-] & Hen'). congruence.
    + split; [|split]; try done. split; [done|]. by intros (_ & _ & sc' & ? & _).
Qed.

Lemma activateSceneById_applies_witness :
  (activateSceneById 3 (Some store_state) (begin init) quiet).1 = true ∧
  scenes (begin init) !! 3%nat
    = Some (Scene.mk (Scene.Flash SCENE_NAME_PARTY) [true; true; true; true; true] true) ∧
  calls (activateSceneById 3 (Some store_state) (begin init) quiet).2
  = calls quiet
    ++ scene_calls (Scene.mk (Scene.Flash SCENE_NAME_PARTY) [true; true; true; true; true] true).
Proof.
  assert (H1 : (activateSceneById 3 (Some store_state) (begin init) quiet).1 = true)
    by reflexivity.
  assert (H2 : scenes (begin init) !! 3%nat
               = Some (Scene.mk (Scene.Flash SCENE_NAME_PARTY)
                         [true; true; true; true; true] true)) by reflexivity.
  split; [exact H1|]. split; [exact H2|].
  apply (activateSceneById_applies (begin init) 3 (Some store_state) quiet);
    [exact H1|exact H2|reflexivity].
Defined.

Lemma begin_scenes st :
  length (scenes st) = MAX_SCENES →
  sceneCount (begin st) = 7%nat
  ∧ ∃ last, scenes st !! 7%nat = Some last ∧ scenes (begin st) = predefined ++ [last].
Proof.
  intros Hlen. split; [done|].
  destruct (scenes st) as [|s0 [|s1 [|s2 [|s3 [|s4 [|s5 [|s6 [|s7 [|s8 l]]]]]]]]] eqn:E;
    try done.
  exists s7. split; [done|]. unfold begin, initializePredefinedScenes. by rewrite E.
Qed.

Ltac split_names n :=
  repeat match goal with
         | |- context [strcasecmp n ?s =? 0] => destruct (strcasecmp n s =? 0) eqn:?
         end.

(** X24. After [begin] there are seven scenes, whatever the controller held
    before, and a lookup by name is decided by the predefined names alone:
    [getScene] returns the first predefined scene whose name equals the
    name given, case ignored, or null; [activateScene] with a callback
    applies that scene (one call per relay, relay 0 first, with the states
    of the scene) and returns true, or returns false without any call when
    no name matches. *)
Theorem predefined_scenes st :
  length (scenes st) = MAX_SCENES →
  sceneCount (begin st) = 7%nat ∧
  take 7 (scenes (begin st)) = predefined ∧
  (∀ n, getScene (Some n) (begin st) = Some (List.find (name_matches n) predefined)) ∧
  (∀ n f w,
     ∃ res, activateScene (Some n) (Some f) (begin st) w = Some res ∧
            match List.find (name_matches n) predefined with
            | Some sc => res.1 = true ∧ calls res.2 = calls w ++ scene_calls sc
            | None => res = (false, w)
            end).
Proof.
  intros Hlen. destruct (begin_scenes st Hlen) as (Hcount & last & _ & Hscenes).
  split; [done|]. split; [by rewrite Hscenes|]. split.
  - intros n. unfold getScene. rewrite Hcount, Hscenes.
    unfold predefined, name_matches. cbn.
    split_names n; reflexivity.
  - intros n f w. unfold activateScene, activateSceneById. rewrite Hcount, Hscenes.
    unfold predefined, name_matches, scene_calls. cbn.
    split_names n; eexists; (split; [reflexivity|]); try reflexivity;
      (split; [reflexivity|]); by apply (apply_scene_calls f).
Qed.

Lemma predefined_scenes_witness :
  length (scenes init) = MAX_SCENES ∧
  getScene (Some "Good_Night") (begin init)
  = Some (Some (Scene.mk (Scene.Flash SCENE_NAME_GOOD_NIGHT)
                  [false; false; false; false; true] true)).
Proof.
  assert (H1 : length (scenes init) = MAX_SCENES) by reflexivity.
  split; [exact H1|].
  exact (proj1 (proj2 (proj2 (predefined_scenes init H1))) "Good_Night").
Defined.

Lemma tolower_toupper c : tolower (toupper c) = tolower c.
Proof. destruct c as [[] [] [] [] [] [] [] []]; reflexivity. Qed.

Lemma tolower_tolower c : tolower (tolower c) = tolower c.
Proof. destruct c as [[] [] [] [] [] [] [] []]; reflexivity. Qed.

Lemma strcasecmp_map_chars f :
  (∀ c, tolower (f c) = tolower c) →
  ∀ n s, strcasecmp (map_chars f n) s = strcasecmp n s.
Proof.
  intros Hf. induction n as [|c n IH]; intros [|c' s]; simpl; rewrite ?Hf; try done.
  by rewrite IH.
Qed.

Lemma findScene_map_chars f :
  (∀ c, tolower (f c) = tolower c) →
  ∀ sceneName k i arr,
    findScene_from k i arr (map_chars f sceneName) = findScene_from k i arr sceneName.
Proof.
  intros Hf sceneName. induction k as [|k IH]; intros i arr; [done|].
  simpl. rewrite !IH. destruct (arr !! i) as [sc|]; [|done].
  destruct (Scene.enabled sc); [|done].
  unfold compareSceneName. destruct (Scene.name sc) as [|s|s]; try done.
  by rewrite strcasecmp_map_chars.
Qed.

(** X25. Scene names are looked up without regard to case: in any state,
    with any callback, [getScene] and [activateScene] give the same result
    for a name, for the name in upper case and for the name in lower
    case. *)
Theorem scene_lookup_ignores_case st sceneName cb w :
  getScene (Some (map_chars toupper sceneName)) st = getScene (Some sceneName) st ∧
  getScene (Some (map_chars tolower sceneName)) st = getScene (Some sceneName) st ∧
  activateScene (Some (map_chars toupper sceneName)) cb st w
    = activateScene (Some sceneName) cb st w ∧
  activateScene (Some (map_chars tolower sceneName)) cb st w
    = activateScene (Some sceneName) cb st w.
Proof.
  unfold getScene, activateScene.
  rewrite !(findScene_map_chars toupper tolower_toupper),
    !(findScene_map_chars tolower tolower_tolower).
  done.
Qed.

(** X26. A custom scene after [begin]: [createCustomScene] succeeds exactly
    when the name has 1 to 15 characters and equals no predefined name,
    case ignored; otherwise it returns false and changes nothing. On
    success the predefined scenes are untouched, the scene is stored at
    index 7 with the name pointer given and the five relay states read,
    and the scene table is full: every further [createCustomScene] returns
    false, so one custom scene fits, not [MAX_CUSTOM_SCENES]. *)
Theorem custom_scene st name currentStates :
  length (scenes st) = MAX_SCENES →
  ∃ st',
    createCustomScene (Some name) currentStates (begin st)
    = Some (negb (String.length name =? 0)%nat && (String.length name <=? 15)%nat
            && negb (existsb (name_matches name) predefined), st') ∧
    (createCustomScene (Some name) currentStates (begin st) = Some (false, st') →
       st' = begin st) ∧
    (createCustomScene (Some name) currentStates (begin st) = Some (true, st') →
       sceneCount st' = MAX_SCENES ∧
       take 7 (scenes st') = predefined ∧
       getSceneByIndex 7 st'
         = Some (Scene.mk (Scene.Ram name) (captured currentStates) true) ∧
       (∀ name' states', createCustomScene name' states' st' = Some (false, st'))).
Proof.
  intros Hlen. destruct (begin_scenes st Hlen) as (Hcount & last & _ & Hscenes).
  assert (Hget : ∀ n, getScene (Some n) (begin st)
                      = Some (List.find (name_matches n) predefined)).
  { intros n. unfold getScene. rewrite Hcount, Hscenes.
    unfold predefined, name_matches. cbn. split_names n; reflexivity. }
  unfold createCustomScene. rewrite Hcount. cbn [Nat.leb MAX_SCENES].
  destruct (String.length name =? 0)%nat eqn:Hempty; cbn [orb negb andb].
  { exists (begin st). by repeat split. }
  destruct (15 <? String.length name)%nat eqn:Hlong.
  { rewrite (proj2 (Nat.leb_gt _ _)) by (by apply Nat.ltb_lt).
    exists (begin st). by repeat split. }
  rewrite (proj2 (Nat.leb_le _ _)) by (by apply Nat.ltb_ge). cbn [andb].
  rewrite Hget.
  destruct (List.find (name_matches name) predefined) as [sc|] eqn:Hfind.
  - assert (Hex : existsb (name_matches name) predefined = true).
    { apply existsb_exists. exists sc. apply find_some in Hfind. tauto. }
    rewrite Hex. exists (begin st). by repeat split.
  - assert (Hex : existsb (name_matches name) predefined = false).
    { destruct (existsb (name_matches name) predefined) eqn:E; [|done].
      apply existsb_exists in E as (sc & Hin & Hm).
      by rewrite (find_none _ _ Hfind sc Hin) in Hm. }
    rewrite Hex. eexists. split; [reflexivity|]. split; [done|]. intros _.
    rewrite Hscenes. cbn.
    split; [done|]. split; [done|]. split; done.
Qed.

Lemma custom_scene_witness :
  length (scenes init) = MAX_SCENES ∧
  ∃ st', createCustomScene (Some "reading") store_state_on3 (begin init) = Some (true, st') ∧
         getSceneByIndex 7 st'
         = Some (Scene.mk (Scene.Ram "reading") (captured store_state_on3) true).
Proof.
  assert (H1 : length (scenes init) = MAX_SCENES) by reflexivity.
  split; [exact H1|].
  destruct (custom_scene init "reading" store_state_on3 H1) as (st' & Hc & _ & Hok).
  exists st'. split; [exact Hc|]. apply (Hok Hc).
Defined.
End Scenes.

(** ** Relay ids handed to the callback *)

Section CallLogBound.
Context {A : Type} (step : A → World → A * World) (P : Z * bool → Prop).
Hypothesis step_bound : ∀ a w,
  ∃ new, calls (step a w).2 = calls w ++ new ∧ Forall P new.

(** A sweep whose steps log calls that satisfy [P] logs such calls only,
    whatever the count and the size of the array. *)
Lemma sweep_bound (n : nat) (arr : list A) (w : World) :
  ∃ new, calls (sweep step n arr w).2 = calls w ++ new ∧ Forall P new.
Proof using step_bound.
  induction n as [|n (new & Hc & HP)].
  - exists []. unfold sweep. rewrite for_range_nil by lia. simpl.
    by rewrite app_nil_r.
  - rewrite sweep_S. unfold sweep_body.
    destruct (sweep step n arr w) as [l' w']. simpl in *.
    destruct (l' !! n) as [a|]; [|by exists new].
    destruct (step_bound a w') as (new' & Hc' & HP').
    destruct (step a w') as [a' w'']. simpl in *.
    exists (new ++ new'). split.
    + by rewrite Hc', Hc, app_assoc.
    + by apply Forall_app.
Qed.
End CallLogBound.

Section RelayIds.
Import AutomationRule AutomationController.

Lemma evaluateRule_bound now currentTemp cb rule w :
  ∃ new, calls (evaluateRule now currentTemp cb rule w).2 = calls w ++ new
         ∧ Forall (λ c, c.1 < RELAY_COUNT) new.
Proof.
  assert (Hnone : ∃ new, calls w = calls w ++ new ∧ Forall (λ c, c.1 < RELAY_COUNT) new).
  { exists []. by rewrite app_nil_r. }
  unfold evaluateRule.
  destruct (negb (enabled rule)); [done|].
  destruct (evaluateCondition rule currentTemp && negb (currentlyTriggered rule));
    [|by destruct (negb (evaluateCondition rule currentTemp) && currentlyTriggered rule)].
  cbn [snd]. unfold executeAction. destruct cb as [f|]; [|done].
  destruct (Z.leb_spec RELAY_COUNT (relayId rule)) as [Hge|Hlt]; [done|].
  destruct (action rule); try done; eexists; (split; [reflexivity|]);
    by apply Forall_singleton.
Qed.

(** X27. [evaluate] never hands the callback a relay id that is not below
    [RELAY_COUNT], whatever the rules hold (a rule read from a file is not
    validated), the count, the reading and the relay states: every call
    it adds to the log names a relay below [RELAY_COUNT]. *)
Theorem evaluate_calls_existing_relays now currentTemp relayCallback st w :
  ∃ new, calls (evaluate now currentTemp relayCallback st w).2 = calls w ++ new
         ∧ Forall (λ c, c.1 < RELAY_COUNT) new.
Proof.
  unfold evaluate. destruct (negb (automationEnabled st)).
  - exists []. by rewrite app_nil_r.
  - cbn [ruleCount rules set_lastTemperature].
    destruct (sweep_bound (evaluateRule now currentTemp relayCallback)
                (λ c, c.1 < RELAY_COUNT)
                (evaluateRule_bound now currentTemp relayCallback)
                (ruleCount st) (rules st) w) as (new & Hc & HP).
    destruct (sweep _ _ _ _) as [rules' w']. by exists new.
Qed.
End RelayIds.

Section TimerRelayIds.
Import ScheduleController TimerSpec.

Lemma Forall_take_alter {A : Type} (P : A → Prop) (f : A → A) n k (l : list A) :
  (∀ x, P x → P (f x)) → Forall P (take n l) → Forall P (take n (alter f k l)).
Proof.
  intros Hf. revert n k. induction l as [|x l IH]; intros [|n] [|k] H; simpl in *;
    try done; inversion H; subst; constructor; eauto.
Qed.

(** The counted timers of a reachable state name relays below
    [RELAY_COUNT]: [addTimer] refuses any other id. *)
Lemma reachable_timer_relays st :
  reachable st → Forall (λ x, Timer.relayId x < RELAY_COUNT) (counted st).
Proof.
  intros Hreach. induction Hreach
    as [|st sd Hr IH|st now cb w Hr IH|st r h1 m1 h2 m2 d Hr IH|st i Hr IH
        |st i b Hr IH|st Hr IH|st sd Hr IH|st now r dur flag Hr IH|st r Hr IH|st Hr IH].
  - done.
  - unfold begin, counted in *. simpl.
    destruct (loadFromSD_timers (set_rtcAvailable false st) sd) as [-> ->]. done.
  - rewrite update_updateTimers.
    destruct (reachable_timers_ok st Hr) as (Hlen & Hn & _).
    destruct (updateTimers_spec now cb st w) as (-> & _); [lia|].
    apply Forall_forall. intros x [_ Hx]%list_elem_of_filter.
    by apply (proj1 (Forall_forall _ _) IH).
  - unfold addSchedule, counted in *. by repeat (case_match; simpl).
  - unfold removeSchedule, counted in *. by repeat (case_match; simpl).
  - unfold setScheduleEnabled, counted in *. by repeat (case_match; simpl).
  - done.
  - unfold counted in *. by destruct (loadFromSD_timers st sd) as [-> ->].
  - destruct (reachable_timers_ok st Hr) as (Hlen & Hn & _).
    destruct (addTimer_spec now r dur flag st Hlen) as [Hfail Hsucc].
    destruct (decide (timerCount st < MAX_TIMERS)%nat) as [Hroom|Hfull];
      [|by rewrite Hfail by (left; lia)].
    destruct (Z.lt_ge_cases r RELAY_COUNT) as [Hlt|Hge];
      [|by rewrite Hfail by (by right)].
    destruct (Hsucc Hroom Hlt) as (_ & -> & _).
    apply Forall_app. split; [|by apply Forall_singleton].
    unfold cancelTimer, counted in *.
    destruct (findTimerIndex r st >=? 0); [|done]. simpl.
    by apply Forall_take_alter.
  - unfold cancelTimer, counted in *.
    destruct (findTimerIndex r st >=? 0); [|done]. simpl.
    by apply Forall_take_alter.
  - done.
Qed.

(** X28. In every state the public operations of the schedule controller
    lead to, [update] (and [updateTimers]) hand the callback relay ids
    below [RELAY_COUNT] only: the sweep itself checks nothing, the ids
    are checked when a timer is added. *)
Theorem update_calls_existing_relays st now relayCallback w :
  reachable st →
  ∃ new, calls (update now relayCallback st w).2 = calls w ++ new
         ∧ calls (updateTimers now relayCallback st w).2 = calls w ++ new
         ∧ Forall (λ c, c.1 < RELAY_COUNT) new.
Proof.
  intros Hreach. rewrite update_updateTimers.
  destruct (reachable_timers_ok st Hreach) as (Hlen & Hn & _).
  destruct (updateTimers_spec now relayCallback st w) as (_ & _ & _ & Hc & _); [lia|].
  eexists. split; [exact Hc|]. split; [exact Hc|].
  apply Forall_concat, Forall_fmap.
  eapply Forall_impl; [apply (reachable_timer_relays st Hreach)|].
  intros x Hx. unfold expiry_calls. simpl.
  destruct (expired now x && bool_decide (is_Some relayCallback)); [|done].
  by apply Forall_singleton.
Qed.

Lemma update_calls_existing_relays_witness :
  reachable scenarioC ∧
  ∃ new, calls (update 3200 (Some store_state) scenarioC quiet).2 = calls quiet ++ new
         ∧ Forall (λ c, c.1 < RELAY_COUNT) new.
Proof.
  assert (Hreach : reachable scenarioC).
  { unfold scenarioC. do 3 apply reach_addTimer. apply reach_init. }
  split; [exact Hreach|].
  destruct (update_calls_existing_relays scenarioC 3200 (Some store_state) quiet Hreach)
    as (new & Hc & _ & HP).
  by exists new.
Defined.
End TimerRelayIds.
